(** * 9cc: an expression compiler for AArch64

    A shallow embedding of [src/9cc/9cc.c] (tokenizer, recursive-descent
    parser, stack-machine code generator and driver), a model of the
    AArch64 instructions the generator prints and of the immediates the
    assembler accepts in them, and the properties of the pipeline.

    Conventions of the embedding:
    - [char *user_input] is a [string]; a pointer into it is the offset
      ([nat]) from its first byte, and the byte just after the last one is
      the terminating NUL ([load]);
    - the linked list of [Token]s is a [list Token]; the global cursor
      [token] is the list of tokens from the current one on, and the empty
      list stands for the null pointer;
    - [int] is a 32-bit two's complement integer ([c_int]), [long] and the
      X registers are 64-bit ([sx64]); lengths and offsets are taken
      unbounded (inputs shorter than 2^31 bytes);
    - [exit(1)] after a diagnostic is the result [Exit1], a null-pointer
      dereference is [Segfault], and loops and recursion that Rocq cannot
      see terminating carry a [fuel] counter ([OutOfFuel]); the driver
      supplies enough of it ([tokenize_result], [expr_total]). *)

From Stdlib Require Import ZArith List String Ascii Bool Lia Arith Sorted.
From Stdlib Require Import DecimalString.
Import ListNotations.

Local Open Scope string_scope.
Local Open Scope list_scope.

(** ** Results of fallible code *)

(** What [error] and [error_at] were called with. *)
Inductive diag : Type :=
| ErrorAt (loc : nat) (fmt : string) (arg : option string)
| Error (fmt : string) (arg : string).

Inductive result (A : Type) : Type :=
| Ok (a : A)
| Exit1 (d : diag)
| Segfault
| OutOfFuel.

Arguments Ok {A} a.
Arguments Exit1 {A} d.
Arguments Segfault {A}.
Arguments OutOfFuel {A}.

Definition bind {A B : Type} (r : result A) (k : A -> result B) : result B :=
  match r with
  | Ok a => k a
  | Exit1 d => Exit1 d
  | Segfault => Segfault
  | OutOfFuel => OutOfFuel
  end.

(** ** The C library functions the program calls *)

Module Libc.

Definition NUL : ascii := Ascii.zero.

Definition code (c : ascii) : nat := nat_of_ascii c.

(** [isspace] and [isdigit] in the "C" locale. *)
Definition isspace (c : ascii) : bool :=
  ((code c =? 32) || ((9 <=? code c) && (code c <=? 13)))%nat.

Definition isdigit (c : ascii) : bool :=
  ((48 <=? code c) && (code c <=? 57))%nat.

(** The bytes of a C string: those before the first NUL. *)
Fixpoint c_str (m : list ascii) : list ascii :=
  match m with
  | [] => []
  | c :: m' => if Ascii.eqb c NUL then [] else c :: c_str m'
  end.

Definition strlen (m : list ascii) : nat := List.length (c_str m).

(** [m[i]]; past the stored bytes sits the terminator. *)
Definition load (m : list ascii) (i : nat) : ascii := nth i m NUL.

(** [memcmp(a, b, n)]: the difference of the first two bytes that
    differ among the first [n], or 0. *)
Fixpoint memcmp (a b : list ascii) (n : nat) : Z :=
  match n with
  | O => 0
  | S n' =>
      let x := load a 0 in
      let y := load b 0 in
      if Ascii.eqb x y then memcmp (tl a) (tl b) n'
      else (Z.of_nat (code x) - Z.of_nat (code y))%Z
  end.

(** [strchr(s, c)]: the index of the first [c] in [s], the terminator
    included; [None] is the null pointer. *)
Fixpoint strchr (s : list ascii) (c : ascii) : option nat :=
  match s with
  | [] => if Ascii.eqb c NUL then Some O else None
  | x :: s' =>
      if Ascii.eqb x c then Some O
      else if Ascii.eqb x NUL then None
      else option_map S (strchr s' c)
  end.

Definition not_null {A : Type} (p : option A) : bool :=
  match p with Some _ => true | None => false end.

Definition LONG_MAX : Z := (2 ^ 63 - 1)%Z.

Definition digit_value (c : ascii) : Z := (Z.of_nat (code c) - 48)%Z.

(** The longest prefix of decimal digits. *)
Fixpoint digit_run (m : list ascii) : list ascii :=
  match m with
  | [] => []
  | c :: m' => if isdigit c then c :: digit_run m' else []
  end.

(** The number a digit string denotes in base 10. *)
Definition decimal (ds : list ascii) : Z :=
  fold_left (fun acc c => (10 * acc + digit_value c)%Z) ds 0%Z.

(** [strtol(p, &p, 10)] where [*p] is a digit (there is then no white
    space or sign to skip): the value of the longest run of digits,
    [LONG_MAX] when it does not fit a [long], and the number of bytes
    the end pointer has advanced. *)
Definition strtol (m : list ascii) : Z * nat :=
  (Z.min (decimal (digit_run m)) LONG_MAX, List.length (digit_run m)).

(** Conversion of a [long] to [int]: reduction modulo 2^32 to the
    signed range (what GCC and Clang define). *)
Definition c_int (z : Z) : Z := ((z + 2 ^ 31) mod 2 ^ 32 - 2 ^ 31)%Z.

Definition INT_MAX : Z := (2 ^ 31 - 1)%Z.

(** [printf("%*s", width, s)]: [s] right-justified in [width] columns;
    never truncated. *)
Fixpoint blanks (n : nat) : string :=
  match n with
  | O => EmptyString
  | S n' => String " " (blanks n')
  end.

Definition pad_left (width : nat) (s : string) : string :=
  blanks (width - String.length s) ++ s.

(** [printf("%d", z)]. *)
Definition print_d (z : Z) : string := NilZero.string_of_int (Z.to_int z).

(** The conversions [vfprintf] meets in this program: [%s] and [%c],
    at most one of each. *)
Fixpoint format (fmt : string) (s_arg : string) (c_arg : ascii) : string :=
  match fmt with
  | EmptyString => EmptyString
  | String "%" (String "s" rest) => s_arg ++ format rest s_arg c_arg
  | String "%" (String "c" rest) => String c_arg (format rest s_arg c_arg)
  | String c rest => String c (format rest s_arg c_arg)
  end.

End Libc.

Import Libc.

Definition nl : string := String "010" EmptyString.

(** ** Tokenizer *)

Inductive TokenKind : Type :=
| TK_RESERVED
| TK_NUM
| TK_EOF.

(** [struct Token]; [next] is the tail of the list the token sits in, and
    [str] the offset in [user_input] its text starts at. *)
Record Token : Type := mkToken {
  kind : TokenKind;
  val : Z;
  str : nat;
  len : nat
}.

Definition TokenKind_eqb (a b : TokenKind) : bool :=
  match a, b with
  | TK_RESERVED, TK_RESERVED | TK_NUM, TK_NUM | TK_EOF, TK_EOF => true
  | _, _ => false
  end.

Definition set_val (t : Token) (v : Z) : Token :=
  {| kind := kind t; val := v; str := str t; len := len t |}.

Definition set_len (t : Token) (n : nat) : Token :=
  {| kind := kind t; val := val t; str := str t; len := n |}.

(** Assignment through [cur], which points to the last token linked. *)
Fixpoint upd_cur (f : Token -> Token) (l : list Token) : list Token :=
  match l with
  | [] => []
  | [t] => [f t]
  | t :: l' => t :: upd_cur f l'
  end.

(** [new_token]: a zeroed token with the three fields set, linked after
    [cur]; the list is the one that starts at [head.next]. *)
Definition new_token (k : TokenKind) (cur : list Token) (s : nat) (n : nat)
  : list Token :=
  cur ++ [{| kind := k; val := 0; str := s; len := n |}].

Section WithInput.

Variable user_input : string.

(** The bytes [user_input] points to. *)
Definition mem : list ascii := list_ascii_of_string user_input.

(** [*p] *)
Definition deref (p : nat) : ascii := load mem p.

(** What a [char *] at offset [p] sees. *)
Definition view (p : nat) : list ascii := skipn p mem.

Definition error_at {A : Type} (loc : nat) (fmt : string) (arg : option string)
  : result A :=
  Exit1 (ErrorAt loc fmt arg).

Definition startswith (p : nat) (q : string) : bool :=
  let q := list_ascii_of_string q in
  (memcmp (view p) q (strlen q) =? 0)%Z.

Fixpoint tokenize_loop (fuel : nat) (p : nat) (cur : list Token)
  : result (list Token) :=
  match fuel with
  | O => OutOfFuel
  | S fuel =>
      if Ascii.eqb (deref p) NUL then
        Ok (new_token TK_EOF cur p 0)
      else if isspace (deref p) then
        tokenize_loop fuel (p + 1) cur
      else if startswith p "==" || startswith p "!=" ||
              startswith p "<=" || startswith p ">=" then
        tokenize_loop fuel (p + 2) (new_token TK_RESERVED cur p 2)
      else if not_null (strchr (list_ascii_of_string "+-*/()<>") (deref p)) then
        tokenize_loop fuel (p + 1) (new_token TK_RESERVED cur p 1)
      else if isdigit (deref p) then
        let cur := new_token TK_NUM cur p 0 in
        let q := p in
        let '(v, n) := strtol (view p) in
        let p := p + n in
        let cur := upd_cur (fun t => set_val t (c_int v)) cur in
        let cur := upd_cur (fun t => set_len t (p - q)) cur in
        tokenize_loop fuel p cur
      else
        error_at p "トークナイズできません" None
  end.

(** Every turn of the loop moves [p] forward while [*p] is not NUL, so
    one more turn than there are bytes is enough. *)
Definition tokenize : result (list Token) :=
  tokenize_loop (S (String.length user_input)) 0 [].

End WithInput.

(** ** Parser *)

Inductive NodeKind : Type :=
| ND_ADD
| ND_SUB
| ND_MUL
| ND_DIV
| ND_EQ
| ND_NE
| ND_LT
| ND_LE
| ND_NUM.

Definition NodeKind_eqb (a b : NodeKind) : bool :=
  match a, b with
  | ND_ADD, ND_ADD | ND_SUB, ND_SUB | ND_MUL, ND_MUL | ND_DIV, ND_DIV
  | ND_EQ, ND_EQ | ND_NE, ND_NE | ND_LT, ND_LT | ND_LE, ND_LE
  | ND_NUM, ND_NUM => true
  | _, _ => false
  end.

Scheme All for option.

(** [struct Node]: the two child pointers may be null. *)
Module Node.

Inductive t : Type :=
| mk (kind : NodeKind) (lhs rhs : option t) (val : Z).

Definition kind (n : t) : NodeKind := let 'mk k _ _ _ := n in k.
Definition lhs (n : t) : option t := let 'mk _ l _ _ := n in l.
Definition rhs (n : t) : option t := let 'mk _ _ r _ := n in r.
Definition val (n : t) : Z := let 'mk _ _ _ v := n in v.

End Node.

Abbreviation Node := Node.t.

(** [calloc] zeroes the node. *)
Definition new_node (k : NodeKind) : Node := Node.mk k None None 0.

Definition new_binary (k : NodeKind) (lhs rhs : Node) : Node :=
  let node := new_node k in
  Node.mk (Node.kind node) (Some lhs) (Some rhs) (Node.val node).

Definition new_num (v : Z) : Node :=
  let node := new_node ND_NUM in
  Node.mk (Node.kind node) (Node.lhs node) (Node.rhs node) v.

(** Code that reads and moves the global cursor [token]. *)
Definition parser (A : Type) : Type := list Token -> result (A * list Token).

Definition ret {A : Type} (a : A) : parser A := fun token => Ok (a, token).

Definition pbind {A B : Type} (p : parser A) (k : A -> parser B) : parser B :=
  fun token => bind (p token) (fun '(a, token') => k a token').

Definition out_of_fuel {A : Type} : parser A := fun _ => OutOfFuel.

Declare Scope parser_scope.
Delimit Scope parser_scope with parser.
Notation "x <- p ;; k" := (pbind p (fun x => k))
  (at level 61, p at next level, right associativity) : parser_scope.

Section Parser.

Variable user_input : string.

Local Open Scope parser_scope.

(** The three tests that [consume] and [expect] make on [*token]. *)
Definition mismatch (op : string) (t : Token) : bool :=
  negb (TokenKind_eqb (kind t) TK_RESERVED) ||
  negb (strlen (list_ascii_of_string op) =? len t)%nat ||
  negb (memcmp (view user_input (str t)) (list_ascii_of_string op) (len t) =? 0)%Z.

Definition consume (op : string) : parser bool :=
  fun token =>
    match token with
    | [] => Segfault
    | t :: next =>
        if mismatch op t then Ok (false, token)
        else Ok (true, next)
    end.

Definition expect (op : string) : parser unit :=
  fun token =>
    match token with
    | [] => Segfault
    | t :: next =>
        if mismatch op t then
          error_at (str t) "'%c'ではありません" (Some op)
        else Ok (tt, next)
    end.

Definition expect_number : parser Z :=
  fun token =>
    match token with
    | [] => Segfault
    | t :: next =>
        if negb (TokenKind_eqb (kind t) TK_NUM) then
          error_at (str t) "数ではありません" None
        else Ok (val t, next)
    end.

Definition at_eof : parser bool :=
  fun token =>
    match token with
    | [] => Segfault
    | t :: _ => Ok (TokenKind_eqb (kind t) TK_EOF, token)
    end.

(** The seven grammar functions; each [for (;;)] is the [_loop] function
    next to it, [node] being the local variable of that name. *)
Fixpoint expr (fuel : nat) : parser Node :=
  match fuel with
  | O => out_of_fuel
  | S fuel => equality fuel
  end

with equality (fuel : nat) : parser Node :=
  match fuel with
  | O => out_of_fuel
  | S fuel =>
      node <- relational fuel ;;
      equality_loop fuel node
  end

with equality_loop (fuel : nat) (node : Node) : parser Node :=
  match fuel with
  | O => out_of_fuel
  | S fuel =>
      b <- consume "==" ;;
      if b then
        r <- relational fuel ;;
        equality_loop fuel (new_binary ND_EQ node r)
      else
        b <- consume "!=" ;;
        if b then
          r <- relational fuel ;;
          equality_loop fuel (new_binary ND_NE node r)
        else ret node
  end

with relational (fuel : nat) : parser Node :=
  match fuel with
  | O => out_of_fuel
  | S fuel =>
      node <- add fuel ;;
      relational_loop fuel node
  end

with relational_loop (fuel : nat) (node : Node) : parser Node :=
  match fuel with
  | O => out_of_fuel
  | S fuel =>
      b <- consume "<" ;;
      if b then
        r <- add fuel ;;
        relational_loop fuel (new_binary ND_LT node r)
      else
        b <- consume "<=" ;;
        if b then
          r <- add fuel ;;
          relational_loop fuel (new_binary ND_LE node r)
        else
          b <- consume ">" ;;
          if b then
            r <- add fuel ;;
            relational_loop fuel (new_binary ND_LT r node)
          else
            b <- consume ">=" ;;
            if b then
              r <- add fuel ;;
              relational_loop fuel (new_binary ND_LE r node)
            else ret node
  end

with add (fuel : nat) : parser Node :=
  match fuel with
  | O => out_of_fuel
  | S fuel =>
      node <- mul fuel ;;
      add_loop fuel node
  end

with add_loop (fuel : nat) (node : Node) : parser Node :=
  match fuel with
  | O => out_of_fuel
  | S fuel =>
      b <- consume "+" ;;
      if b then
        r <- mul fuel ;;
        add_loop fuel (new_binary ND_ADD node r)
      else
        b <- consume "-" ;;
        if b then
          r <- mul fuel ;;
          add_loop fuel (new_binary ND_SUB node r)
        else ret node
  end

with mul (fuel : nat) : parser Node :=
  match fuel with
  | O => out_of_fuel
  | S fuel =>
      node <- unary fuel ;;
      mul_loop fuel node
  end

with mul_loop (fuel : nat) (node : Node) : parser Node :=
  match fuel with
  | O => out_of_fuel
  | S fuel =>
      b <- consume "*" ;;
      if b then
        r <- unary fuel ;;
        mul_loop fuel (new_binary ND_MUL node r)
      else
        b <- consume "/" ;;
        if b then
          r <- unary fuel ;;
          mul_loop fuel (new_binary ND_DIV node r)
        else ret node
  end

with unary (fuel : nat) : parser Node :=
  match fuel with
  | O => out_of_fuel
  | S fuel =>
      b <- consume "+" ;;
      if b then primary fuel
      else
        b <- consume "-" ;;
        if b then
          r <- primary fuel ;;
          ret (new_binary ND_SUB (new_num 0) r)
        else primary fuel
  end

with primary (fuel : nat) : parser Node :=
  match fuel with
  | O => out_of_fuel
  | S fuel =>
      b <- consume "(" ;;
      if b then
        node <- expr fuel ;;
        _ <- expect ")" ;;
        ret node
      else
        v <- expect_number ;;
        ret (new_num v)
  end.

End Parser.

(** ** Code generator *)

Inductive reg : Type := X0 | X1 | X2.

Inductive cond : Type := EQ | NE | LT | LE.

(** The lines the program prints. *)
Inductive instr : Type :=
| Globl (sym : string)
| Label (sym : string)
| MovImm (rd : reg) (imm : Z)
| StrPre (rt : reg)
| LdrPost (rt : reg)
| AddR (rd rn rm : reg)
| SubR (rd rn rm : reg)
| MulR (rd rn rm : reg)
| SdivR (rd rn rm : reg)
| Cmp (rn rm : reg)
| Cset (rd : reg) (c : cond)
| Ret.

Definition reg_name (r : reg) : string :=
  match r with X0 => "x0" | X1 => "x1" | X2 => "x2" end.

Definition cond_name (c : cond) : string :=
  match c with EQ => "EQ" | NE => "NE" | LT => "LT" | LE => "LE" end.

Definition op3 (rd rn rm : reg) : string :=
  reg_name rd ++ ", " ++ reg_name rn ++ ", " ++ reg_name rm ++ nl.

(** The text of each line, as the [printf] calls have it (the [mul] line
    is indented by one space only). *)
Definition render (i : instr) : string :=
  match i with
  | Globl sym => ".globl " ++ sym ++ nl
  | Label sym => sym ++ ":" ++ nl
  | MovImm rd imm => "  mov " ++ reg_name rd ++ ", #" ++ print_d imm ++ nl
  | StrPre rt => "  str " ++ reg_name rt ++ ", [sp, -16]!" ++ nl
  | LdrPost rt => "  ldr " ++ reg_name rt ++ ", [sp], 16" ++ nl
  | AddR rd rn rm => "  add " ++ op3 rd rn rm
  | SubR rd rn rm => "  sub " ++ op3 rd rn rm
  | MulR rd rn rm => " mul " ++ op3 rd rn rm
  | SdivR rd rn rm => "  sdiv " ++ op3 rd rn rm
  | Cmp rn rm => "  cmp " ++ reg_name rn ++ ", " ++ reg_name rm ++ nl
  | Cset rd c => "  cset " ++ reg_name rd ++ ", " ++ cond_name c ++ nl
  | Ret => "  ret" ++ nl
  end.

Definition render_all (prog : list instr) : string :=
  String.concat "" (map render prog).

(** The [switch] of [gen]; it has no case for [ND_NUM]. *)
Definition gen_op (k : NodeKind) : list instr :=
  match k with
  | ND_ADD => [AddR X0 X0 X1]
  | ND_SUB => [SubR X0 X0 X1]
  | ND_MUL => [MulR X0 X0 X1]
  | ND_DIV => [SdivR X0 X0 X1]
  | ND_EQ => [Cmp X0 X1; Cset X0 EQ]
  | ND_NE => [Cmp X0 X1; Cset X0 NE]
  | ND_LT => [Cmp X0 X1; Cset X0 LT]
  | ND_LE => [Cmp X0 X1; Cset X0 LE]
  | ND_NUM => []
  end.

(** [gen]: the lines printed, in order. *)
Fixpoint gen (node : Node) : result (list instr) :=
  let 'Node.mk k lhs rhs v := node in
  if NodeKind_eqb k ND_NUM then
    Ok [MovImm X2 v; StrPre X2]
  else
    match lhs with
    | None => Segfault
    | Some l =>
        bind (gen l) (fun a =>
        match rhs with
        | None => Segfault
        | Some r =>
            bind (gen r) (fun b =>
            Ok (a ++ b ++ [LdrPost X1; LdrPost X0] ++ gen_op k ++ [StrPre X0]))
        end)
    end.

(** ** Driver *)

Inductive termination : Type :=
| Exited (code : Z)
| Killed
| Unfinished.

(** What a run of the program leaves behind. *)
Record process : Type := mkProcess {
  stdout : list instr;
  stderr : option diag;
  status : termination
}.

Definition die (d : diag) : process :=
  {| stdout := []; stderr := Some d; status := Exited 1 |}.

(** Fuel for [expr]: seven calls lead from one [primary] to the next, and
    each one in between takes a token. *)
Definition expr_fuel (token : list Token) : nat := 7 * List.length token + 7.

Definition main (argv : list string) : process :=
  match argv with
  | [_; arg] =>
      let user_input := arg in
      match tokenize user_input with
      | Ok token =>
          match expr user_input (expr_fuel token) token with
          | Ok (node, _) =>
              let out := [Globl "main"; Label "main"] in
              match gen node with
              | Ok body =>
                  {| stdout := out ++ body ++ [LdrPost X0; Ret];
                     stderr := None;
                     status := Exited 0 |}
              | Exit1 d => die d
              | Segfault => {| stdout := out; stderr := None; status := Killed |}
              | OutOfFuel => {| stdout := out; stderr := None; status := Unfinished |}
              end
          | Exit1 d => die d
          | Segfault => {| stdout := []; stderr := None; status := Killed |}
          | OutOfFuel => {| stdout := []; stderr := None; status := Unfinished |}
          end
      | Exit1 d => die d
      | Segfault => {| stdout := []; stderr := None; status := Killed |}
      | OutOfFuel => {| stdout := []; stderr := None; status := Unfinished |}
      end
  | _ => die (Error "%s: invalid number of arguments" (hd "" argv))
  end.

(** The bytes on the error stream. [error_at] prints [user_input], then
    one blank in a field of [pos] columns, the caret and the message;
    [c_arg] is the byte that [%c] makes of the pointer [expect] passes. *)
Definition stderr_text (user_input : string) (c_arg : ascii) (d : diag) : string :=
  match d with
  | ErrorAt loc fmt arg =>
      let pos := loc in
      string_of_list_ascii (c_str (list_ascii_of_string user_input)) ++ nl ++
      pad_left pos " " ++
      "^ " ++
      format fmt "" c_arg ++
      nl
  | Error fmt arg => format fmt arg c_arg ++ nl
  end.

(** ** The target machine

    The part of AArch64 that the printed lines use: 64-bit registers held
    as signed numbers, the NZCV flags, and the stack below [sp] as the
    list of the 16-byte slots pushed, the most recent first. Between the
    lines and the machine stands the assembler, which turns a line into
    an instruction or refuses it. Of the lines the program prints it can
    refuse a [mov]: the immediate must have one of the encodings of that
    instruction ([mov_imm]). *)

Definition sx64 (z : Z) : Z := ((z + 2 ^ 63) mod 2 ^ 64 - 2 ^ 63)%Z.

Record nzcv : Type := mkFlags { fN : bool; fZ : bool; fC : bool; fV : bool }.

Record machine : Type := mkMachine {
  x0 : Z;
  x1 : Z;
  x2 : Z;
  flags : nzcv;
  stack : list Z
}.

Definition get (r : reg) (m : machine) : Z :=
  match r with X0 => x0 m | X1 => x1 m | X2 => x2 m end.

Definition set (r : reg) (v : Z) (m : machine) : machine :=
  match r with
  | X0 => mkMachine v (x1 m) (x2 m) (flags m) (stack m)
  | X1 => mkMachine (x0 m) v (x2 m) (flags m) (stack m)
  | X2 => mkMachine (x0 m) (x1 m) v (flags m) (stack m)
  end.

Definition set_flags (f : nzcv) (m : machine) : machine :=
  mkMachine (x0 m) (x1 m) (x2 m) f (stack m).

Definition set_stack (s : list Z) (m : machine) : machine :=
  mkMachine (x0 m) (x1 m) (x2 m) (flags m) s.

(** [cmp a, b] sets the flags of the subtraction [a - b]. *)
Definition cmp_flags (a b : Z) : nzcv :=
  let d := (a - b)%Z in
  {| fN := (sx64 d <? 0)%Z;
     fZ := (sx64 d =? 0)%Z;
     fC := (b mod 2 ^ 64 <=? a mod 2 ^ 64)%Z;
     fV := negb (sx64 d =? d)%Z |}.

Definition holds (c : cond) (f : nzcv) : bool :=
  match c with
  | EQ => fZ f
  | NE => negb (fZ f)
  | LT => negb (Bool.eqb (fN f) (fV f))
  | LE => fZ f || negb (Bool.eqb (fN f) (fV f))
  end.

(** [sdiv]: rounds towards zero; a zero divisor gives zero. *)
Definition sdiv (a b : Z) : Z :=
  if (b =? 0)%Z then 0%Z else sx64 (Z.quot a b).

(** *** The immediates of [mov]

    [mov Xd, #imm] is written for three instructions: MOVZ, which loads a
    16-bit value shifted left by 0, 16, 32 or 48 bits; MOVN, which loads
    the complement of such a value; and ORR with the zero register, which
    loads a bitmask immediate: a run of ones, shorter than the element,
    rotated within an element of 2, 4, 8, 16, 32 or 64 bits, the element
    repeated to fill the register. An assembler refuses any other
    immediate. *)

(** The 64-bit pattern [u] is a 16-bit value in one of the four places. *)
Definition wide_imm (u : Z) : bool :=
  existsb (fun s => (u =? (u / 2 ^ s) mod 2 ^ 16 * 2 ^ s)%Z) [0; 16; 32; 48]%Z.

(** [n] ones. *)
Definition ones (n : nat) : Z := (2 ^ Z.of_nat n - 1)%Z.

(** Rotation to the right by [r] within [e] bits. *)
Definition ror (e r : nat) (x : Z) : Z :=
  ((x / 2 ^ Z.of_nat r + x mod 2 ^ Z.of_nat r * 2 ^ Z.of_nat (e - r))
   mod 2 ^ Z.of_nat e)%Z.

(** The [e]-bit element [x] repeated over 64 bits. *)
Definition replicate (e : nat) (x : Z) : Z :=
  (x * ((2 ^ 64 - 1) / (2 ^ Z.of_nat e - 1)))%Z.

Definition bitmask_imm (u : Z) : bool :=
  existsb
    (fun e =>
       existsb
         (fun n =>
            existsb (fun r => (u =? replicate e (ror e r (ones (S n))))%Z) (seq 0 e))
         (seq 0 (e - 1)))
    [2; 4; 8; 16; 32; 64].

(** The immediates the assembler accepts in [mov Xd, #imm]. *)
Definition mov_imm (imm : Z) : bool :=
  let u := (imm mod 2 ^ 64)%Z in
  (- 2 ^ 63 <=? imm)%Z && (imm <? 2 ^ 64)%Z &&
  (wide_imm u || wide_imm (2 ^ 64 - 1 - u) || bitmask_imm u).

(** Whether the assembler accepts a line. *)
Definition assembled (i : instr) : bool :=
  match i with
  | MovImm _ imm => mov_imm imm
  | _ => true
  end.

(** What a line does to the registers, the flags and the stack, once it
    is an instruction. *)
Definition effect (i : instr) (m : machine) : option machine :=
  match i with
  | Globl _ | Label _ => Some m
  | MovImm rd imm => Some (set rd (sx64 imm) m)
  | StrPre rt => Some (set_stack (get rt m :: stack m) m)
  | LdrPost rt =>
      match stack m with
      | [] => None
      | v :: s => Some (set rt v (set_stack s m))
      end
  | AddR rd rn rm => Some (set rd (sx64 (get rn m + get rm m)) m)
  | SubR rd rn rm => Some (set rd (sx64 (get rn m - get rm m)) m)
  | MulR rd rn rm => Some (set rd (sx64 (get rn m * get rm m)) m)
  | SdivR rd rn rm => Some (set rd (sdiv (get rn m) (get rm m)) m)
  | Cmp rn rm => Some (set_flags (cmp_flags (get rn m) (get rm m)) m)
  | Cset rd c => Some (set rd (if holds c (flags m) then 1 else 0)%Z m)
  | Ret => None
  end.

(** The effect of a block, line after line. *)
Fixpoint exec (prog : list instr) (m : machine) : option machine :=
  match prog with
  | [] => Some m
  | i :: prog' =>
      match effect i m with
      | Some m' => exec prog' m'
      | None => None
      end
  end.

(** The effect of a call of the function printed: that of its lines up
    to [ret], giving the return-value register and the stack left. *)
Fixpoint call (prog : list instr) (m : machine) : option (Z * list Z) :=
  match prog with
  | [] => None
  | Ret :: _ => Some (x0 m, stack m)
  | i :: prog' =>
      match effect i m with
      | Some m' => call prog' m'
      | None => None
      end
  end.

(** One line on the target: the assembler has to accept it. *)
Definition exec_instr (i : instr) (m : machine) : option machine :=
  if assembled i then effect i m else None.

(** A call of the function printed, on the target: [None] when the
    assembler refuses a line, or when a line reads below the stack. *)
Fixpoint target_call (prog : list instr) (m : machine) : option (Z * list Z) :=
  match prog with
  | [] => None
  | Ret :: _ => Some (x0 m, stack m)
  | i :: prog' =>
      match exec_instr i m with
      | Some m' => target_call prog' m'
      | None => None
      end
  end.

Definition boot : machine :=
  mkMachine 0 0 0 (mkFlags false false false false) [].

(** The value the compiled program returns for an input. *)
Definition returns (input : string) : option Z :=
  let p := main ["9cc"; input] in
  match status p with
  | Exited 0 => option_map fst (target_call (stdout p) boot)
  | _ => None
  end.

(** ** Notions the properties are stated with *)

(** *** Tokens and their text *)

(** The bytes of [user_input] a token covers. *)
Definition text (user_input : string) (t : Token) : list ascii :=
  map (deref user_input) (seq (str t) (len t)).

(** One turn of the loop of [tokenize] at [p] moves [p] here; [None]
    when the loop ends there, at the terminator or with an error. *)
Definition advance (user_input : string) (p : nat) : option nat :=
  let c := deref user_input p in
  if Ascii.eqb c NUL then None
  else if isspace c then Some (p + 1)
  else if startswith user_input p "==" || startswith user_input p "!=" ||
          startswith user_input p "<=" || startswith user_input p ">=" then
    Some (p + 2)
  else if not_null (strchr (list_ascii_of_string "+-*/()<>") c) then Some (p + 1)
  else if isdigit c then Some (p + List.length (digit_run (view user_input p)))
  else None.

(** The offsets the left-to-right scan stops at. *)
Inductive Scans (user_input : string) : nat -> Prop :=
| Scans_start : Scans user_input 0
| Scans_step p p' :
    Scans user_input p -> advance user_input p = Some p' -> Scans user_input p'.

(** One of the four two-character operators starts at [p]. *)
Definition op2_at (user_input : string) (p : nat) : bool :=
  startswith user_input p "==" || startswith user_input p "!=" ||
  startswith user_input p "<=" || startswith user_input p ">=".

(** One of the eight one-character operators is at [p]. *)
Definition op1_at (user_input : string) (p : nat) : bool :=
  existsb (Ascii.eqb (deref user_input p)) (list_ascii_of_string "+-*/()<>").

(** The byte at [p] belongs to the input and begins no token: it is not
    white space, not a digit, and no operator starts there. *)
Definition begins_no_token (user_input : string) (p : nat) : bool :=
  let c := deref user_input p in
  negb (Ascii.eqb c NUL) && negb (isspace c) && negb (isdigit c) &&
  negb (op2_at user_input p) && negb (op1_at user_input p).

(** The token one turn of the loop at [p] links; none for white space
    or where the loop ends with an error. *)
Definition token_at (user_input : string) (p : nat) : option Token :=
  let c := deref user_input p in
  if Ascii.eqb c NUL then Some (mkToken TK_EOF 0 p 0)
  else if isspace c then None
  else if op2_at user_input p then Some (mkToken TK_RESERVED 0 p 2)
  else if not_null (strchr (list_ascii_of_string "+-*/()<>") c) then
    Some (mkToken TK_RESERVED 0 p 1)
  else if isdigit c then
    Some (mkToken TK_NUM (c_int (fst (strtol (view user_input p)))) p
            (snd (strtol (view user_input p))))
  else None.

Definition cannot_tokenize : string := "トークナイズできません".

(** [n] digits of the input from offset [i] on, with no digit before or
    after. *)
Definition maximal_run (user_input : string) (i n : nat) : bool :=
  (1 <=? n)%nat && (i + n <=? strlen (mem user_input))%nat &&
  forallb (fun k => isdigit (deref user_input (i + k))) (seq 0 n) &&
  negb (isdigit (deref user_input (i + n))) &&
  ((i =? 0)%nat || negb (isdigit (deref user_input (i - 1)))).

(** *** Diagnostics *)

(** The column of the first [c] in a line. *)
Fixpoint index_of (c : ascii) (line : string) : option nat :=
  match line with
  | EmptyString => None
  | String x rest => if Ascii.eqb x c then Some 0 else option_map S (index_of c rest)
  end.

(** The second line of the diagnostic of [error_at], from its first
    column to the caret and the blank after it. *)
Definition caret_line (loc : nat) : string := pad_left loc " " ++ "^ ".

(** *** Well-formed trees *)

Definition is_null {A : Type} (p : option A) : bool := negb (not_null p).

(** A [ND_NUM] node has no children, any other node has both, and so on
    below. *)
Fixpoint ast_ok (node : Node) : bool :=
  let 'Node.mk k lhs rhs _ := node in
  if NodeKind_eqb k ND_NUM then is_null lhs && is_null rhs
  else
    match lhs, rhs with
    | Some l, Some r => ast_ok l && ast_ok r
    | _, _ => false
    end.

(** The value of a tree in the arithmetic of the X registers. *)
Definition op64 (k : NodeKind) (a b : Z) : Z :=
  match k with
  | ND_ADD => sx64 (a + b)
  | ND_SUB => sx64 (a - b)
  | ND_MUL => sx64 (a * b)
  | ND_DIV => sdiv a b
  | ND_EQ => if (a =? b)%Z then 1 else 0
  | ND_NE => if (a =? b)%Z then 0 else 1
  | ND_LT => if (a <? b)%Z then 1 else 0
  | ND_LE => if (a <=? b)%Z then 1 else 0
  | ND_NUM => 0
  end%Z.

Fixpoint value64 (node : Node) : Z :=
  let 'Node.mk k lhs rhs v := node in
  if NodeKind_eqb k ND_NUM then sx64 v
  else
    op64 k (match lhs with Some l => value64 l | None => 0%Z end)
           (match rhs with Some r => value64 r | None => 0%Z end).

(** Pushes and pops in a block of code. *)
Definition pushes (prog : list instr) : nat :=
  List.length (filter (fun i => match i with StrPre _ => true | _ => false end) prog).

Definition pops (prog : list instr) : nat :=
  List.length (filter (fun i => match i with LdrPost _ => true | _ => false end) prog).

(** *** The expression language the compiler is measured against

    Written from the grammar and the rules of evaluation of the
    specification, not from the parser: the syntax tree of an expression
    as it is written (parentheses, signs and all six comparisons kept),
    the precedence and associativity rules as a condition on such trees,
    and their value over the integers. *)

Inductive binop : Type :=
| OAdd | OSub | OMul | ODiv | OEq | ONe | OLt | OLe | OGt | OGe.

Inductive sexp : Type :=
| SNum (n : Z)
| SParen (e : sexp)
| SPos (e : sexp)
| SNeg (e : sexp)
| SBin (op : binop) (a b : sexp).

Inductive lexeme : Type :=
| LNum (n : Z)
| LOp (s : string)
| LEof.

Definition op_text (op : binop) : string :=
  match op with
  | OAdd => "+" | OSub => "-" | OMul => "*" | ODiv => "/"
  | OEq => "==" | ONe => "!=" | OLt => "<" | OLe => "<=" | OGt => ">" | OGe => ">="
  end.

(** Binding strength: equality 0, relational 1, additive 2,
    multiplicative 3; a sign binds at 4 and a primary at 5. *)
Definition prec (op : binop) : nat :=
  match op with
  | OEq | ONe => 0
  | OLt | OLe | OGt | OGe => 1
  | OAdd | OSub => 2
  | OMul | ODiv => 3
  end.

(** [e] may stand where an operand of strength [lvl] or more is asked
    for. A binary operator takes a left operand of its own strength (it
    associates to the left) and a right operand of a greater one; a sign
    takes a primary; parentheses take anything. *)
Fixpoint conforms (lvl : nat) (e : sexp) : bool :=
  match e with
  | SNum n => (0 <=? n)%Z
  | SParen a => conforms 0 a
  | SPos a | SNeg a => (lvl <=? 4)%nat && conforms 5 a
  | SBin op a b =>
      (lvl <=? prec op)%nat && conforms (prec op) a && conforms (S (prec op)) b
  end.

(** The expression as a sequence of lexemes. *)
Fixpoint flatten (e : sexp) : list lexeme :=
  match e with
  | SNum n => [LNum n]
  | SParen a => LOp "(" :: flatten a ++ [LOp ")"]
  | SPos a => LOp "+" :: flatten a
  | SNeg a => LOp "-" :: flatten a
  | SBin op a b => flatten a ++ LOp (op_text op) :: flatten b
  end.

Definition of_bool (b : bool) : Z := if b then 1%Z else 0%Z.

Definition apply_op (op : binop) (a b : Z) : option Z :=
  match op with
  | OAdd => Some (a + b)
  | OSub => Some (a - b)
  | OMul => Some (a * b)
  | ODiv => if (b =? 0)%Z then None else Some (Z.quot a b)
  | OEq => Some (of_bool (a =? b))
  | ONe => Some (of_bool (negb (a =? b)))
  | OLt => Some (of_bool (a <? b))
  | OLe => Some (of_bool (a <=? b))
  | OGt => Some (of_bool (a >? b))
  | OGe => Some (of_bool (a >=? b))
  end%Z.

(** The value over the integers; division truncates and has no value when
    the divisor is zero. *)
Fixpoint seval (e : sexp) : option Z :=
  match e with
  | SNum n => Some n
  | SParen a => seval a
  | SPos a => seval a
  | SNeg a => option_map Z.opp (seval a)
  | SBin op a b =>
      match seval a, seval b with
      | Some x, Some y => apply_op op x y
      | _, _ => None
      end
  end.

Definition in_long (o : option Z) : bool :=
  match o with
  | Some v => ((- 2 ^ 63 <=? v) && (v <=? LONG_MAX))%Z
  | None => false
  end.

(** Every literal fits an [int] and the value of every subexpression a
    64-bit register. *)
Fixpoint fits (e : sexp) : bool :=
  match e with
  | SNum n => (n <=? INT_MAX)%Z
  | SParen a | SPos a => fits a
  | SNeg a => fits a && in_long (seval e)
  | SBin _ a b => fits a && fits b && in_long (seval e)
  end.

(** How the text of a token reads. *)
Definition lexeme_of (user_input : string) (t : Token) : lexeme :=
  match kind t with
  | TK_RESERVED => LOp (string_of_list_ascii (text user_input t))
  | TK_NUM => LNum (decimal (text user_input t))
  | TK_EOF => LEof
  end.

(** The lexemes of an input the tokenizer accepts. *)
Definition lexemes (user_input : string) : option (list lexeme) :=
  match tokenize user_input with
  | Ok token => Some (map (lexeme_of user_input) token)
  | _ => None
  end.

(** The tree the parser is to build for an expression, given by the
    fields of its nodes: signs and parentheses leave no node but [0 - x]
    for a minus, and the operands of [>] and [>=] change places. *)
Definition literal (n : Z) : Z := c_int (Z.min n LONG_MAX).

Definition node_kind (op : binop) : NodeKind :=
  match op with
  | OAdd => ND_ADD | OSub => ND_SUB | OMul => ND_MUL | ODiv => ND_DIV
  | OEq => ND_EQ | ONe => ND_NE | OLt | OGt => ND_LT | OLe | OGe => ND_LE
  end.

Definition swaps (op : binop) : bool :=
  match op with OGt | OGe => true | _ => false end.

Definition build (op : binop) (l r : Node) : Node :=
  if swaps op then Node.mk (node_kind op) (Some r) (Some l) 0
  else Node.mk (node_kind op) (Some l) (Some r) 0.

Fixpoint node_of (e : sexp) : Node :=
  match e with
  | SNum n => Node.mk ND_NUM None None (literal n)
  | SParen a | SPos a => node_of a
  | SNeg a =>
      Node.mk ND_SUB (Some (Node.mk ND_NUM None None 0)) (Some (node_of a)) 0
  | SBin op a b => build op (node_of a) (node_of b)
  end.

(** The first two steps of the driver. *)
Definition parse_string (input : string) : result (Node * list Token) :=
  bind (tokenize input) (fun token => expr input (expr_fuel token) token).

(** The lexeme is one of the ten binary operators. *)
Definition is_binop (l : lexeme) : bool :=
  match l with
  | LOp op =>
      existsb (String.eqb op) ["+"; "-"; "*"; "/"; "=="; "!="; "<"; "<="; ">"; ">="]
  | _ => false
  end.

(** *** Auxiliary notions of the proofs *)

(** Every tree [p] returns is well formed; a loop keeps a well-formed
    [node] so. *)
Definition yields_ast_ok (p : parser Node) : Prop :=
  forall token node token', p token = Ok (node, token') -> ast_ok node = true.

Definition loop_keeps_ast_ok (p : Node -> parser Node) : Prop :=
  forall node, ast_ok node = true -> yields_ast_ok (p node).

(** What [p] returns, short of [OutOfFuel], [q] returns too. *)
Definition stable {A : Type} (p q : parser A) : Prop :=
  forall token r, p token = r -> r <> OutOfFuel -> q token = r.

(** [p] does not run out of fuel on [token], and what it returns leaves
    at least [d] tokens less. *)
Definition good {A : Type} (d : nat) (p : parser A) (token : list Token) : Prop :=
  p token <> OutOfFuel /\
  forall a token', p token = Ok (a, token') ->
                   List.length token' + d <= List.length token.

(** The grammar function for operands of strength [k], and the loop of
    the binary operators of that strength. *)
Definition parse_at (k : nat) : string -> nat -> parser Node :=
  match k with
  | 0 => equality
  | 1 => relational
  | 2 => add
  | 3 => mul
  | 4 => unary
  | _ => primary
  end.

Definition loop_at (k : nat) : string -> nat -> Node -> parser Node :=
  match k with
  | 0 => equality_loop
  | 1 => relational_loop
  | 2 => add_loop
  | _ => mul_loop
  end.

Definition Parses (s : string) (k : nat) (token : list Token) (node : Node)
           (rest : list Token) : Prop :=
  exists fuel, parse_at k s fuel token = Ok (node, rest).

Definition Loops (s : string) (k : nat) (node : Node) (token : list Token)
           (node' : Node) (rest : list Token) : Prop :=
  exists fuel, loop_at k s fuel node token = Ok (node', rest).

Definition lexeme_eqb (a b : lexeme) : bool :=
  match a, b with
  | LNum x, LNum y => (x =? y)%Z
  | LOp x, LOp y => String.eqb x y
  | LEof, LEof => true
  | _, _ => false
  end.

(** The number token's value is the [int] read from its text. *)
Definition sound (s : string) (t : Token) : Prop :=
  kind t = TK_NUM -> val t = literal (decimal (text s t)).

Definition no_NUL (op : string) : Prop :=
  c_str (list_ascii_of_string op) = list_ascii_of_string op.

(** The tokens [ts] read as the lexemes [ls]. *)
Definition spelled (s : string) (ts : list Token) (ls : list lexeme) : Prop :=
  map (lexeme_of s) ts = ls /\ Forall (sound s) ts.

(** What follows an operand of strength [k]: a token (there is one) that
    is not a binary operator of strength [k] or more. The signs and the
    primaries do not look at it. *)
Definition stops (s : string) (k : nat) (rest : list Token) : Prop :=
  4 <= k \/
  exists t rest', rest = t :: rest' /\
                  forall op, k <= prec op -> lexeme_of s t <> LOp (op_text op).

(** The strength at which an expression stands by its outermost form. *)
Definition level (e : sexp) : nat :=
  match e with
  | SNum _ | SParen _ => 5
  | SPos _ | SNeg _ => 4
  | SBin op _ _ => prec op
  end.

(** The parser, asked for an operand of strength [k], takes the tokens of
    [e] and returns the tree of [e]; and it goes on after them as the loop
    of strength [k] does from that tree. *)
Definition parses_as (s : string) (e : sexp) (k : nat) : Prop :=
  forall ts rest,
    spelled s ts (flatten e) -> stops s k rest ->
    Parses s k (ts ++ rest) (node_of e) rest.

Definition continues_as (s : string) (e : sexp) (k : nat) : Prop :=
  k <= 3 ->
  forall ts rest n' rest',
    spelled s ts (flatten e) -> stops s (S k) rest ->
    Loops s k (node_of e) rest n' rest' ->
    Parses s k (ts ++ rest) n' rest'.

Definition at_level (s : string) (e : sexp) (k : nat) : Prop :=
  parses_as s e k /\ continues_as s e k.

(** *** Notions of the further properties *)

Definition nonblank (c : ascii) : bool := negb (isspace c).

(** The twelve texts a reserved token can have. *)
Definition operators : list string :=
  ["=="; "!="; "<="; ">="; "+"; "-"; "*"; "/"; "("; ")"; "<"; ">"].

(** What the fields of a token hold, by its kind. *)
Definition token_shape (user_input : string) (t : Token) : Prop :=
  match kind t with
  | TK_RESERVED =>
      In (string_of_list_ascii (text user_input t)) operators /\ val t = 0%Z
  | TK_NUM =>
      1 <= len t /\
      forallb isdigit (text user_input t) = true /\
      val t = literal (decimal (text user_input t)) /\
      (- 2 ^ 31 <= val t <= INT_MAX)%Z
  | TK_EOF =>
      len t = 0 /\ str t = strlen (mem user_input) /\ val t = 0%Z
  end.

(** The last token of the list is the end-of-input token; the [next] of
    that one is the null pointer. *)
Definition ends_eof (token : list Token) : Prop :=
  exists ts e, token = ts ++ [e] /\ kind e = TK_EOF.

(** The diagnostics of the parser: [expect_number] at a token that is no
    number (and at which [consume("(")] has failed), [expect(")")] at a
    token that is not [")"]. *)
Definition syntax_error (s : string) (token : list Token) (d : diag) : Prop :=
  exists t,
    In t token /\
    ((d = ErrorAt (str t) "数ではありません" None /\
      kind t <> TK_NUM /\ mismatch s "(" t = true) \/
     (d = ErrorAt (str t) "'%c'ではありません" (Some ")") /\
      mismatch s ")" t = true)).

(** A result that leaves the cursor on a later token of the list, the
    end-of-input token still ahead, or reports one of the tokens; no
    access through a null pointer. *)
Definition tidy_result {A : Type} (s : string) (token : list Token)
           (r : result (A * list Token)) : Prop :=
  match r with
  | Ok (_, rest) => ends_eof rest /\ exists used, token = used ++ rest
  | Exit1 d => syntax_error s token d
  | Segfault => False
  | OutOfFuel => True
  end.

Definition tidy {A : Type} (s : string) (p : parser A) (token : list Token) : Prop :=
  tidy_result s token (p token).

(** A number token holds the [int] read from its text, and that text
    denotes a number that is not negative. *)
Definition numeral (s : string) (t : Token) : Prop :=
  kind t = TK_NUM ->
  val t = literal (decimal (text s t)) /\ (0 <= decimal (text s t))%Z.

(** [node], returned with the cursor at [rest], is the tree of an
    expression of strength [k] that the tokens before [rest] spell. *)
Definition reads_back (s : string) (k : nat) (token : list Token) (node : Node)
           (rest : list Token) : Prop :=
  exists e used,
    token = used ++ rest /\ map (lexeme_of s) used = flatten e /\
    conforms k e = true /\ node = node_of e /\ stops s k rest.

(** The same for a loop that starts with the tree of [e0]: the
    expression goes on from [e0] with the tokens taken. *)
Definition extends_to (s : string) (k : nat) (e0 : sexp) (token : list Token)
           (node : Node) (rest : list Token) : Prop :=
  exists e used,
    token = used ++ rest /\
    flatten e = flatten e0 ++ map (lexeme_of s) used /\
    conforms k e = true /\ node = node_of e /\ stops s k rest.

(** A tree as [new_num] and [new_binary] build it: a number node has no
    children, any other node has two and the [val] that [calloc] left. *)
Fixpoint plain (node : Node) : bool :=
  let 'Node.mk k lhs rhs v := node in
  if NodeKind_eqb k ND_NUM then is_null lhs && is_null rhs
  else
    (v =? 0)%Z &&
    match lhs, rhs with
    | Some l, Some r => plain l && plain r
    | _, _ => false
    end.

(** The machine run on trees in place of numbers: a register holds the
    tree of the value it would hold, the flags the two trees compared. *)
Record reader : Type := mkReader {
  t0 : option Node;
  t1 : option Node;
  t2 : option Node;
  compared : option (Node * Node);
  trees : list Node
}.

Definition tree_in (r : reg) (m : reader) : option Node :=
  match r with X0 => t0 m | X1 => t1 m | X2 => t2 m end.

Definition set_tree (r : reg) (n : Node) (m : reader) : reader :=
  match r with
  | X0 => mkReader (Some n) (t1 m) (t2 m) (compared m) (trees m)
  | X1 => mkReader (t0 m) (Some n) (t2 m) (compared m) (trees m)
  | X2 => mkReader (t0 m) (t1 m) (Some n) (compared m) (trees m)
  end.

Definition set_trees (s : list Node) (m : reader) : reader :=
  mkReader (t0 m) (t1 m) (t2 m) (compared m) s.

Definition cond_kind (c : cond) : NodeKind :=
  match c with EQ => ND_EQ | NE => ND_NE | LT => ND_LT | LE => ND_LE end.

Definition read_op (k : NodeKind) (rd rn rm : reg) (m : reader) : option reader :=
  match tree_in rn m, tree_in rm m with
  | Some a, Some b => Some (set_tree rd (new_binary k a b) m)
  | _, _ => None
  end.

Definition read_instr (i : instr) (m : reader) : option reader :=
  match i with
  | Globl _ | Label _ => Some m
  | MovImm rd imm => Some (set_tree rd (new_num imm) m)
  | StrPre rt =>
      match tree_in rt m with
      | Some n => Some (set_trees (n :: trees m) m)
      | None => None
      end
  | LdrPost rt =>
      match trees m with
      | [] => None
      | n :: s => Some (set_tree rt n (set_trees s m))
      end
  | AddR rd rn rm => read_op ND_ADD rd rn rm m
  | SubR rd rn rm => read_op ND_SUB rd rn rm m
  | MulR rd rn rm => read_op ND_MUL rd rn rm m
  | SdivR rd rn rm => read_op ND_DIV rd rn rm m
  | Cmp rn rm =>
      match tree_in rn m, tree_in rm m with
      | Some a, Some b =>
          Some (mkReader (t0 m) (t1 m) (t2 m) (Some (a, b)) (trees m))
      | _, _ => None
      end
  | Cset rd c =>
      match compared m with
      | Some (a, b) => Some (set_tree rd (new_binary (cond_kind c) a b) m)
      | None => None
      end
  | Ret => None
  end.

Fixpoint read_code (prog : list instr) (m : reader) : option reader :=
  match prog with
  | [] => Some m
  | i :: prog' =>
      match read_instr i m with
      | Some m' => read_code prog' m'
      | None => None
      end
  end.

(** The stack slots the code of a tree needs: the left operand is
    computed on the stack as it is, the right one above the value of the
    left one. *)
Fixpoint slots (node : Node) : nat :=
  let 'Node.mk k lhs rhs _ := node in
  if NodeKind_eqb k ND_NUM then 1
  else
    Nat.max (match lhs with Some l => slots l | None => 0 end)
            (S (match rhs with Some r => slots r | None => 0 end)).

(** The number of 16-byte slots on the stack. *)
Definition height (m : machine) : nat := List.length (stack m).

(** An expression of literals that fit an [int], signs, parentheses and
    the operators [+], [-] and [*]. *)
Fixpoint ring_only (e : sexp) : bool :=
  match e with
  | SNum n => (n <=? INT_MAX)%Z
  | SParen a | SPos a | SNeg a => ring_only a
  | SBin op a b =>
      match op with
      | OAdd | OSub | OMul => ring_only a && ring_only b
      | _ => false
      end
  end.

(** The outcome of [p] on [token] is decided by the tokens up to the one
    the cursor is left on, or the one reported: with anything else after
    that token the outcome is the same. *)
Definition decided {A : Type} (p : parser A) (token : list Token) : Prop :=
  match p token with
  | Ok (a, rest) =>
      ends_eof rest /\
      exists used t after,
        token = used ++ t :: after /\ rest = t :: after /\
        forall after', p (used ++ t :: after') = Ok (a, t :: after')
  | Exit1 d =>
      exists before t after,
        token = before ++ t :: after /\
        (exists fmt arg, d = ErrorAt (str t) fmt arg) /\
        forall after', p (before ++ t :: after') = Exit1 d
  | Segfault => False
  | OutOfFuel => True
  end.

(** *** Numbers a [mov] can load *)

(** Every number of the tree is an immediate the assembler accepts. *)
Fixpoint loads (node : Node) : bool :=
  let 'Node.mk k lhs rhs v := node in
  if NodeKind_eqb k ND_NUM then mov_imm v
  else
    match lhs with Some l => loads l | None => true end &&
    match rhs with Some r => loads r | None => true end.

(** The same of an expression: the [int] each literal is stored as. *)
Fixpoint loadable (e : sexp) : bool :=
  match e with
  | SNum n => mov_imm (literal n)
  | SParen a | SPos a | SNeg a => loadable a
  | SBin _ a b => loadable a && loadable b
  end.

(** *** Rows and columns of a text *)

(** No byte of the text is a newline. *)
Fixpoint one_line (text : string) : bool :=
  match text with
  | EmptyString => true
  | String c rest => negb (Ascii.eqb c "010") && one_line rest
  end.

(** The row and the column, both counted in bytes and from 0, at which the
    byte of index [i] of a text stands when the text is written out. *)
Fixpoint locate_from (row col : nat) (text : string) (i : nat) : nat * nat :=
  match i, text with
  | S i', String c rest =>
      if Ascii.eqb c "010" then locate_from (S row) 0 rest i'
      else locate_from row (S col) rest i'
  | _, _ => (row, col)
  end.

Definition locate (text : string) (i : nat) : nat * nat := locate_from 0 0 text i.

(** * Properties *)


(** ** C strings and the library functions *)

Lemma eqb_NUL_false (c : ascii) : Ascii.eqb c NUL = false <-> c <> NUL.
Proof. apply Ascii.eqb_neq. Qed.

Lemma load_tl (m : list ascii) (i : nat) : load (tl m) i = load m (S i).
Proof. destruct m; [destruct i|]; reflexivity. Qed.

Lemma load_skipn (m : list ascii) (p i : nat) :
  load (skipn p m) i = load m (p + i).
Proof.
  revert m; induction p as [|p IH]; intros m; [reflexivity|].
  destruct m as [|c m]; simpl.
  - destruct i; reflexivity.
  - apply IH.
Qed.

Lemma load_c_str (m : list ascii) (i : nat) :
  i < strlen m -> load m i = nth i (c_str m) NUL /\ load m i <> NUL.
Proof.
  unfold strlen, load. revert i; induction m as [|c m IH]; intros i Hi; simpl in *.
  - lia.
  - destruct (Ascii.eqb c NUL) eqn:E; simpl in *; [lia|].
    destruct i as [|i].
    + split; [reflexivity|]. now apply eqb_NUL_false.
    + apply IH. lia.
Qed.

Lemma load_strlen (m : list ascii) : load m (strlen m) = NUL.
Proof.
  unfold strlen, load. induction m as [|c m IH]; simpl; [reflexivity|].
  destruct (Ascii.eqb c NUL) eqn:E; simpl; [|exact IH].
  now apply Ascii.eqb_eq in E.
Qed.

Lemma strlen_le (m : list ascii) : strlen m <= List.length m.
Proof.
  unfold strlen. induction m as [|c m IH]; simpl; [lia|].
  destruct (Ascii.eqb c NUL); simpl; lia.
Qed.

(** Below the terminator no byte is NUL, so a pointer that has only
    moved over non-NUL bytes is within the string. *)
Lemma strlen_bound (m : list ascii) (p : nat) :
  p <= strlen m -> load m p <> NUL -> S p <= strlen m.
Proof.
  intros Hp Hc. destruct (Nat.eq_dec p (strlen m)) as [->|]; [|lia].
  now rewrite load_strlen in Hc.
Qed.

Lemma load_NUL_strlen (m : list ascii) (p : nat) :
  p <= strlen m -> load m p = NUL -> p = strlen m.
Proof.
  intros Hp Hc. destruct (Nat.eq_dec p (strlen m)) as [|Hn]; [assumption|].
  destruct (load_c_str m p) as [_ H]; [lia|]. contradiction.
Qed.

Lemma code_inj (x y : ascii) : code x = code y -> x = y.
Proof.
  unfold code; intros H.
  rewrite <- (ascii_nat_embedding x), <- (ascii_nat_embedding y). now rewrite H.
Qed.

Lemma memcmp_0 (a b : list ascii) (n : nat) :
  memcmp a b n = 0%Z <-> forall i, i < n -> load a i = load b i.
Proof.
  revert a b; induction n as [|n IH]; intros a b; simpl.
  - split; [lia|reflexivity].
  - destruct (Ascii.eqb (load a 0) (load b 0)) eqn:E.
    + apply Ascii.eqb_eq in E. rewrite IH. split.
      * intros H [|i] Hi; [exact E|]. rewrite <- !load_tl. apply H; lia.
      * intros H i Hi. rewrite !load_tl. apply H; lia.
    + apply Ascii.eqb_neq in E. split.
      * intros H. exfalso. apply E, code_inj. lia.
      * intros H. exfalso. apply E, H. lia.
Qed.

Lemma c_str_no_NUL (m : list ascii) :
  forallb (fun c => negb (Ascii.eqb c NUL)) m = true -> c_str m = m.
Proof.
  induction m as [|c m IH]; simpl; [reflexivity|].
  intros H. apply andb_prop in H as [Hc Hm].
  destruct (Ascii.eqb c NUL); [discriminate|]. now rewrite IH.
Qed.

Lemma isdigit_not_NUL (c : ascii) : isdigit c = true -> c <> NUL.
Proof. intros H ->. discriminate. Qed.

Lemma isdigit_not_space (c : ascii) : isdigit c = true -> isspace c = false.
Proof.
  unfold isdigit, isspace. intros H.
  apply andb_prop in H as [H1 H2].
  apply Nat.leb_le in H1. 
  destruct (Nat.eqb_spec (code c) 32); [lia|].
  destruct (Nat.leb_spec (code c) 13); [|now rewrite andb_false_r].
  lia.
Qed.

Lemma nth_map_seq {A : Type} (f : nat -> A) (p n i : nat) (d : A) :
  i < n -> nth i (map f (seq p n)) d = f (p + i).
Proof.
  intros Hi. rewrite nth_indep with (d' := f 0) by now rewrite length_map, length_seq.
  rewrite map_nth, seq_nth by exact Hi. reflexivity.
Qed.

(** ** [consume] *)

Section ConsumeFacts.

Variable user_input : string.

Lemma deref_view (p i : nat) :
  load (view user_input p) i = deref user_input (p + i).
Proof. apply load_skipn. Qed.

(** The three tests fail together exactly when the token is a reserved
    one whose text is the C string [op]. *)
Lemma mismatch_false (op : string) (t : Token) :
  mismatch user_input op t = false <->
  kind t = TK_RESERVED /\ text user_input t = c_str (list_ascii_of_string op).
Proof.
  unfold mismatch, text. set (o := list_ascii_of_string op).
  rewrite !orb_false_iff, !negb_false_iff, Nat.eqb_eq, Z.eqb_eq, memcmp_0.
  split.
  - intros [[Hk Hl] Hm]. split; [now destruct (kind t)|].
    apply nth_ext with (d := NUL) (d' := NUL).
    + rewrite length_map, length_seq. symmetry. exact Hl.
    + rewrite length_map, length_seq. intros i Hi.
      rewrite nth_map_seq by exact Hi.
      rewrite <- deref_view, Hm by exact Hi.
      apply load_c_str. fold o in Hl. lia.
  - intros [Hk Ht].
    assert (Hl : strlen o = len t).
    { unfold strlen. rewrite <- Ht, length_map, length_seq. reflexivity. }
    repeat split; [now rewrite Hk|exact Hl|].
    intros i Hi. rewrite deref_view.
    destruct (load_c_str o i) as [-> _]; [lia|].
    rewrite <- Ht. symmetry. now apply nth_map_seq.
Qed.


Lemma consume_true (op : string) (t : Token) (next : list Token) :
  kind t = TK_RESERVED -> text user_input t = c_str (list_ascii_of_string op) ->
  consume user_input op (t :: next) = Ok (true, next).
Proof.
  intros Hk Ht. unfold consume.
  now rewrite (proj2 (mismatch_false op t) (conj Hk Ht)).
Qed.

Lemma consume_false (op : string) (t : Token) (next : list Token) :
  text user_input t <> c_str (list_ascii_of_string op) ->
  consume user_input op (t :: next) = Ok (false, t :: next).
Proof.
  intros Ht. unfold consume. destruct (mismatch user_input op t) eqn:E; [reflexivity|].
  apply mismatch_false in E as [_ E]. contradiction.
Qed.

End ConsumeFacts.

(** C10. [consume(op)] returns true and moves the cursor to the next token
    if and only if the current token is a reserved one whose text is
    [op]; in every other case it returns false and the cursor (and with it
    the token sequence) is what it was. *)
Theorem consume_matches_or_leaves (user_input op : string) (t : Token) (next : list Token) :
  (consume user_input op (t :: next) = Ok (true, next) <->
   kind t = TK_RESERVED /\
   text user_input t = c_str (list_ascii_of_string op)) /\
  (consume user_input op (t :: next) = Ok (true, next) \/
   consume user_input op (t :: next) = Ok (false, t :: next)).
Proof.
  pose proof (mismatch_false user_input op t) as M.
  unfold consume. destruct (mismatch user_input op t).
  - split; [|now right]. split; [discriminate|].
    intros H. apply M in H. discriminate.
  - split; [|now left]. split; [intros _; now apply M|reflexivity].
Qed.

(** ** The tokenizer, one turn at a time *)

Lemma upd_cur_last (f : Token -> Token) (l : list Token) (t : Token) :
  upd_cur f (l ++ [t]) = l ++ [f t].
Proof.
  induction l as [|a l IH]; [reflexivity|].
  simpl. rewrite IH. destruct (l ++ [t]) eqn:E; [|reflexivity].
  now destruct l.
Qed.

Lemma digit_run_spec (m : list ascii) :
  (forall i, i < List.length (digit_run m) -> isdigit (load m i) = true) /\
  isdigit (load m (List.length (digit_run m))) = false.
Proof.
  induction m as [|c m [IH1 IH2]]; simpl.
  - split; [lia|reflexivity].
  - destruct (isdigit c) eqn:E; simpl.
    + split; [|exact IH2]. intros [|i] Hi; [exact E|]. apply IH1. lia.
    + split; [lia|exact E].
Qed.

Lemma digit_run_text (m : list ascii) :
  map (load m) (seq 0 (List.length (digit_run m))) = digit_run m.
Proof.
  induction m as [|c m IH]; [reflexivity|]. simpl.
  destruct (isdigit c); [|reflexivity]. simpl.
  rewrite <- seq_shift, map_map. f_equal. exact IH.
Qed.

Lemma digit_run_pos (m : list ascii) :
  isdigit (load m 0) = true -> 1 <= List.length (digit_run m).
Proof.
  destruct m as [|c m]; simpl; [discriminate|].
  unfold load; simpl. intros ->. simpl. lia.
Qed.

(** A run of digits is determined by its length. *)
Lemma digit_run_length (m : list ascii) (n : nat) :
  (forall k, k < n -> isdigit (load m k) = true) ->
  isdigit (load m n) = false ->
  List.length (digit_run m) = n.
Proof.
  revert n; induction m as [|c m IH]; intros n Hd He; simpl.
  - destruct n; [reflexivity|]. specialize (Hd 0). unfold load in Hd; simpl in Hd.
    discriminate Hd. lia.
  - destruct n as [|n].
    + unfold load in He; simpl in He. now rewrite He.
    + assert (Hc : isdigit c = true) by (apply (Hd 0); lia).
      rewrite Hc. simpl. f_equal. apply IH.
      * intros k Hk. apply (Hd (S k)). lia.
      * exact He.
Qed.

Lemma strchr_ops (c : ascii) :
  c <> NUL ->
  not_null (strchr (list_ascii_of_string "+-*/()<>") c) =
  existsb (Ascii.eqb c) (list_ascii_of_string "+-*/()<>").
Proof.
  intros Hc. destruct c as [[] [] [] [] [] [] [] []]; try reflexivity.
  exfalso. now apply Hc.
Qed.

Section LexerFacts.

Variable s : string.

Let input_length : nat := strlen (mem s).

Lemma tokenize_loop_turn (fuel p : nat) (cur : list Token) :
  tokenize_loop s (S fuel) p cur =
  match advance s p with
  | Some p' =>
      tokenize_loop s fuel p'
        (cur ++ match token_at s p with Some t => [t] | None => [] end)
  | None =>
      if Ascii.eqb (deref s p) NUL then Ok (cur ++ [mkToken TK_EOF 0 p 0])
      else Exit1 (ErrorAt p cannot_tokenize None)
  end.
Proof.
  cbn [tokenize_loop]. unfold advance, token_at, op2_at.
  destruct (Ascii.eqb (deref s p) NUL); [reflexivity|].
  destruct (isspace (deref s p)); [now rewrite app_nil_r|].
  destruct (startswith s p "==" || startswith s p "!=" ||
            startswith s p "<=" || startswith s p ">="); [reflexivity|].
  destruct (not_null _); [reflexivity|].
  destruct (isdigit (deref s p)); [|reflexivity].
  unfold strtol, new_token. cbn [fst snd].
  rewrite !upd_cur_last. unfold set_val, set_len. cbn [kind val str len].
  now rewrite Nat.add_comm, Nat.add_sub.
Qed.

Lemma startswith_spec (p : nat) (q : string) :
  startswith s p q = true <->
  forall i, i < strlen (list_ascii_of_string q) ->
            deref s (p + i) = load (list_ascii_of_string q) i.
Proof.
  unfold startswith. rewrite Z.eqb_eq, memcmp_0.
  split; intros H i Hi; [rewrite <- deref_view|rewrite deref_view]; now apply H.
Qed.

(** Where a two-character operator starts, the two bytes are neither
    NUL, nor blank, nor digits. *)
Lemma op2_at_bytes (p : nat) :
  op2_at s p = true ->
  (deref s p <> NUL /\ isspace (deref s p) = false /\ isdigit (deref s p) = false) /\
  (deref s (p + 1) <> NUL /\ isdigit (deref s (p + 1)) = false).
Proof.
  unfold op2_at. rewrite !orb_true_iff, !startswith_spec.
  intros H.
  assert (exists q, (forall i, i < 2 -> deref s (p + i) = load (list_ascii_of_string q) i) /\
                    (q = "==" \/ q = "!=" \/ q = "<=" \/ q = ">=")) as (q & Hq & Hin).
  { destruct H as [[[H|H]|H]|H]; eexists; (split; [exact H|]); auto. }
  pose proof (Hq 0 ltac:(lia)) as H0. pose proof (Hq 1 ltac:(lia)) as H1.
  rewrite Nat.add_0_r in H0. rewrite H0, H1.
  destruct Hin as [-> | [-> | [-> | ->]]]; repeat split; try reflexivity; discriminate.
Qed.

Lemma within_string (p n : nat) :
  (forall i, i < n -> deref s (p + i) <> NUL) ->
  p <= input_length -> p + n <= input_length.
Proof.
  induction n as [|n IH]; intros H Hp; [lia|].
  assert (p + n <= input_length) by (apply IH; [intros; apply H; lia|exact Hp]).
  rewrite Nat.add_succ_r. apply strlen_bound; [assumption|]. apply H. lia.
Qed.

Lemma digit_run_view (p : nat) :
  (forall i, i < List.length (digit_run (view s p)) -> isdigit (deref s (p + i)) = true) /\
  isdigit (deref s (p + List.length (digit_run (view s p)))) = false.
Proof.
  destruct (digit_run_spec (view s p)) as [H1 H2]. split.
  - intros i Hi. rewrite <- deref_view. now apply H1.
  - now rewrite <- deref_view.
Qed.

Lemma advance_bounds (p p' : nat) :
  p <= input_length -> advance s p = Some p' -> p < p' /\ p' <= input_length.
Proof.
  intros Hp. unfold advance. fold (op2_at s p).
  destruct (Ascii.eqb (deref s p) NUL) eqn:E0; [discriminate|].
  apply eqb_NUL_false in E0.
  assert (H1 : p + 1 <= input_length).
  { apply within_string; [|exact Hp]. intros i Hi. now replace (p + i) with p by lia. }
  destruct (isspace (deref s p)); [intros [= <-]; lia|].
  destruct (op2_at s p) eqn:E2.
  { intros [= <-]. split; [lia|].
    apply op2_at_bytes in E2 as [_ [Hn _]].
    apply (within_string p 2); [|exact Hp].
    intros [|[|i]] Hi; [now rewrite Nat.add_0_r|exact Hn|lia]. }
  destruct (not_null _); [intros [= <-]; lia|].
  destruct (isdigit (deref s p)) eqn:Ed; [|discriminate].
  intros [= <-]. destruct (digit_run_view p) as [Hr _]. split.
  - pose proof (digit_run_pos (view s p)) as Hpos.
    rewrite deref_view, Nat.add_0_r in Hpos. specialize (Hpos Ed). lia.
  - apply within_string; [|exact Hp]. intros i Hi. apply isdigit_not_NUL. now apply Hr.
Qed.

(** A turn links a token exactly when it does not end with an error. *)
Lemma begins_no_token_spec (p : nat) :
  begins_no_token s p = true <->
  deref s p <> NUL /\ advance s p = None.
Proof.
  unfold begins_no_token, advance. fold (op2_at s p). unfold op1_at.
  destruct (Ascii.eqb (deref s p) NUL) eqn:E0.
  { apply Ascii.eqb_eq in E0. simpl. split; [discriminate|]. now intros []. }
  apply eqb_NUL_false in E0. rewrite <- strchr_ops by exact E0.
  destruct (isspace (deref s p)) eqn:Es; simpl.
  { split; [discriminate|]. now intros []. }
  destruct (isdigit (deref s p)) eqn:Ed; simpl.
  - split; [discriminate|]. intros [_ H].
    destruct (op2_at s p); [discriminate|]. destruct (not_null _); discriminate.
  - destruct (op2_at s p); simpl.
    { split; [discriminate|]. now intros []. }
    destruct (not_null _); simpl.
    { split; [discriminate|]. now intros []. }
    split; auto.
Qed.

End LexerFacts.

Section LexerLoop.

Variable s : string.

Let input_length : nat := strlen (mem s).

Let eof : Token := mkToken TK_EOF 0 input_length 0.

Lemma token_at_str (p : nat) (t : Token) :
  token_at s p = Some t ->
  str t = p /\ (deref s p <> NUL -> kind t <> TK_EOF).
Proof.
  unfold token_at.
  destruct (Ascii.eqb (deref s p) NUL) eqn:E0.
  { apply Ascii.eqb_eq in E0. intros [= <-]. split; [reflexivity|]. now intros []. }
  destruct (isspace _); [discriminate|].
  destruct (op2_at s p); [intros [= <-]; split; [reflexivity|discriminate]|].
  destruct (not_null _); [intros [= <-]; split; [reflexivity|discriminate]|].
  destruct (isdigit _); [|discriminate].
  intros [= <-]; split; [reflexivity|discriminate].
Qed.

Lemma advance_not_NUL (p p' : nat) : advance s p = Some p' -> deref s p <> NUL.
Proof.
  unfold advance. destruct (Ascii.eqb (deref s p) NUL) eqn:E; [discriminate|].
  intros _. now apply eqb_NUL_false.
Qed.

Lemma token_at_span (p p' : nat) (t : Token) :
  token_at s p = Some t -> advance s p = Some p' ->
  1 <= len t /\ str t + len t = p'.
Proof.
  unfold token_at, advance. fold (op2_at s p).
  destruct (Ascii.eqb (deref s p) NUL); [discriminate|].
  destruct (isspace _); [discriminate|].
  destruct (op2_at s p); [intros [= <-] [= <-]; cbn; lia|].
  destruct (not_null _); [intros [= <-] [= <-]; cbn; lia|].
  destruct (isdigit _) eqn:Ed; [|discriminate].
  intros [= <-] [= <-]; cbn. split; [|reflexivity].
  apply digit_run_pos. now rewrite deref_view, Nat.add_0_r.
Qed.

(** What the loop returns from a scan position on: all the tokens, each
    the one linked at its offset, one after the other in the input, and
    the end-of-input token at the terminator; or the error at the first
    scan position where no token begins. *)
Lemma tokenize_loop_result (fuel : nat) :
  forall (p : nat) (cur : list Token),
    p <= input_length -> input_length - p < fuel -> Scans s p ->
    (exists ts,
        tokenize_loop s fuel p cur = Ok (cur ++ ts ++ [eof]) /\
        Scans s input_length /\
        Forall (fun t => kind t <> TK_EOF /\ p <= str t /\ Scans s (str t) /\
                         token_at s (str t) = Some t /\
                         1 <= len t /\ str t + len t <= input_length) ts /\
        StronglySorted (fun a b => str a + len a <= str b) ts) \/
    (exists q,
        tokenize_loop s fuel p cur = Exit1 (ErrorAt q cannot_tokenize None) /\
        Scans s q /\ begins_no_token s q = true).
Proof.
  induction fuel as [|fuel IH]; intros p cur Hp Hf Hs; [lia|].
  rewrite tokenize_loop_turn.
  destruct (advance s p) as [p'|] eqn:Ea.
  - destruct (advance_bounds s p p' Hp Ea) as [Hlt Hle].
    pose proof (advance_not_NUL p p' Ea) as Hn.
    assert (Hs' : Scans s p') by (eapply Scans_step; eassumption).
    destruct (IH p' (cur ++ match token_at s p with Some t => [t] | None => [] end)
                 Hle ltac:(lia) Hs') as [(ts & E & HL & Hall & Hsort)|(q & E & Hq)].
    + left. assert (Hall' : Forall (fun t => kind t <> TK_EOF /\ p <= str t /\
                        Scans s (str t) /\ token_at s (str t) = Some t /\
                        1 <= len t /\ str t + len t <= input_length) ts).
      { eapply Forall_impl; [|exact Hall]. cbn. intros t (? & ? & ? & ? & ? & ?).
        repeat split; try assumption. lia. }
      destruct (token_at s p) as [t|] eqn:Et.
      * exists (t :: ts). rewrite E, <- app_assoc. split; [reflexivity|].
        destruct (token_at_str p t Et) as [Hstr Hk].
        destruct (token_at_span p p' t Et Ea) as [Hlen Hspan].
        split; [exact HL|]. split.
        -- constructor; [|exact Hall']. rewrite Hstr. repeat split; auto; lia.
        -- constructor; [exact Hsort|].
           eapply Forall_impl; [|exact Hall]. cbn. intros t' (_ & ? & _). lia.
      * exists ts. rewrite E, app_nil_r. auto.
    + right. exists q. auto.
  - destruct (Ascii.eqb (deref s p) NUL) eqn:E0.
    + left. exists []. apply Ascii.eqb_eq in E0.
      apply load_NUL_strlen in E0; [|exact Hp]. subst eof. fold input_length in E0.
      rewrite <- E0. repeat split; try constructor. exact Hs.
    + right. exists p. repeat split; [exact Hs|].
      apply begins_no_token_spec. split; [now apply eqb_NUL_false|exact Ea].
Qed.

Lemma tokenize_loop_prefix (fuel : nat) :
  forall (p : nat) (cur out : list Token),
    tokenize_loop s fuel p cur = Ok out -> exists ts, out = cur ++ ts.
Proof.
  induction fuel as [|fuel IH]; intros p cur out; [discriminate|].
  rewrite tokenize_loop_turn. destruct (advance s p) as [p'|].
  - intros H. apply IH in H as [ts ->]. rewrite <- app_assoc. eauto.
  - destruct (Ascii.eqb _ _); [|discriminate]. intros [= <-]. eauto.
Qed.

(** On an accepted input the loop passes through every scan position. *)
Lemma scans_visited (out : list Token) (q : nat) :
  tokenize s = Ok out -> Scans s q ->
  exists fuel cur, tokenize_loop s fuel q cur = Ok out.
Proof.
  intros Hout Hq. induction Hq as [|p p' _ (fuel & cur & IH) Ha].
  - eexists _, _. exact Hout.
  - destruct fuel as [|fuel]; [discriminate|].
    rewrite tokenize_loop_turn, Ha in IH. eauto.
Qed.

Lemma scans_token (out : list Token) (q : nat) (t : Token) :
  tokenize s = Ok out -> Scans s q -> token_at s q = Some t -> In t out.
Proof.
  intros Hout Hq Ht. destruct (scans_visited out q Hout Hq) as ([|fuel] & cur & H);
    [discriminate|].
  rewrite tokenize_loop_turn, Ht in H. destruct (advance s q) as [p'|].
  - apply tokenize_loop_prefix in H as [ts ->]. rewrite <- app_assoc.
    apply in_or_app. right. now left.
  - unfold token_at in Ht. destruct (Ascii.eqb _ _); [|discriminate].
    injection H as <-. injection Ht as <-. apply in_or_app. right. now left.
Qed.


(** [tokenize] has enough fuel. *)
Lemma tokenize_result :
  (exists ts,
      tokenize s = Ok (ts ++ [eof]) /\
      Scans s input_length /\
      Forall (fun t => kind t <> TK_EOF /\ Scans s (str t) /\
                       token_at s (str t) = Some t /\
                       1 <= len t /\ str t + len t <= input_length) ts /\
      StronglySorted (fun a b => str a + len a <= str b) ts) \/
  (exists q,
      tokenize s = Exit1 (ErrorAt q cannot_tokenize None) /\
      Scans s q /\ begins_no_token s q = true).
Proof.
  unfold tokenize.
  assert (Hlen : input_length <= String.length s).
  { unfold input_length, mem. etransitivity; [apply strlen_le|].
    clear. induction s; simpl; lia. }
  destruct (tokenize_loop_result (S (String.length s)) 0 [] ltac:(lia) ltac:(lia)
              (Scans_start s)) as [(ts & E & HL & Hall & Hsort)|H].
  - left. exists ts. split; [exact E|]. split; [exact HL|]. split; [|exact Hsort].
    eapply Forall_impl; [|exact Hall]. cbn. intros t (? & _ & ? & ?). auto.
  - now right.
Qed.

Lemma token_at_eof : token_at s input_length = Some eof.
Proof.
  unfold token_at, deref, input_length. now rewrite load_strlen.
Qed.

(** Every token returned is the one linked at its offset. *)
Lemma tokenize_tokens (out : list Token) :
  tokenize s = Ok out ->
  Forall (fun t => Scans s (str t) /\ token_at s (str t) = Some t) out.
Proof.
  destruct tokenize_result as [(ts & E & HL & Hall & _)|(q & E & _)];
    rewrite E; [|discriminate].
  intros [= <-]. apply Forall_app. split.
  - eapply Forall_impl; [|exact Hall]. cbn. intros t (_ & ? & ? & _). auto.
  - constructor; [|constructor]. split; [exact HL|exact token_at_eof].
Qed.

Lemma tokenize_unique (out : list Token) (t t' : Token) :
  tokenize s = Ok out -> In t out -> In t' out -> str t = str t' -> t = t'.
Proof.
  intros Hout Ht Ht' E. pose proof (tokenize_tokens out Hout) as H.
  rewrite Forall_forall in H.
  destruct (H t Ht) as [_ H1]. destruct (H t' Ht') as [_ H2].
  rewrite E in H1. congruence.
Qed.

End LexerLoop.


(** ** Numbers *)

Lemma digit_not_op (c : ascii) :
  isdigit c = true ->
  not_null (strchr (list_ascii_of_string "+-*/()<>") c) = false.
Proof.
  destruct c as [[] [] [] [] [] [] [] []]; try reflexivity; discriminate.
Qed.

Lemma decimal_acc_nonneg (ds : list ascii) :
  forallb isdigit ds = true ->
  forall acc, (0 <= acc)%Z ->
  (0 <= fold_left (fun a c => 10 * a + digit_value c) ds acc)%Z.
Proof.
  induction ds as [|c ds IH]; cbn [fold_left forallb]; intros H acc Hacc;
    [exact Hacc|].
  apply andb_prop in H as [Hc Hds]. apply IH; [exact Hds|].
  unfold isdigit in Hc. apply andb_prop in Hc as [Hc _]. apply Nat.leb_le in Hc.
  unfold digit_value. lia.
Qed.

Lemma c_int_small (z : Z) : (- 2 ^ 31 <= z <= INT_MAX)%Z -> c_int z = z.
Proof.
  unfold c_int, INT_MAX. intros H. rewrite Z.mod_small; lia.
Qed.

Lemma literal_small (n : Z) : (0 <= n <= INT_MAX)%Z -> literal n = n.
Proof.
  unfold literal, INT_MAX, LONG_MAX. intros H.
  rewrite Z.min_l by lia. apply c_int_small. unfold INT_MAX. lia.
Qed.

Lemma seq_from_0 (i n : nat) : seq i n = map (Nat.add i) (seq 0 n).
Proof.
  revert i. induction n as [|n IH]; intros i; [reflexivity|].
  cbn [seq map]. rewrite Nat.add_0_r. f_equal.
  rewrite (IH (S i)), (IH 1), map_map. apply map_ext. intros k. lia.
Qed.

Section NumberRuns.

Variable s : string.

Let input_length : nat := strlen (mem s).

Lemma scans_within (p : nat) : Scans s p -> p <= input_length.
Proof.
  induction 1 as [|p p' _ IH Ha]; [lia|].
  now apply (advance_bounds s p p' IH).
Qed.

Lemma maximal_run_spec (i n : nat) :
  maximal_run s i n = true ->
  1 <= n /\ i + n <= input_length /\
  (forall k, k < n -> isdigit (deref s (i + k)) = true) /\
  isdigit (deref s (i + n)) = false /\
  (i = 0 \/ isdigit (deref s (i - 1)) = false).
Proof.
  unfold maximal_run. rewrite !andb_true_iff, orb_true_iff, !negb_true_iff,
    !Nat.leb_le, Nat.eqb_eq, forallb_forall.
  intros [[[[H1 H2] H3] H4] H5]. repeat split; try assumption.
  intros k Hk. apply H3. apply in_seq. lia.
Qed.

Lemma run_text (i n : nat) :
  (forall k, k < n -> isdigit (deref s (i + k)) = true) ->
  isdigit (deref s (i + n)) = false ->
  List.length (digit_run (view s i)) = n /\
  digit_run (view s i) = map (deref s) (seq i n).
Proof.
  intros Hd He.
  assert (Hn : List.length (digit_run (view s i)) = n).
  { apply digit_run_length.
    - intros k Hk. rewrite deref_view. now apply Hd.
    - now rewrite deref_view. }
  split; [exact Hn|].
  rewrite <- digit_run_text, Hn.
  rewrite (seq_from_0 i n), map_map. apply map_ext. intros k. apply deref_view.
Qed.

(** The token linked where a run of digits starts. *)
Lemma run_token (i n : nat) :
  maximal_run s i n = true ->
  token_at s i =
  Some (mkToken TK_NUM (literal (decimal (map (deref s) (seq i n)))) i n).
Proof.
  intros H. apply maximal_run_spec in H as (Hn & Hb & Hd & He & _).
  pose proof (Hd 0 ltac:(lia)) as H0. rewrite Nat.add_0_r in H0.
  unfold token_at.
  pose proof (isdigit_not_NUL _ H0) as H1. apply eqb_NUL_false in H1. rewrite H1.
  rewrite (isdigit_not_space _ H0).
  destruct (op2_at s i) eqn:E2.
  { apply op2_at_bytes in E2 as [(_ & _ & E2) _]. congruence. }
  rewrite (digit_not_op _ H0), H0.
  destruct (run_text i n Hd He) as [Hl Ht].
  unfold strtol, literal. cbn [fst snd]. now rewrite Hl, Ht.
Qed.

(** The scan does not pass over the start of a run of digits. *)
Lemma scans_reach_run (out : list Token) (i n : nat) :
  tokenize s = Ok out -> maximal_run s i n = true ->
  forall d p, i - p = d -> p <= i -> Scans s p -> Scans s i.
Proof.
  intros Hout Hrun. pose proof (maximal_run_spec i n Hrun) as (Hn & Hb & Hd & He & Hl).
  induction d as [d IH] using lt_wf_ind. intros p Hdp Hle Hs.
  destruct (Nat.eq_dec p i) as [->|Hne]; [exact Hs|].
  destruct (scans_visited s out p Hout Hs) as ([|fuel] & cur & H); [discriminate|].
  rewrite tokenize_loop_turn in H.
  destruct (advance s p) as [p'|] eqn:Ea.
  - destruct (advance_bounds s p p' (scans_within p Hs) Ea) as [Hlt _].
    apply (IH (i - p')) with (p := p'); try lia; [|eapply Scans_step; eassumption].
    clear H IH. unfold advance in Ea. fold (op2_at s p) in Ea.
    destruct (Ascii.eqb (deref s p) NUL); [discriminate|].
    destruct (isspace _); [injection Ea as <-; lia|].
    destruct (op2_at s p) eqn:E2.
    { injection Ea as <-. destruct (Nat.eq_dec i (p + 1)) as [->|]; [|lia].
      apply op2_at_bytes in E2 as [_ [_ E2]].
      specialize (Hd 0 ltac:(lia)). rewrite Nat.add_0_r in Hd. congruence. }
    destruct (not_null _); [injection Ea as <-; lia|].
    destruct (isdigit (deref s p)); [|discriminate]. injection Ea as <-.
    destruct (Nat.le_gt_cases (p + List.length (digit_run (view s p))) i) as [|Hin];
      [assumption|exfalso].
    destruct (digit_run_view s p) as [Hr _].
    destruct Hl as [->|Hl]; [lia|].
    specialize (Hr (i - 1 - p) ltac:(lia)).
    replace (p + (i - 1 - p)) with (i - 1) in Hr by lia. congruence.
  - destruct (Ascii.eqb (deref s p) NUL) eqn:E0; [|discriminate].
    apply Ascii.eqb_eq in E0. apply load_NUL_strlen in E0; [|now apply scans_within].
    fold input_length in E0. lia.
Qed.

Lemma run_is_token (out : list Token) (i n : nat) :
  tokenize s = Ok out -> maximal_run s i n = true ->
  In (mkToken TK_NUM (literal (decimal (map (deref s) (seq i n)))) i n) out.
Proof.
  intros Hout Hrun. apply scans_token with (s := s) (q := i); [exact Hout| |].
  - apply (scans_reach_run out i n Hout Hrun i 0); [lia|lia|constructor].
  - now apply run_token.
Qed.

End NumberRuns.

(** ** Tokens do not overlap *)

Lemma StronglySorted_cases {A : Type} (R : A -> A -> Prop) (l : list A) (a b : A) :
  StronglySorted R l -> In a l -> In b l -> a = b \/ R a b \/ R b a.
Proof.
  induction 1 as [|x l Hs IH Hx]; [contradiction|].
  rewrite Forall_forall in Hx.
  intros [->|Ha] [->|Hb]; auto.
Qed.

Lemma tokenize_spans (s : string) (out : list Token) (t t' : Token) :
  tokenize s = Ok out -> In t out -> In t' out -> str t < str t' ->
  str t + len t <= str t'.
Proof.
  intros Hout Ht Ht' Hlt.
  destruct (tokenize_result s) as [(ts & E & HL & Hall & Hsort)|(q & E & _)];
    rewrite E in Hout; [|discriminate].
  injection Hout as <-.
  assert (Hs : StronglySorted (fun a b => str a + len a <= str b)
                 (ts ++ [mkToken TK_EOF 0 (strlen (mem s)) 0])).
  { clear Ht Ht' E Hlt. induction Hsort as [|x l Hl IH Hx].
    - repeat constructor.
    - inversion Hall as [|? ? Hx0 Hall']; subst. cbn [app]. constructor.
      + now apply IH.
      + apply Forall_app. split; [exact Hx|]. constructor; [|constructor].
        destruct Hx0 as (_ & _ & _ & _ & Hle). exact Hle. }
  destruct (StronglySorted_cases _ _ t t' Hs Ht Ht') as [->|[H|H]]; [lia|exact H|].
  cbn in H. lia.
Qed.

(** C6. Where the scan stands at ==, !=, <= or >= the tokenizer links one
    token of length two there, the only token at that offset, and none at
    the next offset ("1<=2" gives the number 1, <= and the number 2).
    Every maximal run of digits of the input becomes one number token, the
    only token at its offset; its value is the number the run denotes in
    base 10 when that is at most 2147483647 (in general that number, cut
    at 2^63-1 by [strtol] and reduced to 32 bits by the assignment to an
    [int]). *)
Theorem two_char_ops_first_and_numbers :
  tokenize "1<=2" =
    Ok [mkToken TK_NUM 1 0 1; mkToken TK_RESERVED 0 1 2; mkToken TK_NUM 2 3 1;
        mkToken TK_EOF 0 4 0] /\
  forall (user_input : string) (out : list Token),
    tokenize user_input = Ok out ->
    (forall p, Scans user_input p -> op2_at user_input p = true ->
       In (mkToken TK_RESERVED 0 p 2) out /\
       (forall t, In t out -> str t = p -> t = mkToken TK_RESERVED 0 p 2) /\
       (forall t, In t out -> str t <> p + 1)) /\
    (forall i n, maximal_run user_input i n = true ->
       let d := decimal (map (deref user_input) (seq i n)) in
       In (mkToken TK_NUM (literal d) i n) out /\
       (forall t, In t out -> str t = i -> t = mkToken TK_NUM (literal d) i n) /\
       ((d <= INT_MAX)%Z -> literal d = d)).
Proof.
  split; [reflexivity|]. intros s out Hout. split.
  - intros p Hp H2.
    assert (Ht : token_at s p = Some (mkToken TK_RESERVED 0 p 2)).
    { unfold token_at. rewrite H2. apply op2_at_bytes in H2 as [(Hn & Hs & _) _].
      apply eqb_NUL_false in Hn. now rewrite Hn, Hs. }
    pose proof (scans_token s out p _ Hout Hp Ht) as Hin.
    split; [exact Hin|]. split.
    + intros t Hin' E. now apply (tokenize_unique s out).
    + intros t Hin' E.
      pose proof (tokenize_spans s out _ t Hout Hin Hin') as H. cbn in H. lia.
  - intros i n Hrun d.
    pose proof (run_is_token s out i n Hout Hrun) as Hin. fold d in Hin.
    split; [exact Hin|]. split.
    + intros t Hin' E. now apply (tokenize_unique s out).
    + intros Hd. apply literal_small. split; [|exact Hd].
      apply decimal_acc_nonneg; [|lia].
      apply maximal_run_spec in Hrun as (_ & _ & Hds & _).
      apply forallb_forall. intros c Hc. apply in_map_iff in Hc as (k & <- & Hk).
      apply in_seq in Hk. replace k with (i + (k - i)) by lia. apply Hds. lia.
Qed.

Lemma two_char_ops_first_and_numbers_witness :
  In (mkToken TK_RESERVED 0 1 2)
     [mkToken TK_NUM 1 0 1; mkToken TK_RESERVED 0 1 2; mkToken TK_NUM 2 3 1;
      mkToken TK_EOF 0 4 0].
Proof.
  refine (proj1 (proj1 (proj2 two_char_ops_first_and_numbers "1<=2" _ _) 1 _ _)).
  - reflexivity.
  - apply (Scans_step "1<=2" 0 1); [apply Scans_start|reflexivity].
  - reflexivity.
Defined.

(** The value of the number token of "2147483648" is not the number the
    digits denote. *)
Lemma number_value_wraps :
  exists t,
    tokenize "2147483648" = Ok [t; mkToken TK_EOF 0 10 0] /\
    kind t = TK_NUM /\
    maximal_run "2147483648" (str t) (len t) = true /\
    decimal (text "2147483648" t) = 2147483648%Z /\
    val t = (-2147483648)%Z.
Proof.
  exists (mkToken TK_NUM (-2147483648) 0 10). repeat split; vm_compute; reflexivity.
Qed.

(** ** The tokenizer reads the input and nothing else *)

Lemma tokenize_loop_more_fuel (s : string) (fuel : nat) :
  forall p cur r,
    tokenize_loop s fuel p cur = r -> r <> OutOfFuel ->
    tokenize_loop s (S fuel) p cur = r.
Proof.
  induction fuel as [|fuel IH]; intros p cur r H Hr; [now subst r|].
  rewrite tokenize_loop_turn in H |- *.
  destruct (advance s p) as [p'|]; [now apply IH|exact H].
Qed.

Lemma skipn_cons {A : Type} (p : nat) (m : list A) (c d : A) (rest : list A) :
  skipn p m = c :: rest -> nth p m d = c /\ skipn (S p) m = rest.
Proof.
  revert m; induction p as [|p IH]; intros m H.
  - destruct m; [discriminate|]. injection H as -> ->. now split.
  - destruct m as [|x m]; [discriminate|]. cbn [skipn nth] in *. now apply IH.
Qed.

Lemma digit_run_unfold (s : string) (p : nat) :
  digit_run (view s p) =
  if isdigit (deref s p) then deref s p :: digit_run (view s (S p)) else [].
Proof.
  unfold view, deref, load. destruct (skipn p (mem s)) as [|c rest] eqn:E.
  - rewrite nth_overflow; [reflexivity|].
    apply (f_equal (@List.length ascii)) in E. rewrite length_skipn in E.
    cbn in E. lia.
  - destruct (skipn_cons p (mem s) c NUL rest E) as [-> ->]. reflexivity.
Qed.

Section SameText.

Variables s1 s2 : string.

Hypothesis same_text : c_str (mem s1) = c_str (mem s2).

Let input_length : nat := strlen (mem s1).

Lemma same_strlen : strlen (mem s2) = input_length.
Proof. unfold input_length, strlen. now rewrite same_text. Qed.

Lemma same_deref (p : nat) : p <= input_length -> deref s1 p = deref s2 p.
Proof.
  intros Hp. unfold deref. destruct (Nat.eq_dec p input_length) as [->|Hne].
  - rewrite <- same_strlen at 2. unfold input_length. now rewrite !load_strlen.
  - destruct (load_c_str (mem s1) p) as [-> _]; [fold input_length; lia|].
    destruct (load_c_str (mem s2) p) as [-> _]; [rewrite same_strlen; lia|].
    now rewrite same_text.
Qed.

Lemma same_below (p : nat) :
  p <= input_length -> deref s1 p <> NUL -> S p <= input_length.
Proof. intros Hp Hn. now apply strlen_bound. Qed.

Lemma same_digit_run (p : nat) :
  p <= input_length -> digit_run (view s1 p) = digit_run (view s2 p).
Proof.
  intros Hp. remember (input_length - p) as d eqn:Hd.
  revert p Hp Hd. induction d as [|d IH]; intros p Hp Hd;
    rewrite (digit_run_unfold s1), (digit_run_unfold s2), <- (same_deref p Hp);
    destruct (isdigit (deref s1 p)) eqn:E; try reflexivity;
    pose proof (same_below p Hp (isdigit_not_NUL _ E)); [lia|].
  f_equal. apply IH; lia.
Qed.

Lemma same_startswith (p : nat) (q : string) :
  p + strlen (list_ascii_of_string q) <= S input_length ->
  startswith s1 p q = startswith s2 p q.
Proof.
  intros Hq. apply eq_true_iff_eq. rewrite !startswith_spec.
  split; intros H i Hi; [rewrite <- same_deref by lia|rewrite same_deref by lia];
    now apply H.
Qed.

Lemma same_advance (p : nat) : p <= input_length -> advance s1 p = advance s2 p.
Proof.
  intros Hp. unfold advance. rewrite <- (same_deref p Hp).
  destruct (Ascii.eqb (deref s1 p) NUL) eqn:E; [reflexivity|].
  apply eqb_NUL_false in E. pose proof (same_below p Hp E).
  rewrite !(same_startswith p) by (cbn; lia). now rewrite (same_digit_run p Hp).
Qed.

Lemma same_token_at (p : nat) : p <= input_length -> token_at s1 p = token_at s2 p.
Proof.
  intros Hp. unfold token_at, op2_at, strtol. rewrite <- (same_deref p Hp).
  destruct (Ascii.eqb (deref s1 p) NUL) eqn:E; [reflexivity|].
  apply eqb_NUL_false in E. pose proof (same_below p Hp E).
  rewrite !(same_startswith p) by (cbn; lia). now rewrite (same_digit_run p Hp).
Qed.

Lemma same_tokenize_loop (fuel : nat) :
  forall p cur,
    p <= input_length -> tokenize_loop s1 fuel p cur = tokenize_loop s2 fuel p cur.
Proof.
  induction fuel as [|fuel IH]; intros p cur Hp; [reflexivity|].
  rewrite !tokenize_loop_turn, <- (same_advance p Hp), <- (same_token_at p Hp),
    <- (same_deref p Hp).
  destruct (advance s1 p) as [p'|] eqn:Ea; [|reflexivity].
  apply IH. now apply (advance_bounds s1 p p' Hp).
Qed.

End SameText.

Lemma tokenize_not_OutOfFuel (s : string) : tokenize s <> OutOfFuel.
Proof.
  destruct (tokenize_result s) as [(ts & E & _)|(q & E & _)]; rewrite E; discriminate.
Qed.

(** Two inputs with the same bytes before the terminator get the same
    tokens. *)
Lemma tokenize_same_text (s1 s2 : string) :
  c_str (mem s1) = c_str (mem s2) -> tokenize s1 = tokenize s2.
Proof.
  intros H.
  assert (M : forall s n, tokenize_loop s (S (String.length s) + n) 0 [] = tokenize s).
  { intros s n. induction n as [|n IH]; [now rewrite Nat.add_0_r|].
    rewrite Nat.add_succ_r. apply tokenize_loop_more_fuel; [exact IH|].
    apply tokenize_not_OutOfFuel. }
  rewrite <- (M s1 (S (String.length s2))), <- (M s2 (S (String.length s1))).
  replace (S (String.length s2) + S (String.length s1))
    with (S (String.length s1) + S (String.length s2)) by lia.
  apply same_tokenize_loop; [exact H|lia].
Qed.

Lemma tokens_within (s : string) (out : list Token) :
  tokenize s = Ok out ->
  Forall (fun t => str t + len t <= strlen (mem s)) out.
Proof.
  destruct (tokenize_result s) as [(ts & E & _ & Hall & _)|(q & E & _)];
    rewrite E; [|discriminate].
  intros [= <-]. apply Forall_app. split.
  - eapply Forall_impl; [|exact Hall]. cbn. now intros t (_ & _ & _ & _ & H).
  - repeat constructor. cbn. lia.
Qed.

(** C8. Tokenizing is a function of the input alone: when [tokenize]
    succeeds on an input, a second run on the same input returns the same
    token sequence, token for token the same kinds, texts, values, lengths
    and offsets. The same holds for a second run on any input with the
    same bytes up to the terminator. *)
Theorem tokenize_deterministic :
  (forall (user_input : string) (first second : list Token),
      tokenize user_input = Ok first ->
      tokenize user_input = Ok second ->
      second = first /\
      map kind second = map kind first /\
      map (text user_input) second = map (text user_input) first /\
      map val second = map val first /\
      map len second = map len first /\
      map str second = map str first) /\
  (forall (user_input again : string) (first second : list Token),
      c_str (mem again) = c_str (mem user_input) ->
      tokenize user_input = Ok first ->
      tokenize again = Ok second ->
      second = first /\
      map (text again) second = map (text user_input) first).
Proof.
  split.
  - intros s first second H1 H2. rewrite H1 in H2. injection H2 as <-. repeat split.
  - intros s s' first second Hsame H1 H2.
    rewrite (tokenize_same_text s' s Hsame), H1 in H2. injection H2 as <-.
    split; [reflexivity|]. apply map_ext_in. intros t Ht.
    pose proof (tokens_within s first H1) as Hw. rewrite Forall_forall in Hw.
    specialize (Hw t Ht). unfold text. apply map_ext_in. intros i Hi.
    apply in_seq in Hi. symmetry. apply same_deref; [now symmetry|lia].
Qed.

Lemma tokenize_deterministic_witness :
  map str [mkToken TK_NUM 7 0 1; mkToken TK_EOF 0 1 0] =
  map str [mkToken TK_NUM 7 0 1; mkToken TK_EOF 0 1 0].
Proof.
  refine (proj2 (proj2 (proj2 (proj2 (proj2
    (proj1 tokenize_deterministic "7" _ _ _ _)))))); reflexivity.
Defined.

(** ** The parser, one call at a time *)

Lemma pbind_Ok {A B : Type} (p : parser A) (k : A -> parser B)
      (token token'' : list Token) (b : B) :
  pbind p k token = Ok (b, token'') ->
  exists a token', p token = Ok (a, token') /\ k a token' = Ok (b, token'').
Proof.
  unfold pbind, bind. destruct (p token) as [[a token']| | |]; try discriminate.
  eauto.
Qed.

Lemma pbind_step {A B : Type} (p : parser A) (k : A -> parser B)
      (token token' : list Token) (a : A) :
  p token = Ok (a, token') -> pbind p k token = k a token'.
Proof. unfold pbind, bind. now intros ->. Qed.

Section ParserFacts.

Variable s : string.

Lemma expr_S fuel : expr s (S fuel) = equality s fuel.
Proof. reflexivity. Qed.

Lemma equality_S fuel :
  equality s (S fuel) =
  (node <- relational s fuel ;; equality_loop s fuel node)%parser.
Proof. reflexivity. Qed.

Lemma equality_loop_S fuel node :
  equality_loop s (S fuel) node =
  (b <- consume s "==" ;;
   if b then r <- relational s fuel ;; equality_loop s fuel (new_binary ND_EQ node r)
   else
     b <- consume s "!=" ;;
     if b then r <- relational s fuel ;; equality_loop s fuel (new_binary ND_NE node r)
     else ret node)%parser.
Proof. reflexivity. Qed.

Lemma relational_S fuel :
  relational s (S fuel) =
  (node <- add s fuel ;; relational_loop s fuel node)%parser.
Proof. reflexivity. Qed.

Lemma relational_loop_S fuel node :
  relational_loop s (S fuel) node =
  (b <- consume s "<" ;;
   if b then r <- add s fuel ;; relational_loop s fuel (new_binary ND_LT node r)
   else
     b <- consume s "<=" ;;
     if b then r <- add s fuel ;; relational_loop s fuel (new_binary ND_LE node r)
     else
       b <- consume s ">" ;;
       if b then r <- add s fuel ;; relational_loop s fuel (new_binary ND_LT r node)
       else
         b <- consume s ">=" ;;
         if b then r <- add s fuel ;; relational_loop s fuel (new_binary ND_LE r node)
         else ret node)%parser.
Proof. reflexivity. Qed.

Lemma add_S fuel :
  add s (S fuel) = (node <- mul s fuel ;; add_loop s fuel node)%parser.
Proof. reflexivity. Qed.

Lemma add_loop_S fuel node :
  add_loop s (S fuel) node =
  (b <- consume s "+" ;;
   if b then r <- mul s fuel ;; add_loop s fuel (new_binary ND_ADD node r)
   else
     b <- consume s "-" ;;
     if b then r <- mul s fuel ;; add_loop s fuel (new_binary ND_SUB node r)
     else ret node)%parser.
Proof. reflexivity. Qed.

Lemma mul_S fuel :
  mul s (S fuel) = (node <- unary s fuel ;; mul_loop s fuel node)%parser.
Proof. reflexivity. Qed.

Lemma mul_loop_S fuel node :
  mul_loop s (S fuel) node =
  (b <- consume s "*" ;;
   if b then r <- unary s fuel ;; mul_loop s fuel (new_binary ND_MUL node r)
   else
     b <- consume s "/" ;;
     if b then r <- unary s fuel ;; mul_loop s fuel (new_binary ND_DIV node r)
     else ret node)%parser.
Proof. reflexivity. Qed.

Lemma unary_S fuel :
  unary s (S fuel) =
  (b <- consume s "+" ;;
   if b then primary s fuel
   else
     b <- consume s "-" ;;
     if b then r <- primary s fuel ;; ret (new_binary ND_SUB (new_num 0) r)
     else primary s fuel)%parser.
Proof. reflexivity. Qed.

Lemma primary_S fuel :
  primary s (S fuel) =
  (b <- consume s "(" ;;
   if b then node <- expr s fuel ;; _ <- expect s ")" ;; ret node
   else v <- expect_number ;; ret (new_num v))%parser.
Proof. reflexivity. Qed.

End ParserFacts.

Create Rewrite HintDb parser_unfold.
#[local] Hint Rewrite expr_S equality_S equality_loop_S relational_S relational_loop_S
  add_S add_loop_S mul_S mul_loop_S unary_S primary_S : parser_unfold.

(** Takes apart a hypothesis that says a parser built from [pbind], [ret]
    and tests returned. *)
Ltac parser_inv :=
  repeat match goal with
  | H : out_of_fuel _ = Ok _ |- _ => discriminate H
  | H : pbind _ _ _ = Ok _ |- _ =>
      let a := fresh "a" in let tk := fresh "token" in let Ha := fresh "Ha" in
      apply pbind_Ok in H as (a & tk & Ha & H); cbv beta in H
  | H : ret _ _ = Ok _ |- _ => unfold ret in H; injection H as <- <-
  | H : (if ?b then _ else _) _ = Ok _ |- _ => destruct b
  end.

(** ** Trees the parser returns *)

Lemma ast_ok_num (v : Z) : ast_ok (new_num v) = true.
Proof. reflexivity. Qed.

Lemma ast_ok_binary (k : NodeKind) (l r : Node) :
  k <> ND_NUM -> ast_ok l = true -> ast_ok r = true ->
  ast_ok (new_binary k l r) = true.
Proof.
  intros Hk Hl Hr. unfold new_binary, new_node. cbn.
  destruct k; try contradiction; cbn; now rewrite Hl, Hr.
Qed.

Lemma parser_ast_ok (s : string) (fuel : nat) :
  yields_ast_ok (expr s fuel) /\
  yields_ast_ok (equality s fuel) /\ loop_keeps_ast_ok (equality_loop s fuel) /\
  yields_ast_ok (relational s fuel) /\ loop_keeps_ast_ok (relational_loop s fuel) /\
  yields_ast_ok (add s fuel) /\ loop_keeps_ast_ok (add_loop s fuel) /\
  yields_ast_ok (mul s fuel) /\ loop_keeps_ast_ok (mul_loop s fuel) /\
  yields_ast_ok (unary s fuel) /\
  yields_ast_ok (primary s fuel).
Proof.
  induction fuel as [|fuel IH].
  - repeat split; repeat intro; discriminate.
  - destruct IH as (Ie & Iq & Iql & Ir & Irl & Ia & Ial & Im & Iml & Iu & Ip).
    assert (B : forall k l r, k <> ND_NUM -> ast_ok l = true -> ast_ok r = true ->
                              ast_ok (new_binary k l r) = true)
      by exact ast_ok_binary.
    repeat split; repeat intro;
      match goal with H : _ = Ok _ |- _ => autorewrite with parser_unfold in H end;
      parser_inv;
      repeat match goal with
             | H : expr _ _ _ = Ok _ |- _ => apply Ie in H
             | H : equality _ _ _ = Ok _ |- _ => apply Iq in H
             | H : relational _ _ _ = Ok _ |- _ => apply Ir in H
             | H : add _ _ _ = Ok _ |- _ => apply Ia in H
             | H : mul _ _ _ = Ok _ |- _ => apply Im in H
             | H : unary _ _ _ = Ok _ |- _ => apply Iu in H
             | H : primary _ _ _ = Ok _ |- _ => apply Ip in H
             end;
      try assumption; try reflexivity;
      try (apply B; [discriminate|reflexivity|assumption]);
      match goal with
      | H : equality_loop _ _ _ _ = Ok _ |- _ => apply Iql in H
      | H : relational_loop _ _ _ _ = Ok _ |- _ => apply Irl in H
      | H : add_loop _ _ _ _ = Ok _ |- _ => apply Ial in H
      | H : mul_loop _ _ _ _ = Ok _ |- _ => apply Iml in H
      end; try assumption; apply B; (discriminate || assumption).
Qed.

(** ** The machine *)

Lemma sx64_range (z : Z) : (- 2 ^ 63 <= sx64 z < 2 ^ 63)%Z.
Proof. unfold sx64. Z.div_mod_to_equations. lia. Qed.

Lemma sx64_small (z : Z) : (- 2 ^ 63 <= z < 2 ^ 63)%Z -> sx64 z = z.
Proof. unfold sx64. intros. Z.div_mod_to_equations. lia. Qed.

Lemma sx64_cases (z : Z) :
  (- 2 ^ 64 < z < 2 ^ 64)%Z ->
  (z < - 2 ^ 63 /\ sx64 z = z + 2 ^ 64)%Z \/
  (- 2 ^ 63 <= z < 2 ^ 63 /\ sx64 z = z)%Z \/
  (2 ^ 63 <= z /\ sx64 z = z - 2 ^ 64)%Z.
Proof. unfold sx64. intros H. Z.div_mod_to_equations. lia. Qed.

(** After [cmp a, b] the four conditions tell how the signed numbers [a]
    and [b] compare, whether the subtraction overflows or not. *)
Lemma holds_cmp (a b : Z) :
  (- 2 ^ 63 <= a < 2 ^ 63)%Z -> (- 2 ^ 63 <= b < 2 ^ 63)%Z ->
  holds EQ (cmp_flags a b) = (a =? b)%Z /\
  holds NE (cmp_flags a b) = negb (a =? b)%Z /\
  holds LT (cmp_flags a b) = (a <? b)%Z /\
  holds LE (cmp_flags a b) = (a <=? b)%Z.
Proof.
  intros Ha Hb. unfold holds, cmp_flags. cbn [fN fZ fV].
  destruct (sx64_cases (a - b) ltac:(lia)) as [[H E]|[[H E]|[H E]]]; rewrite E;
    repeat split;
    repeat match goal with
           | |- context [(?x =? ?y)%Z] => destruct (Z.eqb_spec x y)
           | |- context [(?x <? ?y)%Z] => destruct (Z.ltb_spec x y)
           | |- context [(?x <=? ?y)%Z] => destruct (Z.leb_spec x y)
           end; try reflexivity; lia.
Qed.

Lemma op64_range (k : NodeKind) (a b : Z) : (- 2 ^ 63 <= op64 k a b < 2 ^ 63)%Z.
Proof.
  destruct k; cbn; try apply sx64_range;
    try match goal with |- context [if ?c then _ else _] => destruct c end; try lia.
  unfold sdiv. destruct (b =? 0)%Z; [lia|apply sx64_range].
Qed.

Lemma value64_range (node : Node) : (- 2 ^ 63 <= value64 node < 2 ^ 63)%Z.
Proof.
  destruct node as [k lhs rhs v]. cbn [value64].
  destruct (NodeKind_eqb k ND_NUM); [apply sx64_range|apply op64_range].
Qed.

Lemma exec_app (a b : list instr) (m : machine) :
  exec (a ++ b) m =
  match exec a m with Some m' => exec b m' | None => None end.
Proof.
  revert m; induction a as [|i a IH]; intros m; [reflexivity|].
  cbn. destruct (effect i m); [apply IH|reflexivity].
Qed.

(** The instructions of a binary node after those of its children. *)
Lemma exec_own (k : NodeKind) (a b : Z) (m : machine) :
  k <> ND_NUM ->
  (- 2 ^ 63 <= a < 2 ^ 63)%Z -> (- 2 ^ 63 <= b < 2 ^ 63)%Z ->
  exists m',
    exec ([LdrPost X1; LdrPost X0] ++ gen_op k ++ [StrPre X0])
         (set_stack (b :: a :: stack m) m) = Some m' /\
    stack m' = op64 k a b :: stack m.
Proof.
  intros Hk Ha Hb. destruct (holds_cmp a b Ha Hb) as (Heq & Hne & Hlt & Hle).
  destruct k; try contradiction; cbn -[holds cmp_flags sx64 sdiv];
    rewrite ?Heq, ?Hne, ?Hlt, ?Hle; eexists; (split; [reflexivity|]);
    cbn; try reflexivity; now destruct (a =? b)%Z.
Qed.

Lemma pushes_app (a b : list instr) : pushes (a ++ b) = pushes a + pushes b.
Proof. unfold pushes. now rewrite filter_app, length_app. Qed.

Lemma pops_app (a b : list instr) : pops (a ++ b) = pops a + pops b.
Proof. unfold pops. now rewrite filter_app, length_app. Qed.

Lemma own_pushes_pops (k : NodeKind) :
  pushes ([LdrPost X1; LdrPost X0] ++ gen_op k ++ [StrPre X0]) = 1 /\
  pops ([LdrPost X1; LdrPost X0] ++ gen_op k ++ [StrPre X0]) = 2.
Proof. destruct k; split; reflexivity. Qed.

(** The code of a well-formed tree leaves the value of the tree on top of
    the stack it found. *)
Lemma gen_correct (node : Node) :
  ast_ok node = true ->
  exists code,
    gen node = Ok code /\
    pushes code = pops code + 1 /\
    forall m, exists m', exec code m = Some m' /\ stack m' = value64 node :: stack m.
Proof.
  induction node as [k lhs IHl rhs IHr v]. cbn [ast_ok gen value64].
  destruct (NodeKind_eqb k ND_NUM) eqn:Ek.
  - intros _. eexists. split; [reflexivity|]. split; [reflexivity|].
    intros m. eexists. split; [reflexivity|]. destruct m; reflexivity.
  - destruct IHl as [l IHl|]; [|discriminate].
    destruct IHr as [r IHr|]; [|discriminate].
    intros H. apply andb_prop in H as [Hl Hr].
    destruct (IHl Hl) as (cl & El & Cl & Xl). destruct (IHr Hr) as (cr & Er & Cr & Xr).
    rewrite El, Er. cbn [bind]. eexists. split; [reflexivity|]. split.
    + destruct (own_pushes_pops k) as [P1 P2].
      rewrite !pushes_app, !pops_app in *. cbn in P1, P2 |- *. lia.
    + intros m. destruct (Xl m) as (m1 & E1 & S1). destruct (Xr m1) as (m2 & E2 & S2).
      rewrite !exec_app, E1. rewrite exec_app, E2.
      assert (Hk : k <> ND_NUM) by (intros ->; discriminate).
      destruct (exec_own k (value64 l) (value64 r) (set_stack (stack m) m2) Hk
                  (value64_range l) (value64_range r)) as (m' & E' & S').
      replace (set_stack (value64 r :: value64 l :: stack (set_stack (stack m) m2))
                 (set_stack (stack m) m2)) with m2 in E'.
      * exists m'. split; [exact E'|exact S'].
      * destruct m2; cbn in *. rewrite S2, S1. reflexivity.
Qed.

Lemma gen_no_ret (node : Node) :
  forall code, gen node = Ok code -> Forall (fun i => i <> Ret) code.
Proof.
  induction node as [k lhs IHl rhs IHr v]. cbn [gen]. intros code.
  destruct (NodeKind_eqb k ND_NUM).
  - intros [= <-]. repeat constructor; discriminate.
  - destruct IHl as [l IHl|]; [|discriminate].
    destruct (gen l) as [cl| | |]; try discriminate. cbn [bind].
    destruct IHr as [r IHr|]; [|discriminate].
    destruct (gen r) as [cr| | |]; try discriminate. cbn [bind].
    intros [= <-]. specialize (IHl _ eq_refl). specialize (IHr _ eq_refl).
    apply Forall_app; split; [assumption|].
    apply Forall_app; split; [assumption|].
    destruct k; cbn; repeat (constructor; [discriminate|]); constructor.
Qed.

Lemma call_app (a b : list instr) (m m' : machine) :
  Forall (fun i => i <> Ret) a -> exec a m = Some m' ->
  call (a ++ b) m = call b m'.
Proof.
  intros Ha. revert m. induction Ha as [|i a Hi Ha IH]; intros m; cbn.
  - now intros [= ->].
  - destruct (effect i m) as [m1|] eqn:E; [|discriminate].
    intros H. rewrite <- (IH m1 H). now destruct i.
Qed.

(** The function printed for a well-formed tree returns the value of the
    tree and the stack as it was. *)
Lemma call_main (node : Node) (code : list instr) (m : machine) :
  ast_ok node = true -> gen node = Ok code ->
  call ([Globl "main"; Label "main"] ++ code ++ [LdrPost X0; Ret]) m =
  Some (value64 node, stack m).
Proof.
  intros Hok Hgen. destruct (gen_correct node Hok) as (code' & E & _ & X).
  rewrite Hgen in E. injection E as <-.
  destruct (X m) as (m' & Em & Sm). cbn [app call effect].
  rewrite (call_app code _ m m' (gen_no_ret node code Hgen) Em).
  cbn. rewrite Sm. reflexivity.
Qed.

(** C9. The code [gen] prints for a node pushes one value more than it
    pops, and run on any stack it leaves that stack with one value on top:
    a number node pushes once and pops nothing; under any other node the
    code of the two children comes first and the node's own instructions
    pop twice and push once. So after the code of the root the single pop
    of the driver finds the result and leaves the stack as it was at
    entry. *)
Theorem gen_pushes_one_value (node : Node) :
  ast_ok node = true ->
  exists code,
    gen node = Ok code /\
    pushes code = pops code + 1 /\
    (forall m, exists m',
        exec code m = Some m' /\ stack m' = value64 node :: stack m) /\
    (Node.kind node = ND_NUM -> pushes code = 1 /\ pops code = 0) /\
    (forall l r,
        Node.kind node <> ND_NUM ->
        Node.lhs node = Some l -> Node.rhs node = Some r ->
        exists cl cr own,
          gen l = Ok cl /\ gen r = Ok cr /\ code = cl ++ cr ++ own /\
          pops own = 2 /\ pushes own = 1) /\
    (forall m,
        call ([Globl "main"; Label "main"] ++ code ++ [LdrPost X0; Ret]) m =
        Some (value64 node, stack m)).
Proof.
  intros Hok. destruct (gen_correct node Hok) as (code & E & C & X).
  exists code. repeat split; try assumption.
  - destruct node as [k lhs rhs v]; cbn in *. subst k. injection E as <-. reflexivity.
  - destruct node as [k lhs rhs v]; cbn in *. subst k. injection E as <-. reflexivity.
  - intros l r Hk Hl Hr. destruct node as [k lhs rhs v]; cbn in *. subst lhs rhs.
    destruct (NodeKind_eqb k ND_NUM) eqn:Ek; [destruct k; try discriminate; contradiction|].
    destruct (gen l) as [cl| | |]; try discriminate. cbn [bind] in E.
    destruct (gen r) as [cr| | |]; try discriminate. cbn [bind] in E.
    injection E as <-. exists cl, cr, ([LdrPost X1; LdrPost X0] ++ gen_op k ++ [StrPre X0]).
    destruct (own_pushes_pops k) as [P1 P2]. repeat split; assumption.
  - intros m. now apply call_main.
Qed.

Lemma gen_pushes_one_value_witness :
  exists code,
    gen (new_binary ND_ADD (new_num 1) (new_num 2)) = Ok code /\
    pushes code = pops code + 1.
Proof.
  destruct (gen_pushes_one_value (new_binary ND_ADD (new_num 1) (new_num 2)) eq_refl)
    as (code & E & C & _).
  exists code. split; assumption.
Defined.

(** ** Diagnostics *)

Lemma blanks_snoc (n : nat) : (blanks n ++ " ")%string = blanks (S n).
Proof. induction n as [|n IH]; [reflexivity|]. cbn in *. now rewrite IH. Qed.

Lemma pad_left_blank (width : nat) : pad_left width " " = blanks (Nat.max 1 width).
Proof.
  unfold pad_left. cbn [String.length]. rewrite blanks_snoc. f_equal. lia.
Qed.

Lemma index_of_blanks (n : nat) (rest : string) :
  index_of "^" (blanks n ++ String "^" rest)%string = Some n.
Proof.
  induction n as [|n IH]; [reflexivity|]. cbn in *. now rewrite IH.
Qed.

(** The caret stands in the column of the offset reported, except for
    offset 0, where it stands in column 1. *)
Lemma caret_column (loc : nat) :
  index_of "^" (caret_line loc) = Some (Nat.max 1 loc).
Proof.
  unfold caret_line. rewrite pad_left_blank. apply index_of_blanks.
Qed.

Lemma string_app_assoc (a b c : string) : ((a ++ b) ++ c = a ++ b ++ c)%string.
Proof. induction a as [|x a IH]; [reflexivity|]. cbn. now rewrite IH. Qed.

Lemma stderr_text_error_at (user_input : string) (c_arg : ascii)
      (loc : nat) (fmt : string) (arg : option string) :
  stderr_text user_input c_arg (ErrorAt loc fmt arg) =
  (string_of_list_ascii (c_str (list_ascii_of_string user_input)) ++ nl ++
   caret_line loc ++ format fmt "" c_arg ++ nl)%string.
Proof.
  unfold stderr_text, caret_line. now rewrite !string_app_assoc.
Qed.

(** A run that ends with status 1 has printed nothing on the standard
    output, and a diagnostic on the error stream. *)
Lemma main_failure (argv : list string) :
  status (main argv) = Exited 1 ->
  stdout (main argv) = [] /\ exists d, stderr (main argv) = Some d.
Proof.
  unfold main.
  assert (D : forall d, stdout (die d) = [] /\ exists d', stderr (die d) = Some d')
    by (intros d; split; [reflexivity|now exists d]).
  destruct argv as [|a0 [|a1 [|a2 argv]]]; try (intros _; apply D).
  destruct (tokenize a1) as [token|d| |]; try discriminate; [|intros _; apply D].
  destruct (expr a1 (expr_fuel token) token) as [[node token']|d| |];
    try discriminate; [|intros _; apply D].
  destruct (gen node) as [body|d| |]; try discriminate. intros _; apply D.
Qed.

(** C3: the run on the input "a". It ends with status 1 and nothing on
    the standard output; the error stream holds the input line, then a
    line with ONE blank before the caret, which so stands in column 1 and
    not under offset 0, the offset of the error. *)
Theorem caret_misplaced_at_offset_0 :
  let run := main ["9cc"; "a"] in
  status run = Exited 1 /\
  stdout run = [] /\
  stderr run = Some (ErrorAt 0 cannot_tokenize None) /\
  (forall c_arg,
      stderr_text "a" c_arg (ErrorAt 0 cannot_tokenize None) =
      ("a" ++ nl ++ " ^ " ++ cannot_tokenize ++ nl)%string) /\
  index_of "^" (caret_line 0) = Some 1.
Proof.
  repeat split.
Qed.

(** ** Fuel

    A result other than [OutOfFuel] does not depend on the fuel. *)

Lemma stable_refl {A : Type} (p : parser A) : stable p p.
Proof. intros token r H _. exact H. Qed.

Lemma stable_pbind {A B : Type} (p p' : parser A) (k k' : A -> parser B) :
  stable p p' -> (forall a, stable (k a) (k' a)) ->
  stable (pbind p k) (pbind p' k').
Proof.
  intros Hp Hk token r. unfold pbind, bind.
  destruct (p token) as [[a token']|d| |] eqn:E; intros H Hr.
  - rewrite (Hp token _ E) by discriminate. now apply Hk.
  - rewrite (Hp token _ E) by discriminate. exact H.
  - rewrite (Hp token _ E) by discriminate. exact H.
  - congruence.
Qed.

Lemma stable_out_of_fuel {A : Type} (q : parser A) : stable out_of_fuel q.
Proof. intros token r <- H. now contradiction H. Qed.

Ltac stable_tac :=
  repeat first
    [ assumption
    | apply stable_refl
    | apply stable_out_of_fuel
    | apply stable_pbind
    | match goal with
      | |- forall _, _ => intro
      | |- stable (if ?b then _ else _) _ => destruct b
      | H : forall node, stable (?f node) _ |- stable (?f _) _ => apply H
      end ].

Lemma parser_stable_step (s : string) (fuel : nat) :
  stable (expr s fuel) (expr s (S fuel)) /\
  stable (equality s fuel) (equality s (S fuel)) /\
  (forall node, stable (equality_loop s fuel node) (equality_loop s (S fuel) node)) /\
  stable (relational s fuel) (relational s (S fuel)) /\
  (forall node, stable (relational_loop s fuel node) (relational_loop s (S fuel) node)) /\
  stable (add s fuel) (add s (S fuel)) /\
  (forall node, stable (add_loop s fuel node) (add_loop s (S fuel) node)) /\
  stable (mul s fuel) (mul s (S fuel)) /\
  (forall node, stable (mul_loop s fuel node) (mul_loop s (S fuel) node)) /\
  stable (unary s fuel) (unary s (S fuel)) /\
  stable (primary s fuel) (primary s (S fuel)).
Proof.
  induction fuel as [|fuel IH].
  - repeat split; stable_tac.
  - destruct IH as (Ie & Iq & Iql & Ir & Irl & Ia & Ial & Im & Iml & Iu & Ip).
    repeat split;
      match goal with
      | |- forall _, _ => intro
      | _ => idtac
      end; autorewrite with parser_unfold; stable_tac.
Qed.

Lemma parse_at_more_fuel (s : string) (k fuel fuel' : nat) (token : list Token)
      (r : result (Node * list Token)) :
  fuel <= fuel' ->
  parse_at k s fuel token = r -> r <> OutOfFuel -> parse_at k s fuel' token = r.
Proof.
  induction 1 as [|fuel' _ IH]; [auto|]. intros H Hr. specialize (IH H Hr).
  destruct (parser_stable_step s fuel') as (_ & Iq & _ & Ir & _ & Ia & _ & Im & _ & Iu & Ip).
  destruct k as [|[|[|[|[|k]]]]]; cbn [parse_at] in *;
    [apply Iq|apply Ir|apply Ia|apply Im|apply Iu|apply Ip]; auto.
Qed.

Lemma loop_at_more_fuel (s : string) (k fuel fuel' : nat) (node : Node)
      (token : list Token) (r : result (Node * list Token)) :
  fuel <= fuel' ->
  loop_at k s fuel node token = r -> r <> OutOfFuel ->
  loop_at k s fuel' node token = r.
Proof.
  induction 1 as [|fuel' _ IH]; [auto|]. intros H Hr. specialize (IH H Hr).
  destruct (parser_stable_step s fuel') as (_ & _ & Iq & _ & Ir & _ & Ia & _ & Im & _).
  destruct k as [|[|[|k]]]; cbn [loop_at] in *;
    [apply Iq|apply Ir|apply Ia|apply Im]; auto.
Qed.

Lemma expr_more_fuel (s : string) (fuel fuel' : nat) (token : list Token)
      (r : result (Node * list Token)) :
  fuel <= fuel' ->
  expr s fuel token = r -> r <> OutOfFuel -> expr s fuel' token = r.
Proof.
  induction 1 as [|fuel' _ IH]; [auto|]. intros H Hr. specialize (IH H Hr).
  destruct (parser_stable_step s fuel') as (Ie & _). apply Ie; auto.
Qed.

Lemma good_ret {A : Type} (a : A) (token : list Token) : good 0 (ret a) token.
Proof. split; [discriminate|]. intros a' token' [= _ <-]. lia. Qed.

Lemma good_less {A : Type} (d d' : nat) (p : parser A) (token : list Token) :
  good d p token -> d' <= d -> good d' p token.
Proof.
  intros [Hn Hl] Hd. split; [exact Hn|].
  intros a token' H. specialize (Hl a token' H). lia.
Qed.

Lemma good_bind {A B : Type} (d d1 d2 : nat) (p : parser A) (k : A -> parser B)
      (token : list Token) :
  good d1 p token ->
  (forall a token', List.length token' + d1 <= List.length token ->
                    good d2 (k a) token') ->
  d <= d1 + d2 ->
  good d (pbind p k) token.
Proof.
  intros [Hp Hl] Hk Hd. unfold pbind, bind, good.
  destruct (p token) as [[a token']|e| |]; try (split; [discriminate|discriminate]).
  - specialize (Hl a token' eq_refl). destruct (Hk a token' Hl) as [Hn Hl'].
    split; [exact Hn|]. intros b token'' H. specialize (Hl' b token'' H). lia.
  - contradiction.
Qed.

Ltac use_good H :=
  match goal with
  | |- good ?d _ _ => first [is_evar d; apply H | eapply good_less; [apply H|]]
  end.

Section GoodSteps.

Variable s : string.

Lemma good_consume {A : Type} (d : nat) (op : string) (k : bool -> parser A)
      (token : list Token) :
  (forall t next, token = t :: next -> good (pred d) (k true) next) ->
  good d (k false) token ->
  good d (pbind (consume s op) k) token.
Proof.
  intros Ht Hf. destruct token as [|t next]; [split; discriminate|].
  assert (E : pbind (consume s op) k (t :: next) =
              if mismatch s op t then k false (t :: next) else k true next)
    by (unfold pbind, bind, consume; now destruct (mismatch s op t)).
  unfold good. rewrite E.
  destruct (mismatch s op t); [exact Hf|].
  destruct (Ht t next eq_refl) as [Hn Hl]. split; [exact Hn|].
  intros a token' H. specialize (Hl a token' H). cbn [List.length]. lia.
Qed.

Lemma good_expect {A : Type} (d : nat) (op : string) (k : unit -> parser A)
      (token : list Token) :
  (forall t next, token = t :: next -> good (pred d) (k tt) next) ->
  good d (pbind (expect s op) k) token.
Proof.
  intros Ht. destruct token as [|t next]; [split; discriminate|].
  assert (E : pbind (expect s op) k (t :: next) =
              if mismatch s op t
              then Exit1 (ErrorAt (str t) "'%c'ではありません" (Some op))
              else k tt next)
    by (unfold pbind, bind, expect; now destruct (mismatch s op t)).
  unfold good. rewrite E.
  destruct (mismatch s op t); [split; discriminate|].
  destruct (Ht t next eq_refl) as [Hn Hl]. split; [exact Hn|].
  intros a token' H. specialize (Hl a token' H). cbn [List.length]. lia.
Qed.

Lemma good_expect_number {A : Type} (d : nat) (k : Z -> parser A)
      (token : list Token) :
  (forall t next, token = t :: next -> good (pred d) (k (val t)) next) ->
  good d (pbind expect_number k) token.
Proof.
  intros Ht. destruct token as [|t next]; [split; discriminate|].
  assert (E : pbind expect_number k (t :: next) =
              if negb (TokenKind_eqb (kind t) TK_NUM)
              then Exit1 (ErrorAt (str t) "数ではありません" None)
              else k (val t) next)
    by (unfold pbind, bind, expect_number; now destruct (negb _)).
  unfold good. rewrite E.
  destruct (negb _); [split; discriminate|].
  destruct (Ht t next eq_refl) as [Hn Hl]. split; [exact Hn|].
  intros a token' H. specialize (Hl a token' H). cbn [List.length]. lia.
Qed.

(** With seven units of fuel for each token and the seven calls down to
    [primary], no function of the parser runs out; each grammar function
    takes at least one token. *)
Lemma parser_good (fuel : nat) :
  (forall token, 7 * List.length token + 7 <= fuel -> good 1 (expr s fuel) token) /\
  (forall token, 7 * List.length token + 6 <= fuel -> good 1 (equality s fuel) token) /\
  (forall node token, 7 * List.length token + 1 <= fuel ->
                      good 0 (equality_loop s fuel node) token) /\
  (forall token, 7 * List.length token + 5 <= fuel -> good 1 (relational s fuel) token) /\
  (forall node token, 7 * List.length token + 1 <= fuel ->
                      good 0 (relational_loop s fuel node) token) /\
  (forall token, 7 * List.length token + 4 <= fuel -> good 1 (add s fuel) token) /\
  (forall node token, 7 * List.length token + 1 <= fuel ->
                      good 0 (add_loop s fuel node) token) /\
  (forall token, 7 * List.length token + 3 <= fuel -> good 1 (mul s fuel) token) /\
  (forall node token, 7 * List.length token + 1 <= fuel ->
                      good 0 (mul_loop s fuel node) token) /\
  (forall token, 7 * List.length token + 2 <= fuel -> good 1 (unary s fuel) token) /\
  (forall token, 7 * List.length token + 1 <= fuel -> good 1 (primary s fuel) token).
Proof.
  induction fuel as [|fuel IH].
  - repeat match goal with |- _ /\ _ => split end; intros; lia.
  - destruct IH as (Ie & Iq & Iql & Ir & Irl & Ia & Ial & Im & Iml & Iu & Ip).
    repeat match goal with |- _ /\ _ => split end; intros;
      autorewrite with parser_unfold;
      repeat first
        [ apply good_ret
        | match goal with
          | |- good (pred ?d) _ _ => is_evar d; unify d 0; cbn [pred]
          | |- good _ (pbind (consume _ _) _) _ =>
              apply good_consume; [intros ? ? ->|]; cbv beta iota
          | |- good _ (pbind (expect _ _) _) _ =>
              apply good_expect; intros ? ? ->; cbv beta
          | |- good _ (pbind expect_number _) _ =>
              apply good_expect_number; intros ? ? ->; cbv beta
          | |- good _ (pbind _ _) _ =>
              eapply good_bind; [| intros ? ? ?; cbv beta |]
          | |- good _ (expr _ _) _ => use_good Ie
          | |- good _ (equality _ _) _ => use_good Iq
          | |- good _ (equality_loop _ _ _) _ => use_good Iql
          | |- good _ (relational _ _) _ => use_good Ir
          | |- good _ (relational_loop _ _ _) _ => use_good Irl
          | |- good _ (add _ _) _ => use_good Ia
          | |- good _ (add_loop _ _ _) _ => use_good Ial
          | |- good _ (mul _ _) _ => use_good Im
          | |- good _ (mul_loop _ _ _) _ => use_good Iml
          | |- good _ (unary _ _) _ => use_good Iu
          | |- good _ (primary _ _) _ => use_good Ip
          | |- _ <= _ => cbn [List.length pred] in *; lia
          end ].
Qed.

End GoodSteps.

(** The driver gives [expr] enough fuel: what [expr] returns with any
    fuel it returns with the driver's. *)
Lemma expr_total (s : string) (token : list Token) :
  expr s (expr_fuel token) token <> OutOfFuel.
Proof.
  destruct (parser_good s (expr_fuel token)) as (Ie & _).
  apply (Ie token). unfold expr_fuel. lia.
Qed.

Lemma expr_fuel_enough (s : string) (fuel : nat) (token : list Token)
      (r : result (Node * list Token)) :
  expr s fuel token = r -> r <> OutOfFuel ->
  expr s (expr_fuel token) token = r.
Proof.
  intros H Hr. pose proof (expr_total s token) as Ht.
  pose proof (expr_more_fuel s fuel (Nat.max fuel (expr_fuel token)) token r
                ltac:(lia) H Hr) as H1.
  pose proof (expr_more_fuel s (expr_fuel token) (Nat.max fuel (expr_fuel token))
                token _ ltac:(lia) eq_refl Ht) as H2.
  congruence.
Qed.

(** ** Tokens as lexemes *)

Lemma lexeme_eqb_eq (a b : lexeme) : lexeme_eqb a b = true <-> a = b.
Proof.
  destruct a, b; cbn; try (split; [discriminate|discriminate]).
  - rewrite Z.eqb_eq. split; congruence.
  - rewrite String.eqb_eq. split; congruence.
  - split; reflexivity.
Qed.

Section TokenFacts.

Variable s : string.

Lemma token_at_sound (p : nat) (t : Token) : token_at s p = Some t -> sound s t.
Proof.
  unfold token_at, sound.
  destruct (Ascii.eqb _ _); [intros [= <-]; discriminate|].
  destruct (isspace _); [discriminate|].
  destruct (op2_at s p); [intros [= <-]; discriminate|].
  destruct (not_null _); [intros [= <-]; discriminate|].
  destruct (isdigit _); [|discriminate].
  intros [= <-] _. unfold text, strtol, literal. cbn [kind val str len fst snd].
  destruct (digit_run_view s p) as [Hd He].
  destruct (run_text s p _ Hd He) as [_ Ht]. now rewrite <- Ht.
Qed.

Lemma tokenize_sound (out : list Token) :
  tokenize s = Ok out -> Forall (sound s) out.
Proof.
  intros H. apply tokenize_tokens in H. eapply Forall_impl; [|exact H].
  cbn. intros t [_ Ht]. eapply token_at_sound. exact Ht.
Qed.

Lemma lexeme_of_op (t : Token) (op : string) :
  lexeme_of s t = LOp op <->
  kind t = TK_RESERVED /\ text s t = list_ascii_of_string op.
Proof.
  unfold lexeme_of. split.
  - destruct (kind t); try discriminate. intros [= <-].
    now rewrite list_ascii_of_string_of_list_ascii.
  - intros [-> ->]. now rewrite string_of_list_ascii_of_string.
Qed.

Lemma mismatch_lexeme (op : string) (t : Token) :
  no_NUL op ->
  mismatch s op t = negb (lexeme_eqb (lexeme_of s t) (LOp op)).
Proof.
  intros Hop. pose proof (mismatch_false s op t) as M. rewrite Hop in M.
  rewrite <- lexeme_of_op, <- lexeme_eqb_eq in M.
  destruct (mismatch s op t), (lexeme_eqb _ _); try reflexivity.
  - destruct M as [_ M]. now specialize (M eq_refl).
  - destruct M as [M _]. now specialize (M eq_refl).
Qed.

Lemma pbind_consume {A : Type} (op : string) (k : bool -> parser A)
      (t : Token) (next : list Token) :
  no_NUL op ->
  pbind (consume s op) k (t :: next) =
  if lexeme_eqb (lexeme_of s t) (LOp op) then k true next else k false (t :: next).
Proof.
  intros Hop. unfold pbind, bind, consume. rewrite (mismatch_lexeme op t Hop).
  now destruct (lexeme_eqb _ _).
Qed.

Lemma pbind_expect {A : Type} (op : string) (k : unit -> parser A)
      (t : Token) (next : list Token) :
  lexeme_of s t = LOp op -> no_NUL op ->
  pbind (expect s op) k (t :: next) = k tt next.
Proof.
  intros Ht Hop. unfold pbind, bind, expect. rewrite (mismatch_lexeme op t Hop), Ht.
  assert (E : lexeme_eqb (LOp op) (LOp op) = true) by now apply lexeme_eqb_eq.
  now rewrite E.
Qed.

Lemma pbind_expect_number {A : Type} (k : Z -> parser A)
      (t : Token) (next : list Token) (n : Z) :
  lexeme_of s t = LNum n -> sound s t ->
  pbind expect_number k (t :: next) = k (literal n) next.
Proof.
  unfold lexeme_of, sound, pbind, bind, expect_number.
  destruct (kind t); try discriminate. intros [= <-] Hs. cbn.
  now rewrite Hs.
Qed.

End TokenFacts.

(** ** The grammar functions on a spelled-out expression *)

Lemma op_text_no_NUL (op : binop) : no_NUL (op_text op).
Proof. now destruct op. Qed.

Lemma op_text_inj (op op' : binop) : op_text op = op_text op' -> op = op'.
Proof. destruct op, op'; cbn; intros H; try reflexivity; discriminate H. Qed.

Ltac eval_lexeme_eqb :=
  repeat match goal with
         | |- context [lexeme_eqb (LOp ?a) (LOp ?b)] =>
             let v := eval vm_compute in (lexeme_eqb (LOp a) (LOp b)) in
             change (lexeme_eqb (LOp a) (LOp b)) with v
         | |- context [lexeme_eqb (LNum ?a) (LOp ?b)] =>
             change (lexeme_eqb (LNum a) (LOp b)) with false
         | |- context [lexeme_eqb LEof (LOp ?b)] =>
             change (lexeme_eqb LEof (LOp b)) with false
         end; cbv beta iota.

Section Levels.

Variable s : string.

Lemma parse_at_S (k fuel : nat) :
  k <= 3 ->
  parse_at k s (S fuel) =
  pbind (parse_at (S k) s fuel) (fun node => loop_at k s fuel node).
Proof.
  intros Hk. destruct k as [|[|[|[|k]]]]; try lia; reflexivity.
Qed.

Lemma loop_at_S (k fuel : nat) (node : Node) :
  loop_at k s (S fuel) node =
  match k with
  | 0 => equality_loop s (S fuel) node
  | 1 => relational_loop s (S fuel) node
  | 2 => add_loop s (S fuel) node
  | _ => mul_loop s (S fuel) node
  end.
Proof. now destruct k as [|[|[|k]]]. Qed.

Ltac pose_ops H :=
  try pose proof (H OEq eq_refl); try pose proof (H ONe eq_refl);
  try pose proof (H OLt eq_refl); try pose proof (H OLe eq_refl);
  try pose proof (H OGt eq_refl); try pose proof (H OGe eq_refl);
  try pose proof (H OAdd eq_refl); try pose proof (H OSub eq_refl);
  try pose proof (H OMul eq_refl); try pose proof (H ODiv eq_refl);
  cbn [op_text] in *.

(** The loop of a level ends at a token that is not one of its
    operators. *)
Lemma loop_at_stop (k fuel : nat) (node : Node) (t : Token) (rest : list Token) :
  k <= 3 ->
  (forall op, prec op = k -> lexeme_of s t <> LOp (op_text op)) ->
  loop_at k s (S fuel) node (t :: rest) = Ok (node, t :: rest).
Proof.
  intros Hk H.
  assert (H' : forall op, prec op = k ->
                          lexeme_eqb (lexeme_of s t) (LOp (op_text op)) = false).
  { intros op Hop. destruct (lexeme_eqb _ _) eqn:E; [|reflexivity].
    apply lexeme_eqb_eq in E. now apply H in E. }
  clear H. rewrite loop_at_S.
  destruct k as [|[|[|[|k]]]]; try lia; pose_ops H'; clear H';
    autorewrite with parser_unfold;
    repeat (rewrite pbind_consume by reflexivity;
            match goal with
            | Hx : lexeme_eqb _ _ = false |- _ => rewrite Hx
            end; cbv beta iota);
    reflexivity.
Qed.

(** At one of its operators the loop takes the operand that follows and
    goes on with the node built. *)
Lemma loop_at_go (op : binop) (fuel : nat) (node : Node) (t : Token)
      (rest : list Token) :
  lexeme_of s t = LOp (op_text op) ->
  loop_at (prec op) s (S fuel) node (t :: rest) =
  pbind (parse_at (S (prec op)) s fuel)
        (fun r => loop_at (prec op) s fuel (build op node r)) rest.
Proof.
  intros Ht. rewrite loop_at_S.
  destruct op; cbn [prec op_text] in *; autorewrite with parser_unfold;
    repeat (rewrite pbind_consume by reflexivity; rewrite Ht; eval_lexeme_eqb);
    reflexivity.
Qed.

Lemma Parses_entry (k : nat) (token : list Token) (n0 : Node) (rest0 : list Token)
      (n' : Node) (rest' : list Token) :
  k <= 3 ->
  Parses s (S k) token n0 rest0 -> Loops s k n0 rest0 n' rest' ->
  Parses s k token n' rest'.
Proof.
  intros Hk [f1 H1] [f2 H2]. exists (S (Nat.max f1 f2)).
  rewrite parse_at_S by exact Hk.
  apply (parse_at_more_fuel s (S k) f1 (Nat.max f1 f2)) in H1; [|lia|discriminate].
  apply (loop_at_more_fuel s k f2 (Nat.max f1 f2)) in H2; [|lia|discriminate].
  now rewrite (pbind_step _ _ _ _ _ H1).
Qed.

Lemma Loops_stop (k : nat) (node : Node) (t : Token) (rest : list Token) :
  k <= 3 ->
  (forall op, prec op = k -> lexeme_of s t <> LOp (op_text op)) ->
  Loops s k node (t :: rest) node (t :: rest).
Proof. intros Hk H. exists 1. now apply loop_at_stop. Qed.

Lemma Loops_go (op : binop) (node : Node) (t : Token) (rest : list Token)
      (r : Node) (rest1 : list Token) (n' : Node) (rest' : list Token) :
  lexeme_of s t = LOp (op_text op) ->
  Parses s (S (prec op)) rest r rest1 ->
  Loops s (prec op) (build op node r) rest1 n' rest' ->
  Loops s (prec op) node (t :: rest) n' rest'.
Proof.
  intros Ht [f1 H1] [f2 H2]. exists (S (Nat.max f1 f2)).
  rewrite loop_at_go by exact Ht.
  apply (parse_at_more_fuel s _ f1 (Nat.max f1 f2)) in H1; [|lia|discriminate].
  apply (loop_at_more_fuel s _ f2 (Nat.max f1 f2)) in H2; [|lia|discriminate].
  now rewrite (pbind_step _ _ _ _ _ H1).
Qed.

End Levels.

Section Conforming.

Variable s : string.

Lemma spelled_cons (ts : list Token) (l : lexeme) (ls : list lexeme) :
  spelled s ts (l :: ls) ->
  exists t ts', ts = t :: ts' /\ lexeme_of s t = l /\ sound s t /\ spelled s ts' ls.
Proof.
  intros [Hm Hs]. destruct ts as [|t ts']; [discriminate|].
  injection Hm as Ht Hm. inversion Hs; subst. exists t, ts'. repeat split; auto.
Qed.

Lemma spelled_nil (ts : list Token) : spelled s ts [] -> ts = [].
Proof. intros [Hm _]. now destruct ts. Qed.

Lemma spelled_app (ts : list Token) (l1 l2 : list lexeme) :
  spelled s ts (l1 ++ l2) ->
  exists t1 t2, ts = t1 ++ t2 /\ spelled s t1 l1 /\ spelled s t2 l2.
Proof.
  intros [Hm Hs]. apply map_eq_app in Hm as (t1 & t2 & -> & H1 & H2).
  apply Forall_app in Hs as [Hs1 Hs2]. exists t1, t2. repeat split; auto.
Qed.

Lemma stops_S (k : nat) (rest : list Token) : stops s k rest -> stops s (S k) rest.
Proof.
  intros [H|(t & rest' & -> & H)]; [left; lia|].
  right. exists t, rest'. split; [reflexivity|]. intros op Hop. apply H. lia.
Qed.

Lemma continues_parses (e : sexp) (k : nat) :
  k <= 3 -> continues_as s e k -> parses_as s e k.
Proof.
  intros Hk HT ts rest Hsp Hst. apply (HT Hk ts rest _ _ Hsp (stops_S _ _ Hst)).
  destruct Hst as [H|(t & rest' & -> & H)]; [lia|].
  apply Loops_stop; [exact Hk|]. intros op Hop. apply H. lia.
Qed.

Lemma parses_continues (e : sexp) (k : nat) :
  k <= 3 -> parses_as s e (S k) -> continues_as s e k.
Proof.
  intros Hk HS _ ts rest n' rest' Hsp Hst HL.
  eapply Parses_entry; [exact Hk| |exact HL]. now apply HS.
Qed.

(** A primary does not start with a sign, so [unary] hands it on. *)
Lemma primary_unary (e : sexp) :
  conforms 5 e = true -> parses_as s e 5 -> parses_as s e 4.
Proof.
  intros Hc HS ts rest Hsp _.
  destruct (HS ts rest Hsp) as [fuel H]; [left; lia|]. exists (S fuel).
  cbn [parse_at] in *. rewrite unary_S.
  assert (exists t ts' l, ts = t :: ts' /\ lexeme_of s t = l /\
                          (l = LOp "(" \/ exists n, l = LNum n)) as
      (t & ts' & l & -> & Ht & Hl).
  { destruct e as [n|a|a|a|op a b]; try destruct op; cbn in Hc, Hsp;
      try discriminate;
      apply spelled_cons in Hsp as (t & ts' & -> & Ht & _); eauto 8. }
  cbn [app]. rewrite pbind_consume by reflexivity. rewrite Ht.
  destruct Hl as [->|[n ->]]; eval_lexeme_eqb;
    rewrite pbind_consume by reflexivity; rewrite Ht; eval_lexeme_eqb; exact H.
Qed.

Lemma conforms_le (e : sexp) (j k : nat) :
  j <= k -> conforms k e = true -> conforms j e = true.
Proof.
  intros Hj. destruct e; cbn; auto;
    rewrite !andb_true_iff, !Nat.leb_le; intuition lia.
Qed.

Lemma conforms_level (e : sexp) (k : nat) :
  k <= 5 -> conforms k e = true -> k <= level e /\ conforms (level e) e = true.
Proof.
  intros Hk. destruct e; cbn; auto;
    rewrite !andb_true_iff, !Nat.leb_le; intuition lia.
Qed.

Lemma lower (e : sexp) (k : nat) :
  k <= 4 -> conforms (S k) e = true -> at_level s e (S k) -> at_level s e k.
Proof.
  intros Hk Hc [HS HT]. destruct (Nat.eq_dec k 4) as [->|Hne].
  - split; [now apply primary_unary|]. intros H; lia.
  - assert (continues_as s e k) by (apply parses_continues; [lia|exact HS]).
    split; [apply continues_parses; [lia|assumption]|assumption].
Qed.

Lemma lower_to (e : sexp) (k0 : nat) :
  k0 <= 5 -> conforms k0 e = true -> at_level s e k0 ->
  forall k, k <= k0 -> at_level s e k.
Proof.
  intros H5 Hc H0 k Hk. replace k with (k0 - (k0 - k)) by lia.
  generalize (k0 - k) as d. clear k Hk. intros d. induction d as [|d IH]; 
    [now rewrite Nat.sub_0_r|].
  destruct (Nat.le_gt_cases k0 d) as [Hle|Hgt].
  - replace (k0 - S d) with (k0 - d) by lia. exact IH.
  - apply lower; [lia| |].
    + apply (conforms_le e _ k0); [lia|exact Hc].
    + replace (S (k0 - S d)) with (k0 - d) by lia. exact IH.
Qed.

Lemma level_le_5 (e : sexp) : level e <= 5.
Proof. destruct e as [n|a|a|a|op a b]; try destruct op; cbn; lia. Qed.

Lemma close_paren_stops (t : Token) (rest : list Token) :
  lexeme_of s t = LOp ")" -> stops s 0 (t :: rest).
Proof.
  intros Ht. right. exists t, rest. split; [reflexivity|].
  intros op _. rewrite Ht. now destruct op.
Qed.

(** The parser builds, for an expression that obeys the precedence rules,
    the tree those rules give it. *)
Lemma parse_conforming (e : sexp) :
  forall k, k <= 5 -> conforms k e = true -> at_level s e k.
Proof.
  induction e as [n|a IH|a IH|a IH|op a IHa b IHb]; intros k Hk Hc;
    destruct (conforms_level _ k Hk Hc) as [Hlv Hcl];
    apply (lower_to _ _ (level_le_5 _) Hcl); try exact Hlv;
    clear k Hk Hc Hlv; cbn [level] in *.
  - (* a number *)
    split; [|intros H; lia]. intros ts rest Hsp _. cbn [flatten node_of] in *.
    apply spelled_cons in Hsp as (t & ts' & -> & Ht & Hs & Hsp).
    apply spelled_nil in Hsp as ->. exists 1. cbn [parse_at app]. rewrite primary_S.
    rewrite pbind_consume by reflexivity. rewrite Ht. eval_lexeme_eqb.
    now rewrite (pbind_expect_number s _ t rest n Ht Hs).
  - (* parentheses *)
    split; [|intros H; lia]. intros ts rest Hsp _. cbn [flatten node_of conforms] in *.
    apply spelled_cons in Hsp as (t1 & ts' & -> & Ht1 & _ & Hsp).
    apply spelled_app in Hsp as (ta & tc & -> & Hta & Htc).
    apply spelled_cons in Htc as (t2 & tn & -> & Ht2 & _ & Htn).
    apply spelled_nil in Htn as ->.
    destruct (IH 0 ltac:(lia) Hcl) as [HS _].
    destruct (HS ta (t2 :: rest) Hta (close_paren_stops t2 rest Ht2)) as [fuel H].
    exists (S (S fuel)). cbn [parse_at app] in *. rewrite primary_S.
    rewrite pbind_consume by reflexivity. rewrite Ht1. eval_lexeme_eqb.
    rewrite <- app_assoc. cbn [app]. rewrite expr_S.
    rewrite (pbind_step _ _ _ _ _ H).
    now rewrite (pbind_expect s ")" _ t2 rest Ht2).
  - (* plus sign *)
    split; [|intros H; lia]. intros ts rest Hsp _. cbn [flatten node_of conforms] in *.
    apply spelled_cons in Hsp as (t1 & ta & -> & Ht1 & _ & Hta).
    destruct (IH 5 ltac:(lia) Hcl) as [HS _].
    destruct (HS ta rest Hta ltac:(left; lia)) as [fuel H].
    exists (S fuel). cbn [parse_at app] in *. rewrite unary_S.
    rewrite pbind_consume by reflexivity. rewrite Ht1. eval_lexeme_eqb. exact H.
  - (* minus sign *)
    split; [|intros H; lia]. intros ts rest Hsp _. cbn [flatten node_of conforms] in *.
    apply spelled_cons in Hsp as (t1 & ta & -> & Ht1 & _ & Hta).
    destruct (IH 5 ltac:(lia) Hcl) as [HS _].
    destruct (HS ta rest Hta ltac:(left; lia)) as [fuel H].
    exists (S fuel). cbn [parse_at app] in *. rewrite unary_S.
    rewrite pbind_consume by reflexivity. rewrite Ht1. eval_lexeme_eqb.
    rewrite pbind_consume by reflexivity. rewrite Ht1. eval_lexeme_eqb.
    now rewrite (pbind_step _ _ _ _ _ H).
  - (* a binary operator *)
    cbn [conforms] in Hcl. rewrite !andb_true_iff in Hcl. destruct Hcl as [[_ Hca] Hcb].
    assert (Hp : prec op <= 3) by (destruct op; cbn; lia).
    assert (HT : continues_as s (SBin op a b) (prec op)).
    { intros _ ts rest n' rest' Hsp Hst HL. cbn [flatten node_of] in *.
      apply spelled_app in Hsp as (ta & tb & -> & Hta & Htb).
      apply spelled_cons in Htb as (top & tb' & -> & Htop & _ & Htb).
      destruct (IHa (prec op) ltac:(lia) Hca) as [_ HTa].
      destruct (IHb (S (prec op)) ltac:(lia) Hcb) as [HSb _].
      rewrite <- app_assoc. cbn [app]. apply (HTa Hp); [exact Hta| |].
      - right. exists top, (tb' ++ rest). split; [reflexivity|].
        intros op' Hop' E. rewrite Htop in E. injection E as E.
        apply op_text_inj in E. subst op'. lia.
      - eapply Loops_go; [exact Htop| |exact HL]. now apply HSb. }
    split; [now apply continues_parses|exact HT].
Qed.

End Conforming.

(** ** The pipeline on an expression *)

Lemma lexemes_split (input : string) (ls rest : list lexeme) :
  lexemes input = Some (ls ++ rest) ->
  exists ts tr,
    tokenize input = Ok (ts ++ tr) /\
    spelled input ts ls /\ map (lexeme_of input) tr = rest.
Proof.
  unfold lexemes. destruct (tokenize input) as [token| | |] eqn:E; try discriminate.
  intros [= H]. apply map_eq_app in H as (ts & tr & -> & H1 & H2).
  exists ts, tr. repeat split; auto.
  apply tokenize_sound in E. now apply Forall_app in E as [E _].
Qed.

Lemma is_binop_stops (input : string) (t : Token) (rest : list Token) :
  is_binop (lexeme_of input t) = false -> stops input 0 (t :: rest).
Proof.
  intros H. right. exists t, rest. split; [reflexivity|].
  intros op _ E. rewrite E in H. now destruct op.
Qed.

(** The parser on the tokens of a conforming expression followed by a
    token that is not a binary operator. *)
Lemma parse_expression (input : string) (e : sexp) (ts : list Token) (t : Token)
      (rest : list Token) :
  tokenize input = Ok (ts ++ t :: rest) ->
  spelled input ts (flatten e) -> conforms 0 e = true ->
  is_binop (lexeme_of input t) = false ->
  parse_string input = Ok (node_of e, t :: rest).
Proof.
  intros Htok Hsp Hc Ht. unfold parse_string. rewrite Htok. cbn [bind].
  destruct (parse_conforming input e 0 ltac:(lia) Hc) as [HS _].
  destruct (HS ts (t :: rest) Hsp (is_binop_stops input t rest Ht)) as [fuel H].
  cbn [parse_at] in H. apply (expr_fuel_enough input (S fuel)); [|discriminate].
  now rewrite expr_S.
Qed.

(** What the driver prints once the parser has returned a tree. *)
Lemma main_parsed (arg0 input : string) (node : Node) (rest : list Token) :
  parse_string input = Ok (node, rest) ->
  exists body,
    gen node = Ok body /\
    main [arg0; input] =
    {| stdout := [Globl "main"; Label "main"] ++ body ++ [LdrPost X0; Ret];
       stderr := None;
       status := Exited 0 |}.
Proof.
  unfold parse_string, main. destruct (tokenize input) as [token| | |]; try discriminate.
  cbn [bind]. intros H. rewrite H.
  apply (parser_ast_ok input (expr_fuel token)) in H.
  destruct (gen_correct node H) as (body & E & _). exists body. now rewrite E.
Qed.

(** The value of the tree built for an expression is the value of the
    expression, when the literals fit an [int] and the values a
    register. *)
Lemma value64_node_of (e : sexp) :
  forall k v,
    conforms k e = true -> fits e = true -> seval e = Some v ->
    value64 (node_of e) = v.
Proof.
  induction e as [n|a IH|a IH|a IH|op a IHa b IHb]; intros k v Hc Hf Hv;
    cbn [conforms fits seval node_of] in *.
  - injection Hv as <-. apply Z.leb_le in Hc, Hf.
    cbn. rewrite literal_small by lia. apply sx64_small. unfold INT_MAX in Hf. lia.
  - eauto.
  - apply andb_prop in Hc as [_ Hc]. eauto.
  - apply andb_prop in Hc as [_ Hc]. apply andb_prop in Hf as [Hf Hl].
    destruct (seval a) as [x|]; [|discriminate]. injection Hv as <-.
    cbn -[sx64] in Hl |- *. rewrite (IH 5 x Hc Hf eq_refl).
    unfold in_long, LONG_MAX in Hl. apply andb_prop in Hl as [H1 H2].
    apply Z.leb_le in H1, H2. rewrite (sx64_small 0) by lia. apply sx64_small. lia.
  - rewrite !andb_true_iff in Hc, Hf. destruct Hc as [[_ Hca] Hcb].
    destruct Hf as [[Hfa Hfb] Hl].
    destruct (seval a) as [x|]; [|discriminate].
    destruct (seval b) as [y|]; [|discriminate].
    specialize (IHa _ x Hca Hfa eq_refl). specialize (IHb _ y Hcb Hfb eq_refl).
    rewrite Hv in Hl. unfold in_long, LONG_MAX in Hl. apply andb_prop in Hl as [H1 H2].
    apply Z.leb_le in H1, H2.
    destruct op; cbn in Hv |- *; rewrite IHa, IHb; cbn;
      try (injection Hv as <-);
      try (apply sx64_small; lia);
      unfold of_bool;
      rewrite ?Z.gtb_ltb, ?Z.geb_leb;
      try match goal with
          | |- context [(?p =? ?q)%Z] => now destruct (p =? q)%Z
          | |- context [(?p <? ?q)%Z] => now destruct (p <? q)%Z
          | |- context [(?p <=? ?q)%Z] => now destruct (p <=? q)%Z
          end.
    unfold sdiv. destruct (y =? 0)%Z; [discriminate|]. injection Hv as <-.
    apply sx64_small. lia.
Qed.

(** ** The assembler *)

Lemma mov_imm_16 (n : Z) : (0 <= n < 2 ^ 16)%Z -> mov_imm n = true.
Proof.
  intros H. unfold mov_imm.
  assert (E : (n mod 2 ^ 64 = n)%Z) by (apply Z.mod_small; lia). rewrite E.
  assert (R : ((- 2 ^ 63 <=? n) && (n <? 2 ^ 64))%Z = true).
  { apply andb_true_intro. split; [apply Z.leb_le|apply Z.ltb_lt]; lia. }
  rewrite R. cbn [andb]. apply orb_true_intro. left. apply orb_true_intro. left.
  unfold wide_imm. cbn [existsb]. apply orb_true_intro. left.
  apply Z.eqb_eq. rewrite Z.pow_0_r, Z.div_1_r, Z.mul_1_r.
  symmetry. apply Z.mod_small. lia.
Qed.

(** Where the assembler accepts every line, the call on the target has
    the effect of the lines. *)
Lemma target_call_effect (prog : list instr) (m : machine) :
  forallb assembled prog = true -> target_call prog m = call prog m.
Proof.
  revert m. induction prog as [|i prog IH]; intros m H; [reflexivity|].
  cbn [forallb] in H. apply andb_prop in H as [Hi H].
  cbn [target_call call]. unfold exec_instr. rewrite Hi.
  destruct i; try reflexivity; (destruct (effect _ m); [now apply IH|reflexivity]).
Qed.

(** A line the assembler refuses, before any [ret], leaves no program. *)
Lemma target_call_refused (a b : list instr) (m : machine) :
  Forall (fun i => i <> Ret) a -> forallb assembled a = false ->
  target_call (a ++ b) m = None.
Proof.
  intros Ha. revert m. induction Ha as [|i a Hi Ha IH]; intros m H; [discriminate|].
  cbn [forallb] in H. cbn [app target_call]. unfold exec_instr.
  destruct (assembled i) eqn:Ei.
  - cbn [andb] in H. destruct i; try contradiction;
      (destruct (effect _ m); [now apply IH|reflexivity]).
  - now destruct i.
Qed.

(** The assembler accepts the lines of [gen] when it accepts the numbers
    of the tree, and only then. *)
Lemma gen_assembled (node : Node) :
  forall code, gen node = Ok code -> forallb assembled code = loads node.
Proof.
  induction node as [k lhs IHl rhs IHr v]. cbn [gen loads]. intros code.
  destruct (NodeKind_eqb k ND_NUM).
  - intros [= <-]. cbn. now rewrite andb_true_r.
  - destruct IHl as [l IHl|]; [|discriminate].
    destruct (gen l) as [cl| | |]; try discriminate. cbn [bind].
    destruct IHr as [r IHr|]; [|discriminate].
    destruct (gen r) as [cr| | |]; try discriminate. cbn [bind].
    intros [= <-]. rewrite !forallb_app, (IHl _ eq_refl), (IHr _ eq_refl).
    destruct k; cbn; now rewrite !andb_true_r.
Qed.

Lemma target_call_main (node : Node) (code : list instr) (m : machine) :
  ast_ok node = true -> gen node = Ok code ->
  target_call ([Globl "main"; Label "main"] ++ code ++ [LdrPost X0; Ret]) m =
  if loads node then Some (value64 node, stack m) else None.
Proof.
  intros Hok Hgen. pose proof (gen_assembled node code Hgen) as Ha.
  destruct (loads node).
  - rewrite target_call_effect; [now apply call_main|].
    rewrite !forallb_app, Ha. reflexivity.
  - rewrite app_assoc. apply target_call_refused.
    + apply Forall_app. split; [repeat constructor; discriminate|].
      now apply (gen_no_ret node).
    + rewrite forallb_app, Ha. reflexivity.
Qed.

Lemma loads_node_of (e : sexp) : loads (node_of e) = loadable e.
Proof.
  assert (Z0 : mov_imm 0 = true) by (vm_compute; reflexivity).
  induction e as [n|a IH|a IH|a IH|op a IHa b IHb]; cbn [node_of loadable].
  - reflexivity.
  - exact IH.
  - exact IH.
  - cbn [loads NodeKind_eqb]. now rewrite Z0, IH.
  - unfold build. destruct (swaps op); destruct op; cbn [loads NodeKind_eqb node_kind];
      rewrite IHa, IHb; auto using andb_comm.
Qed.

(** C1. For every input that spells an expression obeying the precedence
    and associativity rules, in which every literal is at most 2147483647
    and an immediate the assembler accepts in a [mov] (every literal up to
    65535 is one), no divisor is zero and the value of every subexpression
    fits a 64-bit register, the program succeeds, the assembler accepts
    what it prints, and the function printed returns the value of the
    expression over the integers (division truncating, comparisons 0 or
    1), leaving the stack as it found it. So "1+2*3" returns 7, "(1+2)*3"
    9, "10/3" 3, "1==1" 1, "1!=1" 0 and "-5+3" -2. *)
Theorem compiled_code_returns_value :
  (forall (input : string) (e : sexp) (v : Z),
      lexemes input = Some (flatten e ++ [LEof]) ->
      conforms 0 e = true ->
      fits e = true ->
      loadable e = true ->
      seval e = Some v ->
      exists code,
        (forall arg0,
            main [arg0; input] =
            {| stdout := code; stderr := None; status := Exited 0 |}) /\
        forallb assembled code = true /\
        (forall m, target_call code m = Some (v, stack m))) /\
  (forall n : Z, (0 <= n <= 65535)%Z -> loadable (SNum n) = true) /\
  returns "1+2*3" = Some 7%Z /\
  returns "(1+2)*3" = Some 9%Z /\
  returns "10/3" = Some 3%Z /\
  returns "1==1" = Some 1%Z /\
  returns "1!=1" = Some 0%Z /\
  returns "-5+3" = Some (-2)%Z.
Proof.
  split; [|split; [|repeat split; vm_compute; reflexivity]].
  - intros input e v Hlex Hc Hf Hl Hv.
    apply lexemes_split in Hlex as (ts & tr & Htok & Hsp & Htr).
    destruct tr as [|t [|t' tr]]; try discriminate. injection Htr as Ht.
    assert (Hp : parse_string input = Ok (node_of e, [t])).
    { apply (parse_expression input e ts t []); auto. now rewrite Ht. }
    assert (Hok : ast_ok (node_of e) = true).
    { unfold parse_string in Hp. rewrite Htok in Hp.
      apply (parser_ast_ok input _) in Hp. exact Hp. }
    destruct (main_parsed "" input _ _ Hp) as (body & Hgen & _).
    assert (Hn : loads (node_of e) = true) by now rewrite loads_node_of.
    exists ([Globl "main"; Label "main"] ++ body ++ [LdrPost X0; Ret]).
    split; [|split].
    + intros arg0. destruct (main_parsed arg0 input _ _ Hp) as (body' & Hgen' & Hm).
      rewrite Hgen in Hgen'. injection Hgen' as <-. exact Hm.
    + rewrite !forallb_app, (gen_assembled _ _ Hgen), Hn. reflexivity.
    + intros m. rewrite (target_call_main (node_of e) body m Hok Hgen), Hn.
      now rewrite (value64_node_of e 0 v Hc Hf Hv).
  - intros n Hn. cbn [loadable]. rewrite literal_small by (unfold INT_MAX; lia).
    apply mov_imm_16. lia.
Qed.

Lemma compiled_code_returns_value_witness :
  exists code,
    (forall arg0,
        main [arg0; "1+2*3"] =
        {| stdout := code; stderr := None; status := Exited 0 |}) /\
    forallb assembled code = true /\
    (forall m, target_call code m = Some (7%Z, stack m)).
Proof.
  apply (proj1 compiled_code_returns_value "1+2*3"
           (SBin OAdd (SNum 1) (SBin OMul (SNum 2) (SNum 3))) 7%Z);
    vm_compute; reflexivity.
Defined.

(** The input "2147483648" is the literal 2147483648, yet the program
    returns -2147483648. *)
Lemma big_literal_returns_negative :
  lexemes "2147483648" = Some (flatten (SNum 2147483648) ++ [LEof]) /\
  conforms 0 (SNum 2147483648) = true /\
  seval (SNum 2147483648) = Some 2147483648%Z /\
  returns "2147483648" = Some (-2147483648)%Z.
Proof. repeat split; vm_compute; reflexivity. Qed.

(** C2. When [expr] returns with tokens left before the end-of-input
    token, the driver does not look at them: the program ends with status
    0 and prints the code of the tree [expr] returned, and nothing else.
    In terms of the grammar: an expression obeying the precedence rules,
    followed by further tokens of which the first is not a binary
    operator, is compiled as if it stood alone. *)
Theorem trailing_tokens_accepted :
  (forall (arg0 input : string) (token : list Token) (fuel : nat) (node : Node)
          (rest : list Token),
      tokenize input = Ok token ->
      expr input fuel token = Ok (node, rest) ->
      at_eof rest = Ok (false, rest) ->
      exists body,
        gen node = Ok body /\
        main [arg0; input] =
        {| stdout := [Globl "main"; Label "main"] ++ body ++ [LdrPost X0; Ret];
           stderr := None;
           status := Exited 0 |}) /\
  (forall (arg0 input : string) (e : sexp) (l : lexeme) (more : list lexeme),
      lexemes input = Some (flatten e ++ l :: more ++ [LEof]) ->
      conforms 0 e = true ->
      is_binop l = false ->
      exists body,
        gen (node_of e) = Ok body /\
        main [arg0; input] =
        {| stdout := [Globl "main"; Label "main"] ++ body ++ [LdrPost X0; Ret];
           stderr := None;
           status := Exited 0 |}).
Proof.
  split.
  - intros arg0 input token fuel node rest Htok Hexpr _.
    apply (main_parsed arg0 input node rest). unfold parse_string. rewrite Htok.
    cbn [bind]. apply (expr_fuel_enough input fuel); [exact Hexpr|discriminate].
  - intros arg0 input e l more Hlex Hc Hl.
    apply lexemes_split in Hlex as (ts & tr & Htok & Hsp & Htr).
    destruct tr as [|t tr]; [discriminate|]. injection Htr as Ht Htr.
    apply (main_parsed arg0 input (node_of e) (t :: tr)).
    apply (parse_expression input e ts t tr); auto. now rewrite Ht.
Qed.

Lemma trailing_tokens_accepted_witness :
  exists body,
    gen (new_num 1) = Ok body /\
    main ["9cc"; "1 2"] =
    {| stdout := [Globl "main"; Label "main"] ++ body ++ [LdrPost X0; Ret];
       stderr := None;
       status := Exited 0 |}.
Proof.
  apply (proj1 trailing_tokens_accepted "9cc" "1 2"
           [mkToken TK_NUM 1 0 1; mkToken TK_NUM 2 2 1; mkToken TK_EOF 0 3 0]
           20 (new_num 1) [mkToken TK_NUM 2 2 1; mkToken TK_EOF 0 3 0]);
    reflexivity.
Defined.

(** C4. With [a] and [b] operands of a comparison, the parser builds for
    "a > b" the node of kind [ND_LT] whose [lhs] is the tree of [b] and
    whose [rhs] is the tree of [a], the tree it builds for "b < a"; and for
    "a >= b" the node of kind [ND_LE] likewise, the tree of "b <= a". The
    trees are given by the fields of their nodes ([node_of]). A node has
    one of the nine kinds, none of them greater-than or
    greater-or-equal. *)
Theorem greater_than_parsed_as_less_than :
  (forall (input : string) (a b : sexp),
      conforms 1 a = true -> conforms 2 b = true ->
      (lexemes input = Some (flatten a ++ LOp ">" :: flatten b ++ [LEof]) ->
       exists eof,
         parse_string input =
         Ok (Node.mk ND_LT (Some (node_of b)) (Some (node_of a)) 0, [eof])) /\
      (lexemes input = Some (flatten a ++ LOp ">=" :: flatten b ++ [LEof]) ->
       exists eof,
         parse_string input =
         Ok (Node.mk ND_LE (Some (node_of b)) (Some (node_of a)) 0, [eof]))) /\
  (forall (input : string) (a b : sexp),
      conforms 2 a = true -> conforms 1 b = true ->
      (lexemes input = Some (flatten b ++ LOp "<" :: flatten a ++ [LEof]) ->
       exists eof,
         parse_string input =
         Ok (Node.mk ND_LT (Some (node_of b)) (Some (node_of a)) 0, [eof])) /\
      (lexemes input = Some (flatten b ++ LOp "<=" :: flatten a ++ [LEof]) ->
       exists eof,
         parse_string input =
         Ok (Node.mk ND_LE (Some (node_of b)) (Some (node_of a)) 0, [eof]))) /\
  (forall k : NodeKind,
      In k [ND_ADD; ND_SUB; ND_MUL; ND_DIV; ND_EQ; ND_NE; ND_LT; ND_LE; ND_NUM]).
Proof.
  assert (P : forall input e,
             conforms 0 e = true ->
             lexemes input = Some (flatten e ++ [LEof]) ->
             exists eof, parse_string input = Ok (node_of e, [eof])).
  { intros input e Hc Hlex.
    apply lexemes_split in Hlex as (ts & tr & Htok & Hsp & Htr).
    destruct tr as [|t [|t' tr]]; try discriminate. injection Htr as Ht.
    exists t. apply (parse_expression input e ts t []); auto. now rewrite Ht. }
  split; [|split].
  - intros input a b Ha Hb. split; intros Hlex.
    + apply (P input (SBin OGt a b)); [cbn; now rewrite Ha, Hb|].
      cbn [flatten op_text]. now rewrite <- app_assoc.
    + apply (P input (SBin OGe a b)); [cbn; now rewrite Ha, Hb|].
      cbn [flatten op_text]. now rewrite <- app_assoc.
  - intros input a b Ha Hb. split; intros Hlex.
    + apply (P input (SBin OLt b a)); [cbn; now rewrite Ha, Hb|].
      cbn [flatten op_text]. now rewrite <- app_assoc.
    + apply (P input (SBin OLe b a)); [cbn; now rewrite Ha, Hb|].
      cbn [flatten op_text]. now rewrite <- app_assoc.
  - intros k. destruct k; cbn; auto 10.
Qed.

Lemma greater_than_parsed_as_less_than_witness :
  exists eof,
    parse_string "1+2 > 3" =
    Ok (Node.mk ND_LT (Some (Node.mk ND_NUM None None 3))
          (Some (Node.mk ND_ADD (Some (Node.mk ND_NUM None None 1))
                   (Some (Node.mk ND_NUM None None 2)) 0)) 0, [eof]).
Proof.
  apply (proj1 (proj1 greater_than_parsed_as_less_than "1+2 > 3"
                  (SBin OAdd (SNum 1) (SNum 2)) (SNum 3) eq_refl eq_refl)).
  vm_compute. reflexivity.
Defined.

(** C7. Every tree the parser returns has only [ND_NUM] nodes as leaves and
    two children under every other node. A unary plus leaves the tree of
    its operand as it is. A unary minus before [x] gives the node of kind
    [ND_SUB] whose [lhs] is a [ND_NUM] node without children and with the
    value 0 and whose [rhs] is the tree of [x]; that node is well formed
    when the tree of [x] is. In terms of the grammar: a minus sign before
    a primary [a] is parsed to that node over the tree of [a]. *)
Theorem parser_trees_well_formed (user_input : string) :
  (forall fuel token node token',
      expr user_input fuel token = Ok (node, token') -> ast_ok node = true) /\
  (forall fuel t next,
      kind t = TK_RESERVED -> text user_input t = list_ascii_of_string "+" ->
      unary user_input (S fuel) (t :: next) = primary user_input fuel next) /\
  (forall fuel t next,
      kind t = TK_RESERVED -> text user_input t = list_ascii_of_string "-" ->
      unary user_input (S fuel) (t :: next) =
      pbind (primary user_input fuel)
            (fun x =>
               ret (Node.mk ND_SUB (Some (Node.mk ND_NUM None None 0)) (Some x) 0))
            next) /\
  (forall fuel t next x rest,
      kind t = TK_RESERVED -> text user_input t = list_ascii_of_string "-" ->
      primary user_input fuel next = Ok (x, rest) ->
      unary user_input (S fuel) (t :: next) =
      Ok (Node.mk ND_SUB (Some (Node.mk ND_NUM None None 0)) (Some x) 0, rest) /\
      ast_ok (Node.mk ND_SUB (Some (Node.mk ND_NUM None None 0)) (Some x) 0) =
      ast_ok x) /\
  (forall a : sexp,
      conforms 5 a = true ->
      lexemes user_input = Some (LOp "-" :: flatten a ++ [LEof]) ->
      exists eof,
        parse_string user_input =
        Ok (Node.mk ND_SUB (Some (Node.mk ND_NUM None None 0)) (Some (node_of a)) 0,
            [eof])).
Proof.
  assert (Minus : forall fuel t next,
             kind t = TK_RESERVED -> text user_input t = list_ascii_of_string "-" ->
             unary user_input (S fuel) (t :: next) =
             pbind (primary user_input fuel)
                   (fun x =>
                      ret (Node.mk ND_SUB (Some (Node.mk ND_NUM None None 0))
                             (Some x) 0))
                   next).
  { intros fuel t next Hk Ht. rewrite unary_S.
    assert (Hp : consume user_input "+" (t :: next) = Ok (false, t :: next))
      by (apply consume_false; rewrite Ht; discriminate).
    rewrite (pbind_step _ _ _ _ _ Hp).
    assert (Hc : consume user_input "-" (t :: next) = Ok (true, next))
      by (apply consume_true; auto).
    now rewrite (pbind_step _ _ _ _ _ Hc). }
  split; [|split; [|split; [|split]]].
  - intros fuel. apply (parser_ast_ok user_input fuel).
  - intros fuel t next Hk Ht. rewrite unary_S.
    assert (Hc : consume user_input "+" (t :: next) = Ok (true, next))
      by (apply consume_true; auto).
    now rewrite (pbind_step _ _ _ _ _ Hc).
  - exact Minus.
  - intros fuel t next x rest Hk Ht Hx. split; [|reflexivity].
    rewrite (Minus fuel t next Hk Ht). now rewrite (pbind_step _ _ _ _ _ Hx).
  - intros a Hc Hlex.
    assert (Hc0 : conforms 0 (SNeg a) = true) by (cbn; exact Hc).
    change (LOp "-" :: flatten a ++ [LEof]) with (flatten (SNeg a) ++ [LEof]) in Hlex.
    apply lexemes_split in Hlex as (ts & tr & Htok & Hsp & Htr).
    destruct tr as [|t [|t' tr]]; try discriminate. injection Htr as Ht.
    exists t. apply (parse_expression user_input (SNeg a) ts t []); auto.
    now rewrite Ht.
Qed.

Lemma parser_trees_well_formed_witness :
  ast_ok (Node.mk ND_SUB (Some (Node.mk ND_NUM None None 0))
            (Some (Node.mk ND_NUM None None 5)) 0) = true.
Proof.
  refine (proj1 (parser_trees_well_formed "-5") 20
            [mkToken TK_RESERVED 0 0 1; mkToken TK_NUM 5 1 1; mkToken TK_EOF 0 2 0]
            _ [mkToken TK_EOF 0 2 0] _).
  reflexivity.
Defined.

(** ** Runs of the program *)

(** The listing for "1*2", byte for byte. *)
Example listing_1_times_2 :
  render_all (stdout (main ["9cc"; "1*2"])) =
  (".globl main" ++ nl ++
   "main:" ++ nl ++
   "  mov x2, #1" ++ nl ++
   "  str x2, [sp, -16]!" ++ nl ++
   "  mov x2, #2" ++ nl ++
   "  str x2, [sp, -16]!" ++ nl ++
   "  ldr x1, [sp], 16" ++ nl ++
   "  ldr x0, [sp], 16" ++ nl ++
   " mul x0, x0, x1" ++ nl ++
   "  str x0, [sp, -16]!" ++ nl ++
   "  ldr x0, [sp], 16" ++ nl ++
   "  ret" ++ nl)%string.
Proof. vm_compute. reflexivity. Qed.

Example lone_number : returns "42" = Some 42%Z.
Proof. vm_compute. reflexivity. Qed.

(** Operators of one strength associate to the left. *)
Example left_to_right :
  returns "7-2-1" = Some 4%Z /\ returns "16/4/2" = Some 2%Z /\
  returns "3>2>1" = Some 0%Z /\ returns "1==2==0" = Some 1%Z.
Proof. repeat split; vm_compute; reflexivity. Qed.

(** Division rounds towards zero. *)
Example division_truncates :
  returns "-7/2" = Some (-3)%Z /\ returns "7/(0-2)" = Some (-3)%Z.
Proof. split; vm_compute; reflexivity. Qed.

(** No token but the end of input: a number is missing at offset 0. *)
Example empty_input :
  main ["9cc"; ""] = die (ErrorAt 0 "数ではありません" None).
Proof. reflexivity. Qed.

(** "1+": a number is missing just past the [+]. *)
Example missing_operand :
  main ["9cc"; "1+"] = die (ErrorAt 2 "数ではありません" None) /\
  index_of "^" (caret_line 2) = Some 2.
Proof. split; reflexivity. Qed.

Example missing_parenthesis :
  main ["9cc"; "(1"] = die (ErrorAt 2 "'%c'ではありません" (Some ")")).
Proof. reflexivity. Qed.

(** A lone [=] begins no token. *)
Example lone_equals_sign :
  tokenize "1=2" = Exit1 (ErrorAt 1 cannot_tokenize None) /\
  begins_no_token "1=2" 1 = true.
Proof. split; reflexivity. Qed.

Example wrong_argument_count :
  main ["9cc"] = die (Error "%s: invalid number of arguments" "9cc") /\
  stderr_text "" "000" (Error "%s: invalid number of arguments" "9cc") =
  ("9cc: invalid number of arguments" ++ nl)%string.
Proof. split; reflexivity. Qed.

(** The input "65537" is compiled to [mov x2, #65537]. No [mov] has that
    immediate, so the assembler refuses the line and there is no program
    to run; the input "65536" is compiled and returns 65536. *)
Example wide_literal_not_assembled :
  main ["9cc"; "65537"] =
  {| stdout := [Globl "main"; Label "main"; MovImm X2 65537; StrPre X2;
                LdrPost X0; Ret];
     stderr := None;
     status := Exited 0 |} /\
  mov_imm 65537 = false /\
  returns "65537" = None /\
  returns "65536" = Some 65536%Z.
Proof. repeat split; vm_compute; reflexivity. Qed.

(** What the machine does where the integers and the registers part: a
    zero divisor gives 0, and a product too large for 64 bits wraps. *)
Example unchecked_arithmetic :
  returns "1/0" = Some 0%Z /\
  returns "2147483647*2147483647*2147483647" = Some 4611686024869838847%Z /\
  seval (SBin OMul (SBin OMul (SNum 2147483647) (SNum 2147483647)) (SNum 2147483647)) =
    Some 9903520300447984150353281023%Z.
Proof. repeat split; vm_compute; reflexivity. Qed.

(** * Further properties *)

(** ** The tokens and the input *)

Lemma c_str_loads (m : list ascii) : c_str m = map (load m) (seq 0 (strlen m)).
Proof.
  apply nth_ext with (d := NUL) (d' := NUL).
  - now rewrite length_map, length_seq.
  - intros i Hi. fold (strlen m) in Hi. rewrite nth_map_seq by exact Hi.
    symmetry. now apply load_c_str.
Qed.

Lemma c_int_range (z : Z) : (- 2 ^ 31 <= c_int z <= INT_MAX)%Z.
Proof. unfold c_int, INT_MAX. Z.div_mod_to_equations. lia. Qed.

Section TokenText.

Variable s : string.

Let input_length : nat := strlen (mem s).

Lemma token_at_text (p p' : nat) (t : Token) :
  token_at s p = Some t -> advance s p = Some p' ->
  text s t = map (deref s) (seq p (p' - p)) /\
  forallb nonblank (text s t) = true.
Proof.
  intros Ht Ha. destruct (token_at_str s p t Ht) as [Hstr _].
  destruct (token_at_span s p p' t Ht Ha) as [_ Hspan].
  assert (E : text s t = map (deref s) (seq p (len t))) by (unfold text; now rewrite Hstr).
  split; [rewrite E; do 2 f_equal; lia|]. rewrite E. clear E Hspan Ha.
  unfold token_at in Ht.
  destruct (Ascii.eqb (deref s p) NUL); [injection Ht as <-; reflexivity|].
  destruct (isspace (deref s p)) eqn:Es; [discriminate|].
  destruct (op2_at s p) eqn:E2.
  { injection Ht as <-. cbn. unfold nonblank. rewrite Es. cbn.
    unfold op2_at in E2. rewrite !orb_true_iff, !startswith_spec in E2.
    assert (exists q, (forall i, i < 2 -> deref s (p + i) = load (list_ascii_of_string q) i) /\
                      (q = "==" \/ q = "!=" \/ q = "<=" \/ q = ">="))%string
      as (q & Hq & Hin).
    { destruct E2 as [[[H|H]|H]|H]; eexists; (split; [exact H|]); auto. }
    replace (S p) with (p + 1) by lia. rewrite (Hq 1) by lia.
    now destruct Hin as [-> | [-> | [-> | ->]]]. }
  destruct (not_null _).
  { injection Ht as <-. cbn. unfold nonblank. now rewrite Es. }
  destruct (isdigit (deref s p)); [|discriminate]. injection Ht as <-. cbn [len].
  apply forallb_forall. intros c Hc. apply in_map_iff in Hc as (i & <- & Hi).
  apply in_seq in Hi. unfold nonblank. rewrite isdigit_not_space; [reflexivity|].
  destruct (digit_run_view s p) as [Hd _]. replace i with (p + (i - p)) by lia.
  apply Hd. cbn [snd strtol] in *. unfold strtol in Hi. cbn [snd] in Hi. lia.
Qed.

Lemma filter_all {A : Type} (f : A -> bool) (l : list A) :
  forallb f l = true -> filter f l = l.
Proof.
  induction l as [|x l IH]; [reflexivity|]. cbn. intros H.
  apply andb_prop in H as [-> H]. now rewrite IH.
Qed.

(** From a scan position on, the texts of the tokens linked are the bytes
    left of the input, the blanks dropped. *)
Lemma tokenize_loop_texts (fuel : nat) :
  forall p cur out,
    p <= input_length ->
    tokenize_loop s fuel p cur = Ok out ->
    exists ts,
      out = cur ++ ts /\
      List.concat (map (text s) ts) =
      filter nonblank (map (deref s) (seq p (input_length - p))).
Proof.
  induction fuel as [|fuel IH]; intros p cur out Hp; [discriminate|].
  rewrite tokenize_loop_turn. destruct (advance s p) as [p'|] eqn:Ea.
  - destruct (advance_bounds s p p' Hp Ea) as [Hlt Hle]. intros H.
    apply IH in H as (ts & -> & Hts); [|exact Hle].
    assert (Hseq : seq p (input_length - p) =
                   seq p (p' - p) ++ seq p' (input_length - p')).
    { replace (input_length - p) with ((p' - p) + (input_length - p')) by lia.
      rewrite seq_app. do 2 f_equal. lia. }
    rewrite Hseq, map_app, filter_app, <- Hts.
    destruct (token_at s p) as [t|] eqn:Et.
    + exists (t :: ts). rewrite <- app_assoc. split; [reflexivity|].
      destruct (token_at_text p p' t Et Ea) as [E Hnb].
      cbn [map List.concat]. f_equal. rewrite <- E. symmetry. now apply filter_all.
    + exists ts. rewrite app_nil_r. split; [reflexivity|].
      assert (Hsp : isspace (deref s p) = true /\ p' = p + 1).
      { unfold token_at in Et. unfold advance in Ea. fold (op2_at s p) in Ea.
        destruct (Ascii.eqb _ _); [discriminate|].
        destruct (isspace _); [now injection Ea as <-|].
        destruct (op2_at s p); [discriminate|].
        destruct (not_null _); [discriminate|].
        destruct (isdigit _); discriminate. }
      destruct Hsp as [Hsp ->]. replace (p + 1 - p) with 1 by lia.
      cbn. unfold nonblank. now rewrite Hsp.
  - destruct (Ascii.eqb (deref s p) NUL) eqn:E0; [|discriminate].
    intros [= <-]. apply Ascii.eqb_eq in E0. apply load_NUL_strlen in E0; [|exact Hp].
    fold input_length in E0. exists [mkToken TK_EOF 0 p 0]. split; [reflexivity|].
    rewrite <- E0, Nat.sub_diag. reflexivity.
Qed.

End TokenText.

(** X1. The tokens lose nothing of the input but the white space: the
    texts of the tokens [tokenize] returns, one after the other, are the
    bytes of the input with the white space taken out. *)
Theorem tokens_spell_the_input (user_input : string) (out : list Token) :
  tokenize user_input = Ok out ->
  List.concat (map (text user_input) out) =
  filter nonblank (c_str (list_ascii_of_string user_input)).
Proof.
  intros H. unfold tokenize in H.
  apply tokenize_loop_texts in H as (ts & -> & Hts); [|lia].
  cbn [app]. rewrite Hts, Nat.sub_0_r. f_equal. symmetry. apply c_str_loads.
Qed.

Lemma tokens_spell_the_input_witness :
  List.concat (map (text " 12 <=3")
            [mkToken TK_NUM 12 1 2; mkToken TK_RESERVED 0 4 2; mkToken TK_NUM 3 6 1;
             mkToken TK_EOF 0 7 0]) =
  filter nonblank (c_str (list_ascii_of_string " 12 <=3")).
Proof. apply tokens_spell_the_input. reflexivity. Defined.

Lemma token_at_shape (s : string) (p : nat) (t : Token) :
  p <= strlen (mem s) -> token_at s p = Some t -> token_shape s t.
Proof.
  intros Hp Ht. pose proof (token_at_sound s p t Ht) as Hsound.
  unfold token_at in Ht. unfold token_shape.
  destruct (Ascii.eqb (deref s p) NUL) eqn:E0.
  { injection Ht as <-. cbn. apply Ascii.eqb_eq in E0.
    apply load_NUL_strlen in E0; auto. }
  apply eqb_NUL_false in E0.
  destruct (isspace (deref s p)); [discriminate|].
  destruct (op2_at s p) eqn:E2.
  { injection Ht as <-. cbn. split; [|reflexivity].
    unfold op2_at in E2. rewrite !orb_true_iff, !startswith_spec in E2.
    assert (exists q, (forall i, i < 2 -> deref s (p + i) = load (list_ascii_of_string q) i) /\
                      (q = "==" \/ q = "!=" \/ q = "<=" \/ q = ">="))%string
      as (q & Hq & Hin).
    { destruct E2 as [[[H|H]|H]|H]; eexists; (split; [exact H|]); auto. }
    pose proof (Hq 0 ltac:(lia)) as H0. pose proof (Hq 1 ltac:(lia)) as H1.
    rewrite Nat.add_0_r in H0. replace (p + 1) with (S p) in H1 by lia.
    rewrite H0, H1. destruct Hin as [-> | [-> | [-> | ->]]]; cbn; auto. }
  destruct (not_null _) eqn:E1.
  { injection Ht as <-. cbn. split; [|reflexivity].
    rewrite (strchr_ops _ E0) in E1. apply existsb_exists in E1 as (x & Hx & E).
    apply Ascii.eqb_eq in E. rewrite E.
    cbn in Hx. repeat destruct Hx as [<-|Hx]; cbn; auto 15. }
  destruct (isdigit (deref s p)) eqn:Ed; [|discriminate]. injection Ht as <-.
  cbn [kind len val] in *. specialize (Hsound eq_refl).
  destruct (digit_run_view s p) as [Hd He].
  destruct (run_text s p _ Hd He) as [_ Hrun].
  repeat split.
  - unfold strtol. cbn [snd]. apply digit_run_pos. now rewrite deref_view, Nat.add_0_r.
  - unfold text, strtol. cbn [str len snd]. apply forallb_forall.
    intros c Hc. apply in_map_iff in Hc as (i & <- & Hi). apply in_seq in Hi.
    replace i with (p + (i - p)) by lia. apply Hd. lia.
  - exact Hsound.
  - apply c_int_range.
  - apply c_int_range.
Qed.

(** X2. Every token [tokenize] returns has the fields its kind asks for: a
    reserved token covers one of the twelve operator texts, a number token
    covers one digit or more and holds the [int] read from them, and the
    end-of-input token is empty and stands at the terminator. *)
Theorem tokens_have_shape (user_input : string) (out : list Token) :
  tokenize user_input = Ok out -> Forall (token_shape user_input) out.
Proof.
  intros H. apply tokenize_tokens in H. eapply Forall_impl; [|exact H].
  cbn. intros t [Hs Ht]. apply (token_at_shape user_input (str t)); [|exact Ht].
  now apply scans_within.
Qed.

Lemma tokens_have_shape_witness :
  Forall (token_shape "7>=10")
    [mkToken TK_NUM 7 0 1; mkToken TK_RESERVED 0 1 2; mkToken TK_NUM 10 3 2;
     mkToken TK_EOF 0 5 0].
Proof. apply tokens_have_shape. reflexivity. Defined.

Lemma tokenize_sorted (s : string) (out : list Token) :
  tokenize s = Ok out ->
  StronglySorted (fun a b => str a + len a <= str b) out.
Proof.
  intros Hout.
  destruct (tokenize_result s) as [(ts & E & HL & Hall & Hsort)|(q & E & _)];
    rewrite E in Hout; [|discriminate].
  injection Hout as <-. clear E. induction Hsort as [|x l Hl IH Hx].
  - repeat constructor.
  - inversion Hall as [|? ? Hx0 Hall']; subst. cbn [app]. constructor.
    + now apply IH.
    + apply Forall_app. split; [exact Hx|]. constructor; [|constructor].
      destruct Hx0 as (_ & _ & _ & _ & Hle). exact Hle.
Qed.

(** X3. The tokens [tokenize] returns stand in the order of the input and
    do not overlap: each one ends at or before the offset the next one (and
    every later one) starts at, and all of them lie within the input. *)
Theorem tokens_in_order (user_input : string) (out : list Token) :
  tokenize user_input = Ok out ->
  StronglySorted (fun a b => str a + len a <= str b) out /\
  Forall (fun t => str t + len t <= strlen (list_ascii_of_string user_input)) out.
Proof.
  intros H. split; [apply (tokenize_sorted user_input out H)|].
  apply (tokens_within user_input out H).
Qed.

Lemma tokens_in_order_witness :
  StronglySorted (fun a b => str a + len a <= str b)
    [mkToken TK_NUM 7 0 1; mkToken TK_RESERVED 0 1 2; mkToken TK_NUM 10 3 2;
     mkToken TK_EOF 0 5 0].
Proof. apply (proj1 (tokens_in_order "7>=10" _ eq_refl)). Defined.

(** X4. [startswith(p, q)] holds exactly when the bytes from [p] on are
    those of the string [q]; and for [p] within the input a match lies
    wholly before the terminator, so the tokenizer's [p += 2] after a match
    never steps over it. *)
Theorem startswith_within (user_input : string) (p : nat) (q : string) :
  (startswith user_input p q = true <->
   map (deref user_input) (seq p (strlen (list_ascii_of_string q))) =
   c_str (list_ascii_of_string q)) /\
  (p <= strlen (mem user_input) ->
   startswith user_input p q = true ->
   p + strlen (list_ascii_of_string q) <= strlen (mem user_input)).
Proof.
  set (o := list_ascii_of_string q). split.
  - rewrite startswith_spec. fold o. split.
    + intros H. apply nth_ext with (d := NUL) (d' := NUL).
      * now rewrite length_map, length_seq.
      * rewrite length_map, length_seq. intros i Hi.
        rewrite nth_map_seq by exact Hi. rewrite (H i Hi). now apply load_c_str.
    + intros H i Hi. destruct (load_c_str o i Hi) as [-> _]. rewrite <- H.
      symmetry. now apply nth_map_seq.
  - intros Hp H. rewrite startswith_spec in H. fold o in H.
    apply within_string; [|exact Hp]. intros i Hi. rewrite (H i Hi).
    now apply load_c_str.
Qed.

Lemma startswith_within_witness : 1 + 2 <= strlen (mem "1<=2").
Proof.
  apply (proj2 (startswith_within "1<=2" 1 "<=")); [vm_compute; lia|reflexivity].
Defined.

(** ** The cursor of the parser *)

(** X5. [expect(op)] steps over the current token exactly when it is a
    reserved token whose text is [op], which is when [consume(op)] returns
    true; at any other token it reports that token's offset, with [op]
    itself as the argument of the [%c] conversion. *)
Theorem expect_matches_or_exits (user_input op : string) (t : Token) (next : list Token) :
  (expect user_input op (t :: next) = Ok (tt, next) <->
   kind t = TK_RESERVED /\
   text user_input t = c_str (list_ascii_of_string op)) /\
  (expect user_input op (t :: next) = Ok (tt, next) <->
   consume user_input op (t :: next) = Ok (true, next)) /\
  (expect user_input op (t :: next) = Ok (tt, next) \/
   expect user_input op (t :: next) =
   Exit1 (ErrorAt (str t) "'%c'ではありません" (Some op))).
Proof.
  pose proof (mismatch_false user_input op t) as M.
  unfold expect, consume, error_at. destruct (mismatch user_input op t).
  - split; [|split; [|now right]].
    + split; [discriminate|]. intros H. apply M in H. discriminate.
    + split; discriminate.
  - split; [|split; [|now left]].
    + split; [intros _; now apply M|reflexivity].
    + split; reflexivity.
Qed.

(** X6. Among the tokens [tokenize] returns, [at_eof] holds at the last
    one and at no other. *)
Theorem at_eof_only_at_the_end (user_input : string) (seen rest : list Token)
        (t : Token) :
  tokenize user_input = Ok (seen ++ t :: rest) ->
  (at_eof (t :: rest) = Ok (true, t :: rest) <-> rest = []).
Proof.
  intros Hout.
  destruct (tokenize_result user_input) as [(ts & E & _ & Hall & _)|(q & E & _)];
    rewrite E in Hout; [|discriminate].
  injection Hout as Hout. unfold at_eof. split.
  - intros [= Hk]. destruct (exists_last (l := t :: rest) ltac:(discriminate))
      as (l & x & El).
    destruct l as [|t' l]; [now injection El as _ ->|].
    injection El as <- ->. rewrite app_comm_cons, app_assoc in Hout.
    apply app_inj_tail in Hout as [-> _].
    apply Forall_app in Hall as [_ Hall]. inversion Hall as [|? ? (Hne & _) _]; subst.
    now destruct (kind t).
  - intros ->. apply app_inj_tail in Hout as [_ <-]. reflexivity.
Qed.

Lemma at_eof_only_at_the_end_witness :
  at_eof [mkToken TK_EOF 0 1 0] = Ok (true, [mkToken TK_EOF 0 1 0]) <->
  @nil Token = [].
Proof.
  apply (at_eof_only_at_the_end "7" [mkToken TK_NUM 7 0 1] [] (mkToken TK_EOF 0 1 0)).
  reflexivity.
Defined.

Lemma ends_eof_cons (t : Token) (next : list Token) :
  ends_eof (t :: next) -> kind t <> TK_EOF -> ends_eof next.
Proof.
  intros (ts & e & E & He) Hk. destruct ts as [|t' ts].
  - injection E as -> _. contradiction.
  - injection E as _ ->. now exists ts, e.
Qed.

Lemma ends_eof_not_nil (token : list Token) :
  ends_eof token -> exists t next, token = t :: next.
Proof. intros (ts & e & -> & _). destruct ts; cbn; eauto. Qed.

Lemma tidy_result_cons {A : Type} (s : string) (t : Token) (next : list Token)
      (r : result (A * list Token)) :
  tidy_result s next r -> tidy_result s (t :: next) r.
Proof.
  destruct r as [[a rest]|d| |]; cbn; auto.
  - intros [He [used ->]]. split; [exact He|]. now exists (t :: used).
  - intros (x & Hin & H). exists x. split; [now right|exact H].
Qed.

Lemma tidy_ret {A : Type} (s : string) (a : A) (token : list Token) :
  ends_eof token -> tidy s (ret a) token.
Proof. intros H. split; [exact H|]. now exists []. Qed.

Lemma tidy_bind {A B : Type} (s : string) (p : parser A) (k : A -> parser B)
      (token : list Token) :
  tidy s p token ->
  (forall a rest, ends_eof rest -> tidy s (k a) rest) ->
  tidy s (pbind p k) token.
Proof.
  unfold tidy, pbind, bind. destruct (p token) as [[a rest]|d| |]; cbn; auto.
  intros [He [used ->]] Hk. specialize (Hk a rest He).
  destruct (k a rest) as [[b rest']|d| |]; cbn in *; auto.
  - destruct Hk as [He' [used' ->]]. split; [exact He'|].
    exists (used ++ used'). now rewrite app_assoc.
  - destruct Hk as (x & Hin & H). exists x. split; [|exact H].
    apply in_or_app. now right.
Qed.

Section TidySteps.

Variable s : string.

Lemma mismatch_reserved (op : string) (t : Token) :
  mismatch s op t = false -> kind t <> TK_EOF.
Proof. intros H. apply mismatch_false in H as [-> _]. discriminate. Qed.

Lemma tidy_consume {A : Type} (op : string) (k : bool -> parser A)
      (token : list Token) :
  ends_eof token ->
  (forall t next, token = t :: next -> ends_eof next -> tidy s (k true) next) ->
  (forall t next, token = t :: next -> mismatch s op t = true ->
                  tidy s (k false) token) ->
  tidy s (pbind (consume s op) k) token.
Proof.
  intros He Ht Hf. destruct (ends_eof_not_nil token He) as (t & next & ->).
  assert (E : pbind (consume s op) k (t :: next) =
              if mismatch s op t then k false (t :: next) else k true next)
    by (unfold pbind, bind, consume; now destruct (mismatch s op t)).
  unfold tidy. rewrite E. destruct (mismatch s op t) eqn:Em.
  - now apply (Hf t next).
  - apply tidy_result_cons. apply (Ht t next eq_refl).
    apply (ends_eof_cons t next He). now apply (mismatch_reserved op).
Qed.

Lemma tidy_expect {A : Type} (k : unit -> parser A) (token : list Token) :
  ends_eof token ->
  (forall t next, token = t :: next -> ends_eof next -> tidy s (k tt) next) ->
  tidy s (pbind (expect s ")") k) token.
Proof.
  intros He Ht. destruct (ends_eof_not_nil token He) as (t & next & ->).
  assert (E : pbind (expect s ")") k (t :: next) =
              if mismatch s ")" t
              then Exit1 (ErrorAt (str t) "'%c'ではありません" (Some ")"))
              else k tt next)
    by (unfold pbind, bind, expect; now destruct (mismatch s ")" t)).
  unfold tidy. rewrite E. destruct (mismatch s ")" t) eqn:Em.
  - exists t. split; [now left|]. right. now split.
  - apply tidy_result_cons. apply (Ht t next eq_refl).
    apply (ends_eof_cons t next He). now apply (mismatch_reserved ")").
Qed.

Lemma tidy_expect_number {A : Type} (k : Z -> parser A) (token : list Token) :
  ends_eof token ->
  (forall t next, token = t :: next -> mismatch s "(" t = true) ->
  (forall t next, token = t :: next -> ends_eof next -> tidy s (k (val t)) next) ->
  tidy s (pbind expect_number k) token.
Proof.
  intros He Hm Ht. destruct (ends_eof_not_nil token He) as (t & next & ->).
  assert (E : pbind expect_number k (t :: next) =
              if negb (TokenKind_eqb (kind t) TK_NUM)
              then Exit1 (ErrorAt (str t) "数ではありません" None)
              else k (val t) next)
    by (unfold pbind, bind, expect_number; now destruct (negb _)).
  unfold tidy. rewrite E. destruct (negb _) eqn:Ek.
  - exists t. split; [now left|]. left. repeat split.
    + intros Hk. rewrite Hk in Ek. discriminate.
    + now apply (Hm t next).
  - apply tidy_result_cons. apply (Ht t next eq_refl).
    apply (ends_eof_cons t next He). intros Hk. rewrite Hk in Ek. discriminate.
Qed.

Ltac head_token E := first [injection E as <- <- | subst].

(** Every function of the parser, on a token list that ends with the
    end-of-input token. *)
Lemma parser_tidy (fuel : nat) :
  (forall token, ends_eof token -> tidy s (expr s fuel) token) /\
  (forall token, ends_eof token -> tidy s (equality s fuel) token) /\
  (forall node token, ends_eof token -> tidy s (equality_loop s fuel node) token) /\
  (forall token, ends_eof token -> tidy s (relational s fuel) token) /\
  (forall node token, ends_eof token -> tidy s (relational_loop s fuel node) token) /\
  (forall token, ends_eof token -> tidy s (add s fuel) token) /\
  (forall node token, ends_eof token -> tidy s (add_loop s fuel node) token) /\
  (forall token, ends_eof token -> tidy s (mul s fuel) token) /\
  (forall node token, ends_eof token -> tidy s (mul_loop s fuel node) token) /\
  (forall token, ends_eof token -> tidy s (unary s fuel) token) /\
  (forall token, ends_eof token -> tidy s (primary s fuel) token).
Proof.
  induction fuel as [|fuel IH].
  - repeat match goal with |- _ /\ _ => split end; intros; exact I.
  - destruct IH as (Ie & Iq & Iql & Ir & Irl & Ia & Ial & Im & Iml & Iu & Ip).
    repeat match goal with |- _ /\ _ => split end; intros;
      autorewrite with parser_unfold;
      repeat first
        [ assumption
        | apply tidy_ret
        | match goal with
          | |- tidy _ (pbind (consume _ _) _) _ =>
              apply tidy_consume;
              [ | let E := fresh "E" in intros ? ? E ?; head_token E
                | let E := fresh "E" in intros ? ? E ?; head_token E ];
              cbv beta iota
          | |- tidy _ (pbind (expect _ _) _) _ =>
              apply tidy_expect;
              [ | let E := fresh "E" in intros ? ? E ?; head_token E ]; cbv beta
          | |- tidy _ (pbind expect_number _) _ =>
              apply tidy_expect_number;
              [ | let E := fresh "E" in intros ? ? E; head_token E
                | let E := fresh "E" in intros ? ? E ?; head_token E ]; cbv beta
          | |- tidy _ (pbind _ _) _ => apply tidy_bind; [| intros ? ? ?; cbv beta]
          | |- tidy _ (expr _ _) _ => apply Ie
          | |- tidy _ (equality _ _) _ => apply Iq
          | |- tidy _ (equality_loop _ _ _) _ => apply Iql
          | |- tidy _ (relational _ _) _ => apply Ir
          | |- tidy _ (relational_loop _ _ _) _ => apply Irl
          | |- tidy _ (add _ _) _ => apply Ia
          | |- tidy _ (add_loop _ _ _) _ => apply Ial
          | |- tidy _ (mul _ _) _ => apply Im
          | |- tidy _ (mul_loop _ _ _) _ => apply Iml
          | |- tidy _ (unary _ _) _ => apply Iu
          | |- tidy _ (primary _ _) _ => apply Ip
          end ].
Qed.

End TidySteps.

(** X7. On a token list that ends with the end-of-input token the parser
    never reads through a null pointer: [expr] does not step over that
    token. When it returns, the cursor stands on a later token of the same
    list, at least one token further and with the end-of-input token still
    ahead. *)
Theorem parser_stays_before_eof (user_input : string) (fuel : nat)
        (token : list Token) :
  ends_eof token ->
  expr user_input fuel token <> Segfault /\
  forall node rest,
    expr user_input fuel token = Ok (node, rest) ->
    ends_eof rest /\ exists used, used <> [] /\ token = used ++ rest.
Proof.
  intros He. destruct (parser_tidy user_input fuel) as (Ie & _).
  specialize (Ie token He). unfold tidy in Ie. split.
  - intros E. now rewrite E in Ie.
  - intros node rest E. rewrite E in Ie. destruct Ie as [Hr [used ->]].
    split; [exact Hr|]. exists used. split; [|reflexivity]. intros ->.
    apply (expr_fuel_enough user_input fuel) in E; [|discriminate].
    destruct (parser_good user_input (expr_fuel ([] ++ rest))) as (Ig & _).
    destruct (Ig ([] ++ rest)) as [_ Hl]; [unfold expr_fuel; lia|].
    specialize (Hl node rest E). cbn in Hl. lia.
Qed.

Lemma parser_stays_before_eof_witness :
  expr "1" 20 [mkToken TK_NUM 1 0 1; mkToken TK_EOF 0 1 0] <> Segfault.
Proof.
  apply (parser_stays_before_eof "1" 20 [mkToken TK_NUM 1 0 1; mkToken TK_EOF 0 1 0]).
  exists [mkToken TK_NUM 1 0 1], (mkToken TK_EOF 0 1 0). split; reflexivity.
Defined.

Lemma tokenize_ends_eof (s : string) (token : list Token) :
  tokenize s = Ok token -> ends_eof token.
Proof.
  intros H. destruct (tokenize_result s) as [(ts & E & _)|(q & E & _)];
    rewrite E in H; [|discriminate].
  injection H as <-. eexists ts, _. split; reflexivity.
Qed.

Lemma mismatch_true_lexeme (s op : string) (t : Token) :
  no_NUL op -> mismatch s op t = true -> lexeme_of s t <> LOp op.
Proof.
  intros Hop. rewrite (mismatch_lexeme s op t Hop). intros H E.
  apply lexeme_eqb_eq in E. rewrite E in H. discriminate.
Qed.

(** X8. A diagnostic of the parser, on the tokens of the input, reports
    the offset of one of these tokens, an offset within the input: either
    that a number is missing, at a token that is neither a number nor an
    opening parenthesis, or that the closing parenthesis is, at a token
    that is not one. *)
Theorem syntax_errors_point_at_tokens (user_input : string) (fuel : nat)
        (token : list Token) (d : diag) :
  tokenize user_input = Ok token ->
  expr user_input fuel token = Exit1 d ->
  exists t,
    In t token /\ str t <= strlen (mem user_input) /\
    ((d = ErrorAt (str t) "数ではありません" None /\
      kind t <> TK_NUM /\ lexeme_of user_input t <> LOp "(") \/
     (d = ErrorAt (str t) "'%c'ではありません" (Some ")") /\
      lexeme_of user_input t <> LOp ")")).
Proof.
  intros Htok E. destruct (parser_tidy user_input fuel) as (Ie & _).
  specialize (Ie token (tokenize_ends_eof _ _ Htok)). unfold tidy in Ie.
  rewrite E in Ie. destruct Ie as (t & Hin & H). exists t. split; [exact Hin|].
  split.
  - pose proof (tokens_within user_input token Htok) as Hw.
    rewrite Forall_forall in Hw. specialize (Hw t Hin). lia.
  - destruct H as [(-> & Hk & Hm)|(-> & Hm)]; [left|right]; repeat split;
      try assumption; now apply mismatch_true_lexeme.
Qed.

Lemma syntax_errors_point_at_tokens_witness :
  exists t,
    In t [mkToken TK_RESERVED 0 0 1; mkToken TK_NUM 1 1 1; mkToken TK_EOF 0 2 0] /\
    str t <= strlen (mem "(1") /\
    ((ErrorAt 2 "'%c'ではありません" (Some ")") = ErrorAt (str t) "数ではありません" None /\
      kind t <> TK_NUM /\ lexeme_of "(1" t <> LOp "(") \/
     (ErrorAt 2 "'%c'ではありません" (Some ")") =
      ErrorAt (str t) "'%c'ではありません" (Some ")") /\
      lexeme_of "(1" t <> LOp ")")).
Proof.
  apply (syntax_errors_point_at_tokens "(1" 20); reflexivity.
Defined.

(** ** The trees of the parser are trees of expressions *)

Lemma tokenize_numeral (s : string) (token : list Token) :
  tokenize s = Ok token -> Forall (numeral s) token.
Proof.
  intros H. apply tokenize_tokens in H. eapply Forall_impl; [|exact H].
  cbn. intros t [Hs Ht] Hk.
  pose proof (token_at_shape s (str t) t (scans_within s _ Hs) Ht) as Hsh.
  unfold token_shape in Hsh. rewrite Hk in Hsh. destruct Hsh as (_ & Hd & Hv & _).
  split; [exact Hv|]. now apply decimal_acc_nonneg.
Qed.

(** Whether a lexeme is an operator of the level [k]. *)
Lemma level_op_dec (k : nat) (l : lexeme) :
  (exists op, prec op = k /\ l = LOp (op_text op)) \/
  (forall op, prec op = k -> l <> LOp (op_text op)).
Proof.
  destruct l as [n|x|]; try (right; intros op _; discriminate).
  assert (D : (exists op, x = op_text op) \/ (forall op, x <> op_text op)).
  { destruct (string_dec x "+") as [->|]; [left; now exists OAdd|].
    destruct (string_dec x "-") as [->|]; [left; now exists OSub|].
    destruct (string_dec x "*") as [->|]; [left; now exists OMul|].
    destruct (string_dec x "/") as [->|]; [left; now exists ODiv|].
    destruct (string_dec x "==") as [->|]; [left; now exists OEq|].
    destruct (string_dec x "!=") as [->|]; [left; now exists ONe|].
    destruct (string_dec x "<") as [->|]; [left; now exists OLt|].
    destruct (string_dec x "<=") as [->|]; [left; now exists OLe|].
    destruct (string_dec x ">") as [->|]; [left; now exists OGt|].
    destruct (string_dec x ">=") as [->|]; [left; now exists OGe|].
    right. intros op. destruct op; assumption. }
  destruct D as [[op ->]|D].
  - destruct (Nat.eq_dec (prec op) k) as [E|E].
    + left. now exists op.
    + right. intros op' Hp [= H]. apply op_text_inj in H. congruence.
  - right. intros op _ [= H]. now apply (D op).
Qed.

Lemma prec_le_3 (op : binop) : prec op <= 3.
Proof. destruct op; cbn; lia. Qed.

Section Sound.

Variable s : string.

Lemma consume_nil {A : Type} (op : string) (k : bool -> parser A) :
  pbind (consume s op) k [] = Segfault.
Proof. reflexivity. Qed.

Lemma loop_at_nil (k fuel : nat) (node : Node) (r : Node * list Token) :
  loop_at k s fuel node [] <> Ok r.
Proof.
  destruct fuel; [destruct k as [|[|[|k]]]; discriminate|].
  destruct k as [|[|[|k]]]; discriminate.
Qed.

Lemma expect_Ok (op : string) (token rest : list Token) (u : unit) :
  no_NUL op -> expect s op token = Ok (u, rest) ->
  exists t, token = t :: rest /\ lexeme_of s t = LOp op.
Proof.
  intros Hop. destruct token as [|t next]; [discriminate|]. unfold expect.
  rewrite (mismatch_lexeme s op t Hop).
  destruct (lexeme_eqb _ _) eqn:E; [|discriminate]. cbn. intros [= _ <-].
  exists t. split; [reflexivity|]. now apply lexeme_eqb_eq.
Qed.

Lemma expect_number_Ok (token rest : list Token) (v : Z) :
  expect_number token = Ok (v, rest) ->
  exists t, token = t :: rest /\ kind t = TK_NUM /\ v = val t.
Proof.
  destruct token as [|t next]; [discriminate|]. unfold expect_number.
  destruct (kind t) eqn:Ek; try discriminate. cbn. intros [= <- <-].
  now exists t.
Qed.

Lemma stops_level (k : nat) (t : Token) (rest : list Token) :
  k <= 3 -> stops s (S k) (t :: rest) ->
  (forall op, prec op = k -> lexeme_of s t <> LOp (op_text op)) ->
  stops s k (t :: rest).
Proof.
  intros Hk Hst H. right. exists t, rest. split; [reflexivity|].
  intros op Hop. destruct (Nat.eq_dec (prec op) k) as [E|E]; [now apply H|].
  destruct Hst as [H4|(t' & rest' & [= <- <-] & H')].
  - pose proof (prec_le_3 op). lia.
  - apply H'. lia.
Qed.

End Sound.

Section SoundParser.

Variable s : string.

(** The three statements, by the fuel: for [expr], for the grammar
    function of each strength, and for the loop of each strength. *)
Let expr_sound (fuel : nat) : Prop :=
  forall token node rest,
    Forall (numeral s) token ->
    expr s fuel token = Ok (node, rest) -> reads_back s 0 token node rest.

Let parse_sound (fuel : nat) : Prop :=
  forall k token node rest,
    k <= 5 -> Forall (numeral s) token ->
    parse_at k s fuel token = Ok (node, rest) -> reads_back s k token node rest.

Let loop_sound (fuel : nat) : Prop :=
  forall k e0 token node rest,
    k <= 3 -> Forall (numeral s) token ->
    conforms k e0 = true -> stops s (S k) token ->
    loop_at k s fuel (node_of e0) token = Ok (node, rest) ->
    extends_to s k e0 token node rest.

Lemma loop_sound_step (fuel : nat) :
  parse_sound fuel -> loop_sound fuel -> loop_sound (S fuel).
Proof.
  intros IHp IHl k e0 token node rest Hk Hnum Hc Hst H.
  destruct token as [|t next]; [now apply loop_at_nil in H|].
  pose proof (Forall_inv_tail Hnum) as Hnum'.
  destruct (level_op_dec k (lexeme_of s t)) as [(op & <- & Ht)|Hno].
  - rewrite (loop_at_go s op fuel _ t next Ht) in H.
    apply pbind_Ok in H as (r & rest1 & Hr & H). cbv beta in H.
    apply IHp in Hr as (eb & used1 & -> & Hm1 & Hcb & -> & Hst1); [|lia|exact Hnum'].
    change (build op (node_of e0) (node_of eb)) with (node_of (SBin op e0 eb)) in H.
    apply IHl in H as (e & used2 & -> & Hf & Hce & -> & Hst2).
    + exists e, (t :: used1 ++ used2). repeat split; auto.
      * cbn. now rewrite app_assoc.
      * rewrite Hf. cbn [flatten map]. rewrite map_app, Ht, Hm1, <- app_assoc.
        reflexivity.
    + exact Hk.
    + now apply Forall_app in Hnum' as [_ ?].
    + cbn [conforms]. now rewrite Nat.leb_refl, Hc, Hcb.
    + exact Hst1.
  - rewrite (loop_at_stop s k fuel _ t next Hk Hno) in H. injection H as <- <-.
    exists e0, []. repeat split; auto.
    + now rewrite app_nil_r.
    + now apply stops_level.
Qed.

Lemma parse_sound_step (fuel : nat) :
  expr_sound fuel -> parse_sound fuel -> loop_sound fuel -> parse_sound (S fuel).
Proof.
  intros IHe IHp IHl k token node rest Hk Hnum H.
  destruct (Nat.le_gt_cases k 3) as [H3|H3].
  - rewrite parse_at_S in H by exact H3.
    apply pbind_Ok in H as (n0 & rest0 & H0 & H). cbv beta in H.
    apply IHp in H0 as (e0 & used0 & -> & Hm0 & Hc0 & -> & Hst0); [|lia|exact Hnum].
    apply IHl in H as (e & used & -> & Hf & Hc & -> & Hst).
    + exists e, (used0 ++ used). repeat split; auto.
      * now rewrite app_assoc.
      * now rewrite map_app, Hm0.
    + exact H3.
    + now apply Forall_app in Hnum as [_ ?].
    + apply (conforms_le e0 k (S k)); [lia|exact Hc0].
    + exact Hst0.
  - destruct token as [|t next];
      [assert (k = 4 \/ k = 5) as [-> | ->] by lia; discriminate|].
    pose proof (Forall_inv_tail Hnum) as Hnum'.
    assert (k = 4 \/ k = 5) as [-> | ->] by lia; cbn [parse_at] in *.
    + (* unary *)
      rewrite unary_S in H. rewrite pbind_consume in H by reflexivity.
      destruct (lexeme_eqb (lexeme_of s t) (LOp "+")) eqn:Ep.
      { apply lexeme_eqb_eq in Ep.
        apply (IHp 5) in H as (e & used & -> & Hm & Hc & -> & _); [|lia|exact Hnum'].
        exists (SPos e), (t :: used). repeat split; auto.
        - cbn [map flatten]. now rewrite Ep, Hm.
        - left. lia. }
      rewrite pbind_consume in H by reflexivity.
      destruct (lexeme_eqb (lexeme_of s t) (LOp "-")) eqn:Em.
      { apply lexeme_eqb_eq in Em.
        apply pbind_Ok in H as (r & rest1 & Hr & H). unfold ret in H.
        injection H as <- <-.
        apply (IHp 5) in Hr as (e & used & -> & Hm & Hc & -> & _); [|lia|exact Hnum'].
        exists (SNeg e), (t :: used). repeat split; auto.
        - cbn [map flatten]. now rewrite Em, Hm.
        - left. lia. }
      apply (IHp 5) in H as (e & used & E & Hm & Hc & -> & _); [|lia|exact Hnum].
      exists e, used. repeat split; auto.
      * apply (conforms_le e 4 5); [lia|exact Hc].
      * left. lia.
    + (* primary *)
      rewrite primary_S in H. rewrite pbind_consume in H by reflexivity.
      destruct (lexeme_eqb (lexeme_of s t) (LOp "(")) eqn:Ep.
      { apply lexeme_eqb_eq in Ep.
        apply pbind_Ok in H as (n & rest0 & Hn & H). cbv beta in H.
        apply pbind_Ok in H as (u & rest1 & Hu & H). unfold ret in H.
        injection H as <- <-.
        apply IHe in Hn as (e & used & -> & Hm & Hc & -> & _); [|exact Hnum'].
        apply expect_Ok in Hu as (t2 & -> & Ht2); [|reflexivity].
        exists (SParen e), (t :: used ++ [t2]). repeat split; auto.
        - cbn. now rewrite <- app_assoc.
        - cbn [map flatten]. rewrite map_app, Ep, Hm. cbn [map]. now rewrite Ht2.
        - left. lia. }
      apply pbind_Ok in H as (v & rest1 & Hv & H). unfold ret in H.
      injection H as <- <-.
      apply expect_number_Ok in Hv as (t' & E & Hk' & ->). injection E as <- <-.
      destruct (Forall_inv Hnum Hk') as [Hval Hpos].
      exists (SNum (decimal (text s t))), [t]. repeat split; auto.
      * unfold lexeme_of. cbn [map flatten]. now rewrite Hk'.
      * cbn [conforms]. now apply Z.leb_le.
      * cbn [node_of]. now rewrite Hval.
      * left. lia.
Qed.

Lemma parser_sound (fuel : nat) :
  expr_sound fuel /\ parse_sound fuel /\ loop_sound fuel.
Proof.
  induction fuel as [|fuel (IHe & IHp & IHl)].
  - split; [|split].
    + intros token node rest _ H. discriminate.
    + intros k token node rest _ _ H. destruct k as [|[|[|[|[|k]]]]]; discriminate.
    + intros k e0 token node rest _ _ _ _ H. destruct k as [|[|[|k]]]; discriminate.
  - split; [|split].
    + intros token node rest Hnum H. rewrite expr_S in H.
      apply (IHp 0); [lia|exact Hnum|exact H].
    + now apply parse_sound_step.
    + now apply loop_sound_step.
Qed.

End SoundParser.

Lemma stops_not_binop (s : string) (rest : list Token) :
  stops s 0 rest ->
  exists t rest', rest = t :: rest' /\ is_binop (lexeme_of s t) = false.
Proof.
  intros [H|(t & rest' & -> & H)]; [lia|]. exists t, rest'. split; [reflexivity|].
  destruct (lexeme_of s t) as [n|x|] eqn:E; try reflexivity.
  destruct (is_binop (LOp x)) eqn:Eb; [|reflexivity]. exfalso.
  cbn in Eb. rewrite !orb_true_iff in Eb.
  repeat match goal with
         | H : _ \/ _ |- _ => destruct H as [H|H]
         | H : String.eqb _ _ = true |- _ => apply String.eqb_eq in H; subst x
         end; try discriminate.
  - now apply (H OAdd ltac:(lia)).
  - now apply (H OSub ltac:(lia)).
  - now apply (H OMul ltac:(lia)).
  - now apply (H ODiv ltac:(lia)).
  - now apply (H OEq ltac:(lia)).
  - now apply (H ONe ltac:(lia)).
  - now apply (H OLt ltac:(lia)).
  - now apply (H OLe ltac:(lia)).
  - now apply (H OGt ltac:(lia)).
  - now apply (H OGe ltac:(lia)).
Qed.

Lemma parse_string_sound (input : string) (node : Node) (rest : list Token) :
  parse_string input = Ok (node, rest) ->
  exists e ts t rest',
    rest = t :: rest' /\
    tokenize input = Ok (ts ++ rest) /\
    map (lexeme_of input) ts = flatten e /\
    conforms 0 e = true /\
    is_binop (lexeme_of input t) = false /\
    node = node_of e.
Proof.
  unfold parse_string. destruct (tokenize input) as [token| | |] eqn:Htok;
    try discriminate.
  cbn [bind]. intros H. destruct (parser_sound input (expr_fuel token)) as (He & _).
  apply He in H as (e & used & -> & Hm & Hc & -> & Hst);
    [|now apply tokenize_numeral].
  apply stops_not_binop in Hst as (t & rest' & -> & Hb).
  now exists e, used, t, rest'.
Qed.

(** X9. The parser accepts the token lists that begin with an expression
    of the grammar, and builds the tree of that expression: [expr] returns
    [node] with the cursor at [rest] exactly when the tokens before [rest]
    spell an expression that obeys the precedence rules, [node] is the tree
    of that expression, and [rest] begins with a token that is not a binary
    operator. The tree of an expression is given by the kind, the two
    children and the value of each node ([node_of]): a binary operator
    gives a node of its kind over the trees of its operands, those of [>]
    and [>=] exchanged; a minus sign a [ND_SUB] node over a number node 0
    and the tree of its operand; a literal a number node without
    children. *)
Theorem parser_accepts_exactly (input : string) (node : Node) (rest : list Token) :
  parse_string input = Ok (node, rest) <->
  exists e ts t rest',
    rest = t :: rest' /\
    tokenize input = Ok (ts ++ rest) /\
    map (lexeme_of input) ts = flatten e /\
    conforms 0 e = true /\
    is_binop (lexeme_of input t) = false /\
    node = node_of e.
Proof.
  split; [apply parse_string_sound|].
  intros (e & ts & t & rest' & -> & Htok & Hm & Hc & Hb & ->).
  apply (parse_expression input e ts t rest'); auto. split; [exact Hm|].
  apply tokenize_sound in Htok. now apply Forall_app in Htok as [? _].
Qed.

Lemma parser_accepts_exactly_witness :
  exists e ts t rest',
    [mkToken TK_RESERVED 0 3 1; mkToken TK_EOF 0 4 0] = t :: rest' /\
    tokenize "1-2)" = Ok (ts ++ [mkToken TK_RESERVED 0 3 1; mkToken TK_EOF 0 4 0]) /\
    map (lexeme_of "1-2)") ts = flatten e /\
    conforms 0 e = true /\
    is_binop (lexeme_of "1-2)" t) = false /\
    Node.mk ND_SUB (Some (Node.mk ND_NUM None None 1))
      (Some (Node.mk ND_NUM None None 2)) 0 = node_of e.
Proof.
  apply (proj1 (parser_accepts_exactly "1-2)" _ _)). reflexivity.
Defined.

(** ** Runs of the driver *)

Lemma parse_string_outcome (input : string) (token : list Token) :
  tokenize input = Ok token ->
  match parse_string input with
  | Ok _ => True
  | Exit1 d => syntax_error input token d
  | Segfault | OutOfFuel => False
  end.
Proof.
  intros Htok. unfold parse_string. rewrite Htok. cbn [bind].
  destruct (parser_tidy input (expr_fuel token)) as (Ie & _).
  specialize (Ie token (tokenize_ends_eof _ _ Htok)). unfold tidy in Ie.
  pose proof (expr_total input token) as Ht.
  destruct (expr input (expr_fuel token) token) as [[node rest]|d| |]; auto.
Qed.

Lemma main_unparsed (arg0 input : string) (d : diag) :
  parse_string input = Exit1 d -> main [arg0; input] = die d.
Proof.
  unfold parse_string, main. destruct (tokenize input) as [token|d'| |];
    try discriminate; cbn [bind].
  - destruct (expr input (expr_fuel token) token) as [[node rest]|d'| |];
      try discriminate. now intros [= ->].
  - now intros [= ->].
Qed.

Lemma syntax_error_within (input : string) (token : list Token) (d : diag) :
  tokenize input = Ok token -> syntax_error input token d ->
  exists loc fmt arg,
    d = ErrorAt loc fmt arg /\ loc <= strlen (mem input) /\
    (fmt = "数ではありません" \/ fmt = "'%c'ではありません")%string.
Proof.
  intros Htok (t & Hin & H).
  pose proof (tokens_within input token Htok) as Hw.
  rewrite Forall_forall in Hw. specialize (Hw t Hin).
  destruct H as [(-> & _)|(-> & _)]; do 3 eexists;
    (split; [reflexivity|]); (split; [lia|]); auto.
Qed.

(** X10. Every run of the program ends in one of three ways, and never
    by reading through a null pointer (how deep the calls of the parser
    and of [gen] may nest on the host is not part of the model). With one
    argument that [tokenize] and [expr] accept: status 0, the function
    [main] on the standard output and nothing on the error stream; where
    the assembler accepts every number of the tree in a [mov], the
    function returns the value of the tree and leaves the stack as it
    found it, and where it refuses one there is no program to run. With
    one argument that they do not accept: status 1, nothing on the
    standard output, and the diagnostic of [error_at] with one of the
    three messages and an offset within the input. With any other number
    of arguments: status 1 and the diagnostic of [error] with the name of
    the program. *)
Theorem main_outcomes (arg0 : string) (args : list string) :
  let out := main (arg0 :: args) in
  (exists input node rest body,
      args = [input] /\
      parse_string input = Ok (node, rest) /\ gen node = Ok body /\
      out = {| stdout := [Globl "main"; Label "main"] ++ body ++ [LdrPost X0; Ret];
               stderr := None;
               status := Exited 0 |} /\
      forall m,
        target_call (stdout out) m =
        if loads node then Some (value64 node, stack m) else None) \/
  (exists input loc fmt arg,
      args = [input] /\
      out = die (ErrorAt loc fmt arg) /\
      loc <= strlen (mem input) /\
      In fmt ["トークナイズできません"; "数ではありません"; "'%c'ではありません"]) \/
  (List.length args <> 1 /\
   out = die (Error "%s: invalid number of arguments" arg0)).
Proof.
  cbv zeta. destruct args as [|input [|x args]].
  - right. right. split; [discriminate|reflexivity].
  - destruct (tokenize_result input) as [(ts & E & _)|(q & E & Hq & _)].
    + pose proof (parse_string_outcome input _ E) as Ho.
      destruct (parse_string input) as [[node rest]|d| |] eqn:Ep; try contradiction.
      * left. destruct (main_parsed arg0 input node rest Ep) as (body & Hgen & Hm).
        exists input, node, rest, body. repeat split; auto.
        intros m. rewrite Hm. cbn [stdout]. apply target_call_main; [|exact Hgen].
        unfold parse_string in Ep. rewrite E in Ep.
        apply (parser_ast_ok input _) in Ep. exact Ep.
      * right. left.
        destruct (syntax_error_within input _ d E Ho) as (loc & fmt & arg & -> & Hl & Hf).
        exists input, loc, fmt, arg. repeat split; auto.
        -- now apply main_unparsed.
        -- destruct Hf as [-> | ->]; cbn; auto.
    + right. left. exists input, q, cannot_tokenize, None. repeat split.
      * apply main_unparsed. unfold parse_string. now rewrite E.
      * now apply scans_within.
      * now left.
  - right. right. split; [cbn; lia|reflexivity].
Qed.

Lemma parse_same_lexemes (a b : string) (ls : list lexeme) (node : Node)
      (rest : list Token) :
  lexemes a = Some ls -> lexemes b = Some ls ->
  parse_string a = Ok (node, rest) ->
  exists rest', parse_string b = Ok (node, rest').
Proof.
  intros Ha Hb H.
  apply parse_string_sound in H as (e & ts & t & rest' & -> & Htok & Hm & Hc & Hbin & ->).
  unfold lexemes in Ha. rewrite Htok in Ha. injection Ha as Ha.
  rewrite map_app, Hm in Ha. cbn [map] in Ha. subst ls.
  apply lexemes_split in Hb as (ts' & tr & Htok' & Hsp & Htr).
  destruct tr as [|t' tr]; [discriminate|]. injection Htr as Ht Htr.
  exists (t' :: tr). apply (parse_expression b e ts' t' tr); auto. now rewrite Ht.
Qed.

(** X11. What the program prints depends on the lexemes of the input
    only, not on the white space between them or on how a number is
    written: two inputs that read as the same lexemes are compiled to the
    same lines, or both rejected. *)
Theorem same_lexemes_same_code (arg0 arg0' a b : string) (ls : list lexeme) :
  lexemes a = Some ls -> lexemes b = Some ls ->
  stdout (main [arg0; a]) = stdout (main [arg0'; b]) /\
  status (main [arg0; a]) = status (main [arg0'; b]).
Proof.
  intros Ha Hb.
  assert (Ta : exists ta, tokenize a = Ok ta)
    by (unfold lexemes in Ha; destruct (tokenize a); try discriminate; eauto).
  assert (Tb : exists tb, tokenize b = Ok tb)
    by (unfold lexemes in Hb; destruct (tokenize b); try discriminate; eauto).
  destruct Ta as [ta Ta]. destruct Tb as [tb Tb].
  pose proof (parse_string_outcome a ta Ta) as Oa.
  pose proof (parse_string_outcome b tb Tb) as Ob.
  destruct (parse_string a) as [[na ra]|da| |] eqn:Pa; try contradiction.
  - destruct (parse_same_lexemes a b ls na ra Ha Hb Pa) as [rb Pb].
    destruct (main_parsed arg0 a na ra Pa) as (body & Hgen & ->).
    destruct (main_parsed arg0' b na rb Pb) as (body' & Hgen' & ->).
    rewrite Hgen in Hgen'. injection Hgen' as <-. split; reflexivity.
  - destruct (parse_string b) as [[nb rb]|db| |] eqn:Pb; try contradiction.
    + destruct (parse_same_lexemes b a ls nb rb Hb Ha Pb) as [ra Pa'].
      rewrite Pa in Pa'. discriminate.
    + rewrite (main_unparsed arg0 a da Pa), (main_unparsed arg0' b db Pb).
      split; reflexivity.
Qed.

Lemma same_lexemes_same_code_witness :
  stdout (main ["9cc"; "1+02"]) = stdout (main ["./9cc"; " 1 + 2 "]) /\
  status (main ["9cc"; "1+02"]) = status (main ["./9cc"; " 1 + 2 "]).
Proof.
  apply (same_lexemes_same_code "9cc" "./9cc" "1+02" " 1 + 2 "
           [LNum 1; LOp "+"; LNum 2; LEof]); reflexivity.
Defined.

(** ** The text of the diagnostics *)

Lemma get_app_l (a b : string) (i : nat) :
  i < String.length a -> String.get i (a ++ b) = String.get i a.
Proof.
  revert i. induction a as [|x a IH]; intros i Hi; cbn in *; [lia|].
  destruct i as [|i]; [reflexivity|]. apply IH. lia.
Qed.

Lemma get_app_r (a b : string) (j : nat) :
  String.get (String.length a + j) (a ++ b) = String.get j b.
Proof. induction a as [|x a IH]; cbn; auto. Qed.

Lemma length_blanks (n : nat) : String.length (blanks n) = n.
Proof. induction n as [|n IH]; cbn; auto. Qed.

Lemma one_line_blanks (n : nat) : one_line (blanks n) = true.
Proof. induction n as [|n IH]; cbn; auto. Qed.

Lemma length_string_of_list (l : list ascii) :
  String.length (string_of_list_ascii l) = List.length l.
Proof. induction l as [|x l IH]; cbn; auto. Qed.

Lemma get_string_of_list (l : list ascii) (i : nat) :
  i < List.length l -> String.get i (string_of_list_ascii l) = Some (nth i l NUL).
Proof.
  revert i. induction l as [|x l IH]; intros i Hi; cbn in *; [lia|].
  destruct i as [|i]; [reflexivity|]. apply IH. lia.
Qed.

(** Within a part without a newline the column goes up with the index,
    and the row stays. *)
Lemma locate_in (a b : string) (r c i : nat) :
  one_line a = true -> i <= String.length a ->
  locate_from r c (a ++ b) i = (r, c + i).
Proof.
  revert c i. induction a as [|x a IH]; intros c i Ha Hi; cbn in *.
  - replace i with 0 by lia. destruct b; cbn; f_equal; lia.
  - destruct i as [|i]; [f_equal; lia|].
    apply andb_prop in Ha as [Hx Ha]. apply negb_true_iff in Hx. rewrite Hx.
    rewrite IH by (auto; lia). f_equal. lia.
Qed.

Lemma locate_past (a b : string) (r c j : nat) :
  one_line a = true ->
  locate_from r c (a ++ b) (String.length a + j) =
  locate_from r (c + String.length a) b j.
Proof.
  revert c. induction a as [|x a IH]; intros c Ha; cbn in *.
  - now rewrite Nat.add_0_r.
  - apply andb_prop in Ha as [Hx Ha]. apply negb_true_iff in Hx. rewrite Hx.
    rewrite IH by exact Ha. f_equal. lia.
Qed.

(** X12. The lines on the error stream, and where the caret stands.
    [error_at] prints the input, a newline, as many blanks as the offset
    says (yet one at offset 0), the caret and the message. When the input
    has no newline in it and the offset is 1 or more, the caret stands in
    the second row in the column of the offset, and the byte at the offset
    stands in the first row in that same column, columns counted in
    bytes: the caret is under the offending byte, or just past the end of
    the input when the offset is its length. *)
Theorem diagnostic_text (user_input : string) (c_arg : ascii) (loc : nat)
        (fmt : string) (arg : option string) :
  let line := string_of_list_ascii (c_str (mem user_input)) in
  let text := stderr_text user_input c_arg (ErrorAt loc fmt arg) in
  let caret := String.length line + 1 + loc in
  text = (line ++ nl ++ blanks (Nat.max 1 loc) ++ "^ " ++
          format fmt "" c_arg ++ nl)%string /\
  (one_line line = true -> 1 <= loc <= String.length line ->
   String.get caret text = Some "^"%char /\
   locate text caret = (1, loc) /\
   locate text loc = (0, loc) /\
   (loc < String.length line ->
    String.get loc text = Some (deref user_input loc))).
Proof.
  cbv zeta. set (line := string_of_list_ascii (c_str (mem user_input))).
  assert (E : stderr_text user_input c_arg (ErrorAt loc fmt arg) =
              (line ++ nl ++ blanks (Nat.max 1 loc) ++ "^ " ++
               format fmt "" c_arg ++ nl)%string).
  { rewrite stderr_text_error_at. unfold caret_line. rewrite pad_left_blank.
    now rewrite !string_app_assoc. }
  split; [exact E|]. intros Hline [H1 Hl]. rewrite E.
  replace (Nat.max 1 loc) with loc by lia.
  set (rest := (blanks loc ++ "^ " ++ format fmt "" c_arg ++ nl)%string).
  assert (Hrest : (line ++ nl ++ rest)%string =
                  (line ++ String "010" rest)%string) by reflexivity.
  rewrite Hrest. repeat split.
  - rewrite <- Nat.add_assoc, get_app_r. cbn [Nat.add String.get].
    unfold rest. rewrite <- (Nat.add_0_r loc) at 1.
    rewrite <- (length_blanks loc) at 1. rewrite get_app_r. reflexivity.
  - unfold locate. rewrite <- Nat.add_assoc, locate_past by exact Hline.
    cbn [Nat.add locate_from]. cbn [Ascii.eqb Bool.eqb andb].
    unfold rest. rewrite locate_in; [reflexivity|apply one_line_blanks|].
    rewrite length_blanks. lia.
  - unfold locate. rewrite locate_in by assumption. reflexivity.
  - intros Hlt. rewrite get_app_l by exact Hlt. unfold line in *.
    rewrite length_string_of_list in Hlt. rewrite get_string_of_list by exact Hlt.
    f_equal. symmetry. now apply load_c_str.
Qed.

Lemma diagnostic_text_witness :
  locate (stderr_text "1+a" "000" (ErrorAt 2 cannot_tokenize None)) (3 + 1 + 2) = (1, 2).
Proof.
  apply (proj2 (diagnostic_text "1+a" "000" 2 cannot_tokenize None));
    [reflexivity|cbn; lia].
Defined.

(** With a newline in the input the caret is not under the offending
    byte: in "1", newline, "+a" the error is at offset 3, the byte [a] in
    column 1 of the second row, and the caret in column 3 of the third. *)
Example caret_after_newline :
  let input := String "1" (String "010" "+a") in
  let text := stderr_text input "000" (ErrorAt 3 cannot_tokenize None) in
  main ["9cc"; input] = die (ErrorAt 3 cannot_tokenize None) /\
  String.get 3 text = Some "a"%char /\
  locate text 3 = (1, 1) /\
  String.get (4 + 1 + 3) text = Some "^"%char /\
  locate text (4 + 1 + 3) = (2, 3).
Proof. repeat split. Qed.

(** ** The code determines the tree *)

Lemma read_code_app (a b : list instr) (m : reader) :
  read_code (a ++ b) m =
  match read_code a m with Some m' => read_code b m' | None => None end.
Proof.
  revert m; induction a as [|i a IH]; intros m; [reflexivity|].
  cbn. destruct (read_instr i m); [apply IH|reflexivity].
Qed.

Lemma read_own (k : NodeKind) (l r : Node) (m : reader) :
  k <> ND_NUM -> trees m = r :: l :: tl (tl (trees m)) ->
  exists m',
    read_code ([LdrPost X1; LdrPost X0] ++ gen_op k ++ [StrPre X0]) m = Some m' /\
    trees m' = new_binary k l r :: tl (tl (trees m)).
Proof.
  intros Hk E. destruct m as [a0 a1 a2 c s]. cbn in E.
  destruct s as [|r' [|l' s]]; try discriminate. injection E as -> ->.
  destruct k; try contradiction; cbn; eexists; split; reflexivity.
Qed.

Lemma plain_ast_ok (node : Node) : plain node = true -> ast_ok node = true.
Proof.
  induction node as [k lhs IHl rhs IHr v]. cbn [plain ast_ok].
  destruct (NodeKind_eqb k ND_NUM); [auto|].
  destruct IHl as [l IHl|]; [|now rewrite andb_false_r].
  destruct IHr as [r IHr|]; [|now rewrite andb_false_r].
  rewrite !andb_true_iff. intros (_ & Hl & Hr). auto.
Qed.

(** Read back, the code of a tree puts the tree on the stack. *)
Lemma gen_read_code (node : Node) :
  plain node = true ->
  forall code, gen node = Ok code ->
  forall m, exists m', read_code code m = Some m' /\ trees m' = node :: trees m.
Proof.
  induction node as [k lhs IHl rhs IHr v]. cbn [plain gen].
  destruct (NodeKind_eqb k ND_NUM) eqn:Ek.
  - intros H code [= <-] m. apply andb_prop in H as [Hl Hr].
    destruct lhs; [discriminate|]. destruct rhs; [discriminate|].
    destruct k; try discriminate. eexists. split; reflexivity.
  - destruct IHl as [l IHl|]; [|now rewrite andb_false_r].
    destruct IHr as [r IHr|]; [|now rewrite andb_false_r].
    rewrite !andb_true_iff. intros (Hv & Hl & Hr) code.
    apply Z.eqb_eq in Hv. subst v.
    destruct (gen l) as [cl| | |]; try discriminate. cbn [bind].
    destruct (gen r) as [cr| | |]; try discriminate. cbn [bind].
    intros [= <-] m.
    destruct (IHl Hl cl eq_refl m) as (m1 & E1 & S1).
    destruct (IHr Hr cr eq_refl m1) as (m2 & E2 & S2).
    rewrite read_code_app, E1, read_code_app, E2.
    assert (Hk : k <> ND_NUM) by (intros ->; discriminate).
    destruct (read_own k l r m2 Hk) as (m' & E' & S').
    + now rewrite S2, S1.
    + exists m'. split; [exact E'|]. rewrite S', S2, S1. reflexivity.
Qed.

Lemma plain_node_of (e : sexp) : plain (node_of e) = true.
Proof.
  induction e as [n|a IH|a IH|a IH|op a IHa b IHb]; cbn [node_of].
  - reflexivity.
  - exact IH.
  - exact IH.
  - cbn. now rewrite IH.
  - unfold build. destruct (swaps op); destruct op; cbn; now rewrite IHa, IHb.
Qed.

(** X13. The lines printed tell the tree: the trees the parser returns
    are built by [new_num] and [new_binary] alone, and two such trees for
    which [gen] prints the same lines are the same tree. *)
Theorem code_determines_tree :
  (forall (input : string) (node : Node) (rest : list Token),
      parse_string input = Ok (node, rest) -> plain node = true) /\
  (forall a b : Node,
      plain a = true -> plain b = true -> gen a = gen b -> a = b).
Proof.
  split.
  - intros input node rest H.
    apply parse_string_sound in H as (e & _ & _ & _ & _ & _ & _ & _ & _ & ->).
    apply plain_node_of.
  - intros a b Ha Hb E.
    destruct (gen_correct a (plain_ast_ok a Ha)) as (code & Ea & _).
    pose proof Ea as Eb. rewrite E in Eb.
    set (m := mkReader None None None None []).
    destruct (gen_read_code a Ha code Ea m) as (ma & Ra & Sa).
    destruct (gen_read_code b Hb code Eb m) as (mb & Rb & Sb).
    rewrite Ra in Rb. injection Rb as <-. rewrite Sa in Sb. now injection Sb.
Qed.

Lemma code_determines_tree_witness :
  plain (new_binary ND_SUB (new_num 0) (new_num 5)) = true.
Proof.
  apply (proj1 code_determines_tree "-5" _ [mkToken TK_EOF 0 2 0]). reflexivity.
Defined.

(** ** The stack the code needs *)

Lemma firstn_app_le {A : Type} (n : nat) (a b : list A) :
  n <= List.length a -> firstn n (a ++ b) = firstn n a.
Proof.
  intros H. rewrite firstn_app. replace (n - List.length a) with 0 by lia.
  cbn. apply app_nil_r.
Qed.

Lemma firstn_app_ge {A : Type} (n : nat) (a b : list A) :
  List.length a <= n -> firstn n (a ++ b) = a ++ firstn (n - List.length a) b.
Proof. intros H. rewrite firstn_app. now rewrite firstn_all2 by exact H. Qed.

Lemma slots_pos (node : Node) : 1 <= slots node.
Proof.
  destruct node as [k lhs rhs v]. cbn [slots].
  destruct (NodeKind_eqb k ND_NUM); lia.
Qed.

Lemma own_heights (k : NodeKind) (n : nat) (a b : Z) (s : list Z) (m : machine) :
  k <> ND_NUM -> stack m = b :: a :: s ->
  exists m',
    exec (firstn n ([LdrPost X1; LdrPost X0] ++ gen_op k ++ [StrPre X0])) m = Some m' /\
    List.length s <= height m' <= List.length s + 2.
Proof.
  intros Hk E. destruct m as [a0 a1 a2 f st]. cbn in E. subst st.
  destruct k; try contradiction;
    destruct n as [|[|[|[|[|[|n]]]]]];
    cbn -[sx64 sdiv cmp_flags holds]; eexists; (split; [reflexivity|]);
    unfold height; cbn; lia.
Qed.

Lemma gen_heights (node : Node) :
  ast_ok node = true ->
  forall code, gen node = Ok code ->
  forall n m, exists m',
    exec (firstn n code) m = Some m' /\
    height m <= height m' <= height m + slots node.
Proof.
  induction node as [k lhs IHl rhs IHr v]. cbn [ast_ok gen slots].
  destruct (NodeKind_eqb k ND_NUM) eqn:Ek.
  - intros _ code [= <-] n m. destruct m as [a0 a1 a2 f st].
    destruct n as [|[|[|n]]]; cbn -[sx64]; eexists; (split; [reflexivity|]);
      unfold height; cbn; lia.
  - destruct IHl as [l IHl|]; [|discriminate].
    destruct IHr as [r IHr|]; [|discriminate].
    intros H code. apply andb_prop in H as [Hl Hr].
    destruct (gen_correct l Hl) as (cl & El & _ & Xl).
    destruct (gen_correct r Hr) as (cr & Er & _ & Xr).
    rewrite El, Er. cbn [bind]. intros [= <-] n m.
    destruct (Xl m) as (m1 & E1 & S1). destruct (Xr m1) as (m2 & E2 & S2).
    assert (H1 : height m1 = S (height m)) by (unfold height; now rewrite S1).
    destruct (Nat.le_gt_cases n (List.length cl)) as [Hn|Hn].
    { rewrite firstn_app_le by exact Hn.
      destruct (IHl Hl cl El n m) as (m' & E' & B'). exists m'. split; [exact E'|lia]. }
    rewrite firstn_app_ge, exec_app, E1 by lia.
    destruct (Nat.le_gt_cases (n - List.length cl) (List.length cr)) as [Hn'|Hn'].
    { rewrite firstn_app_le by exact Hn'.
      destruct (IHr Hr cr Er (n - List.length cl) m1) as (m' & E' & B').
      exists m'. split; [exact E'|lia]. }
    rewrite firstn_app_ge, exec_app, E2 by lia.
    assert (Hk : k <> ND_NUM) by (intros ->; discriminate).
    destruct (own_heights k (n - List.length cl - List.length cr)
                (value64 l) (value64 r) (stack m) m2 Hk) as (m' & E' & B').
    + now rewrite S2, S1.
    + exists m'. split; [exact E'|]. pose proof (slots_pos r). unfold height in *. lia.
Qed.

Lemma gen_peak (node : Node) :
  ast_ok node = true ->
  forall code, gen node = Ok code ->
  forall m, exists n m',
    exec (firstn n code) m = Some m' /\ height m' = height m + slots node.
Proof.
  induction node as [k lhs IHl rhs IHr v]. cbn [ast_ok gen slots].
  destruct (NodeKind_eqb k ND_NUM) eqn:Ek.
  - intros _ code [= <-] m. exists 2. destruct m as [a0 a1 a2 f st].
    eexists. split; [reflexivity|]. unfold height. cbn. lia.
  - destruct IHl as [l IHl|]; [|discriminate].
    destruct IHr as [r IHr|]; [|discriminate].
    intros H code. apply andb_prop in H as [Hl Hr].
    destruct (gen_correct l Hl) as (cl & El & _ & Xl).
    destruct (gen_correct r Hr) as (cr & Er & _ & Xr).
    rewrite El, Er. cbn [bind]. intros [= <-] m.
    destruct (Xl m) as (m1 & E1 & S1).
    assert (H1 : height m1 = S (height m)) by (unfold height; now rewrite S1).
    destruct (Nat.le_gt_cases (S (slots r)) (slots l)) as [Hs|Hs].
    + destruct (IHl Hl cl El m) as (n & m' & E' & B').
      exists (Nat.min n (List.length cl)), m'. split; [|lia].
      rewrite firstn_app_le by lia.
      destruct (Nat.le_gt_cases n (List.length cl)) as [Hn|Hn].
      * now rewrite Nat.min_l by exact Hn.
      * rewrite Nat.min_r by lia. rewrite firstn_all2 in E' by lia.
        now rewrite firstn_all.
    + destruct (IHr Hr cr Er m1) as (n & m' & E' & B').
      exists (List.length cl + Nat.min n (List.length cr)), m'. split; [|lia].
      rewrite firstn_app_ge, exec_app, E1 by lia.
      replace (List.length cl + Nat.min n (List.length cr) - List.length cl)
        with (Nat.min n (List.length cr)) by lia.
      rewrite firstn_app_le by lia.
      destruct (Nat.le_gt_cases n (List.length cr)) as [Hn|Hn].
      * now rewrite Nat.min_l by exact Hn.
      * rewrite Nat.min_r by lia. rewrite firstn_all2 in E' by lia.
        now rewrite firstn_all.
Qed.

(** X14. The stack the code of a tree needs. After any number of the
    lines [gen] prints for a well-formed tree, the stack is no lower than
    at the start and at most [slots] higher, and at some line it is that
    high: one slot for a number, and for any other node what the left
    operand needs or one more than the right one needs, whichever is
    greater. *)
Theorem gen_stack_need (node : Node) (code : list instr) (m : machine) :
  ast_ok node = true -> gen node = Ok code ->
  (forall n, exists m',
      exec (firstn n code) m = Some m' /\
      height m <= height m' <= height m + slots node) /\
  (exists n m',
      exec (firstn n code) m = Some m' /\ height m' = height m + slots node).
Proof.
  intros Hok Hgen. split.
  - intros n. now apply (gen_heights node Hok code Hgen).
  - now apply (gen_peak node Hok code Hgen).
Qed.

Lemma gen_stack_need_witness :
  exists n m',
    exec (firstn n [MovImm X2 1; StrPre X2; MovImm X2 2; StrPre X2;
                    LdrPost X1; LdrPost X0; AddR X0 X0 X1; StrPre X0]) boot = Some m' /\
    height m' = height boot + 2.
Proof.
  apply (gen_stack_need (new_binary ND_ADD (new_num 1) (new_num 2)) _ boot);
    reflexivity.
Defined.

(** ** The inputs accepted *)

(** X15. The program ends with status 0 exactly on the inputs whose
    lexemes begin with an expression that obeys the precedence rules,
    followed by a lexeme that is not a binary operator (the end of the
    input is one). *)
Theorem accepted_inputs (arg0 input : string) :
  status (main [arg0; input]) = Exited 0 <->
  exists e l more,
    lexemes input = Some (flatten e ++ l :: more) /\
    conforms 0 e = true /\ is_binop l = false.
Proof.
  split.
  - intros H. destruct (parse_string input) as [[node rest]|d| |] eqn:Ep.
    + apply parse_string_sound in Ep
        as (e & ts & t & rest' & -> & Htok & Hm & Hc & Hb & _).
      exists e, (lexeme_of input t), (map (lexeme_of input) rest').
      unfold lexemes. rewrite Htok, map_app, Hm. repeat split; auto.
    + rewrite (main_unparsed arg0 input d Ep) in H. discriminate.
    + unfold parse_string, main in *.
      destruct (tokenize input); cbn [bind] in Ep; try discriminate.
      rewrite Ep in H. discriminate.
    + unfold parse_string, main in *.
      destruct (tokenize input); cbn [bind] in Ep; try discriminate.
      rewrite Ep in H. discriminate.
  - intros (e & l & more & Hlex & Hc & Hb).
    apply lexemes_split in Hlex as (ts & tr & Htok & Hsp & Htr).
    destruct tr as [|t tr]; [discriminate|]. injection Htr as Ht Htr.
    destruct (main_parsed arg0 input (node_of e) (t :: tr)) as (body & _ & ->);
      [|reflexivity].
    apply (parse_expression input e ts t tr); auto. now rewrite Ht.
Qed.

Lemma accepted_inputs_witness : status (main ["9cc"; "(1+2)*3"]) = Exited 0.
Proof.
  apply (proj2 (accepted_inputs "9cc" "(1+2)*3")).
  exists (SBin OMul (SParen (SBin OAdd (SNum 1) (SNum 2))) (SNum 3)), LEof, [].
  repeat split.
Defined.

(** ** Arithmetic that overflows *)

Lemma sx64_repr (a : Z) : exists q, sx64 a = (a + q * 2 ^ 64)%Z.
Proof.
  exists (- ((a + 2 ^ 63) / 2 ^ 64))%Z. unfold sx64. Z.div_mod_to_equations. lia.
Qed.

Lemma sx64_shift (a q : Z) : sx64 (a + q * 2 ^ 64) = sx64 a.
Proof.
  unfold sx64. replace (a + q * 2 ^ 64 + 2 ^ 63)%Z with (a + 2 ^ 63 + q * 2 ^ 64)%Z by ring.
  now rewrite Z.mod_add by lia.
Qed.

Lemma sx64_add (a b : Z) : sx64 (sx64 a + sx64 b) = sx64 (a + b).
Proof.
  destruct (sx64_repr a) as [qa ->]. destruct (sx64_repr b) as [qb ->].
  replace (a + qa * 2 ^ 64 + (b + qb * 2 ^ 64))%Z
    with (a + b + (qa + qb) * 2 ^ 64)%Z by ring.
  apply sx64_shift.
Qed.

Lemma sx64_sub (a b : Z) : sx64 (sx64 a - sx64 b) = sx64 (a - b).
Proof.
  destruct (sx64_repr a) as [qa ->]. destruct (sx64_repr b) as [qb ->].
  replace (a + qa * 2 ^ 64 - (b + qb * 2 ^ 64))%Z
    with (a - b + (qa - qb) * 2 ^ 64)%Z by ring.
  apply sx64_shift.
Qed.

Lemma sx64_mul (a b : Z) : sx64 (sx64 a * sx64 b) = sx64 (a * b).
Proof.
  destruct (sx64_repr a) as [qa ->]. destruct (sx64_repr b) as [qb ->].
  replace ((a + qa * 2 ^ 64) * (b + qb * 2 ^ 64))%Z
    with (a * b + (qa * b + a * qb + qa * qb * 2 ^ 64) * 2 ^ 64)%Z by ring.
  apply sx64_shift.
Qed.

(** The value of the tree is the value of the expression, reduced to 64
    bits. *)
Lemma value64_wraps (e : sexp) :
  forall k v,
    conforms k e = true -> ring_only e = true -> seval e = Some v ->
    value64 (node_of e) = sx64 v.
Proof.
  induction e as [n|a IH|a IH|a IH|op a IHa b IHb]; intros k v Hc Hr Hv;
    cbn [conforms ring_only seval node_of] in *.
  - injection Hv as <-. apply Z.leb_le in Hc, Hr.
    cbn -[sx64]. now rewrite literal_small by lia.
  - eauto.
  - apply andb_prop in Hc as [_ Hc]. eauto.
  - apply andb_prop in Hc as [_ Hc].
    destruct (seval a) as [x|]; [|discriminate]. injection Hv as <-.
    cbn -[sx64]. rewrite (IH 5 x Hc Hr eq_refl).
    change 0%Z with (sx64 0) at 1. rewrite sx64_sub. f_equal.
  - rewrite !andb_true_iff in Hc. destruct Hc as [[_ Hca] Hcb].
    destruct (seval a) as [x|]; [|destruct op; discriminate].
    destruct (seval b) as [y|]; [|destruct op; discriminate].
    destruct op; try discriminate; apply andb_prop in Hr as [Hra Hrb];
      injection Hv as <-; cbn -[sx64];
      rewrite (IHa _ x Hca Hra eq_refl), (IHb _ y Hcb Hrb eq_refl).
    + apply sx64_add.
    + apply sx64_sub.
    + apply sx64_mul.
Qed.

(** X16. Sums, differences and products that do not fit a register wrap
    around: for an expression of literals that fit an [int] and that the
    assembler accepts in a [mov], signs, parentheses and the operators
    [+], [-] and [*], the program returns the value of the expression
    reduced to the signed 64-bit range, whatever the values in between. *)
Theorem overflow_wraps_around (input : string) (e : sexp) (v : Z) :
  lexemes input = Some (flatten e ++ [LEof]) ->
  conforms 0 e = true -> ring_only e = true -> loadable e = true ->
  seval e = Some v ->
  returns input = Some (sx64 v).
Proof.
  intros Hlex Hc Hr Hl Hv.
  apply lexemes_split in Hlex as (ts & tr & Htok & Hsp & Htr).
  destruct tr as [|t [|t' tr]]; try discriminate. injection Htr as Ht.
  assert (Hp : parse_string input = Ok (node_of e, [t])).
  { apply (parse_expression input e ts t []); auto. now rewrite Ht. }
  assert (Hok : ast_ok (node_of e) = true).
  { unfold parse_string in Hp. rewrite Htok in Hp.
    apply (parser_ast_ok input _) in Hp. exact Hp. }
  destruct (main_parsed "9cc" input _ _ Hp) as (body & Hgen & Hm).
  unfold returns. rewrite Hm. cbn [status stdout].
  rewrite (target_call_main (node_of e) body boot Hok Hgen), loads_node_of, Hl.
  cbn [option_map fst]. now rewrite (value64_wraps e 0 v Hc Hr Hv).
Qed.

Lemma overflow_wraps_around_witness :
  returns "2147483647*2147483647*2147483647" =
  Some (sx64 9903520300447984150353281023).
Proof.
  apply (overflow_wraps_around "2147483647*2147483647*2147483647"
           (SBin OMul (SBin OMul (SNum 2147483647) (SNum 2147483647))
              (SNum 2147483647)));
    vm_compute; reflexivity.
Defined.

(** ** One token of lookahead *)

Lemma same_head (t1 t2 : Token) (after1 after2 u x : list Token) :
  t1 :: after1 = u ++ t2 :: after2 -> exists y, u ++ t2 :: x = t1 :: y.
Proof.
  destruct u as [|t u]; cbn; intros [= -> _]; eauto.
Qed.

(** [q] does on a list what [p] does on it, as long as the list begins
    with [t]. *)
Lemma decided_same_head {A : Type} (p q : parser A) (t : Token) (next : list Token) :
  (forall y, q (t :: y) = p (t :: y)) ->
  decided p (t :: next) -> decided q (t :: next).
Proof.
  intros Hq. unfold decided. rewrite (Hq next).
  destruct (p (t :: next)) as [[a rest]|d| |]; auto.
  - intros [He (used & t' & after & E & Er & Hall)]. split; [exact He|].
    exists used, t', after. repeat split; auto. intros x.
    destruct (same_head _ _ _ _ _ x E) as [y Ey].
    rewrite Ey, Hq, <- Ey. apply Hall.
  - intros (before & t' & after & E & Hd & Hall).
    exists before, t', after. repeat split; auto. intros x.
    destruct (same_head _ _ _ _ _ x E) as [y Ey].
    rewrite Ey, Hq, <- Ey. apply Hall.
Qed.

(** [q] steps over [t] and goes on as [p]. *)
Lemma decided_skip {A : Type} (p q : parser A) (t : Token) (next : list Token) :
  (forall y, q (t :: y) = p y) ->
  decided p next -> decided q (t :: next).
Proof.
  intros Hq. unfold decided. rewrite (Hq next).
  destruct (p next) as [[a rest]|d| |]; auto.
  - intros [He (used & t' & after & -> & Er & Hall)]. split; [exact He|].
    exists (t :: used), t', after. repeat split; auto. intros x.
    cbn [app]. rewrite Hq. apply Hall.
  - intros (before & t' & after & -> & Hd & Hall).
    exists (t :: before), t', after. repeat split; auto. intros x.
    cbn [app]. rewrite Hq. apply Hall.
Qed.

Lemma decided_ret {A : Type} (a : A) (token : list Token) :
  ends_eof token -> decided (ret a) token.
Proof.
  intros He. destruct (ends_eof_not_nil token He) as (t & next & ->).
  split; [exact He|]. exists [], t, next. repeat split.
Qed.

Lemma decided_bind {A B : Type} (p : parser A) (k : A -> parser B)
      (token : list Token) :
  decided p token ->
  (forall a rest, ends_eof rest -> decided (k a) rest) ->
  decided (pbind p k) token.
Proof.
  unfold decided at 1 3. unfold pbind at 1. unfold bind.
  destruct (p token) as [[a rest]|d| |]; auto.
  - intros [He (used & t & after & -> & -> & Hp)] Hk. specialize (Hk a _ He).
    unfold decided in Hk.
    destruct (k a (t :: after)) as [[b rest']|d| |]; auto.
    + destruct Hk as [He' (used' & t' & after' & E & -> & Hall)]. split; [exact He'|].
      exists (used ++ used'), t', after'. rewrite <- app_assoc, <- E.
      repeat split. intros x. rewrite <- app_assoc.
      destruct (same_head _ _ _ _ _ x E) as [y Ey].
      unfold pbind, bind. rewrite Ey, Hp, <- Ey. apply Hall.
    + destruct Hk as (before & t' & after' & E & Hd & Hall).
      exists (used ++ before), t', after'. rewrite <- app_assoc, <- E.
      repeat split; auto. intros x. rewrite <- app_assoc.
      destruct (same_head _ _ _ _ _ x E) as [y Ey].
      unfold pbind, bind. rewrite Ey, Hp, <- Ey. apply Hall.
  - intros (before & t & after & -> & Hd & Hp) _.
    exists before, t, after. repeat split; auto. intros x.
    unfold pbind, bind. now rewrite Hp.
Qed.

Section DecidedSteps.

Variable s : string.

Lemma decided_consume {A : Type} (op : string) (k : bool -> parser A)
      (token : list Token) :
  ends_eof token ->
  (forall t next, token = t :: next -> ends_eof next -> decided (k true) next) ->
  (forall t next, token = t :: next -> decided (k false) token) ->
  decided (pbind (consume s op) k) token.
Proof.
  intros He Ht Hf. destruct (ends_eof_not_nil token He) as (t & next & ->).
  destruct (mismatch s op t) eqn:Em.
  - apply (decided_same_head (k false)); [|now apply (Hf t next)].
    intros y. unfold pbind, bind, consume. now rewrite Em.
  - apply (decided_skip (k true)).
    + intros y. unfold pbind, bind, consume. now rewrite Em.
    + apply (Ht t next eq_refl). apply (ends_eof_cons t next He).
      now apply (mismatch_reserved s op).
Qed.

Lemma decided_expect {A : Type} (op : string) (k : unit -> parser A)
      (token : list Token) :
  ends_eof token ->
  (forall t next, token = t :: next -> ends_eof next -> decided (k tt) next) ->
  decided (pbind (expect s op) k) token.
Proof.
  intros He Ht. destruct (ends_eof_not_nil token He) as (t & next & ->).
  destruct (mismatch s op t) eqn:Em.
  - assert (E : forall y, pbind (expect s op) k (t :: y) =
                          Exit1 (ErrorAt (str t) "'%c'ではありません" (Some op)))
      by (intros y; unfold pbind, bind, expect; now rewrite Em).
    unfold decided. rewrite E. exists [], t, next. repeat split; eauto.
  - apply (decided_skip (k tt)).
    + intros y. unfold pbind, bind, expect. now rewrite Em.
    + apply (Ht t next eq_refl). apply (ends_eof_cons t next He).
      now apply (mismatch_reserved s op).
Qed.

Lemma decided_expect_number {A : Type} (k : Z -> parser A) (token : list Token) :
  ends_eof token ->
  (forall t next, token = t :: next -> ends_eof next -> decided (k (val t)) next) ->
  decided (pbind expect_number k) token.
Proof.
  intros He Ht. destruct (ends_eof_not_nil token He) as (t & next & ->).
  destruct (negb (TokenKind_eqb (kind t) TK_NUM)) eqn:Ek.
  - assert (E : forall y, pbind expect_number k (t :: y) =
                          Exit1 (ErrorAt (str t) "数ではありません" None))
      by (intros y; unfold pbind, bind, expect_number; now rewrite Ek).
    unfold decided. rewrite E. exists [], t, next. repeat split; eauto.
  - apply (decided_skip (k (val t))).
    + intros y. unfold pbind, bind, expect_number. now rewrite Ek.
    + apply (Ht t next eq_refl). apply (ends_eof_cons t next He).
      intros Hk. rewrite Hk in Ek. discriminate.
Qed.

Ltac head_token E := first [injection E as <- <- | subst].

Lemma parser_decided (fuel : nat) :
  (forall token, ends_eof token -> decided (expr s fuel) token) /\
  (forall token, ends_eof token -> decided (equality s fuel) token) /\
  (forall node token, ends_eof token -> decided (equality_loop s fuel node) token) /\
  (forall token, ends_eof token -> decided (relational s fuel) token) /\
  (forall node token, ends_eof token -> decided (relational_loop s fuel node) token) /\
  (forall token, ends_eof token -> decided (add s fuel) token) /\
  (forall node token, ends_eof token -> decided (add_loop s fuel node) token) /\
  (forall token, ends_eof token -> decided (mul s fuel) token) /\
  (forall node token, ends_eof token -> decided (mul_loop s fuel node) token) /\
  (forall token, ends_eof token -> decided (unary s fuel) token) /\
  (forall token, ends_eof token -> decided (primary s fuel) token).
Proof.
  induction fuel as [|fuel IH].
  - repeat match goal with |- _ /\ _ => split end; intros; exact I.
  - destruct IH as (Ie & Iq & Iql & Ir & Irl & Ia & Ial & Im & Iml & Iu & Ip).
    repeat match goal with |- _ /\ _ => split end; intros;
      autorewrite with parser_unfold;
      repeat first
        [ assumption
        | apply decided_ret
        | match goal with
          | |- decided (pbind (consume _ _) _) _ =>
              apply decided_consume;
              [ | let E := fresh "E" in intros ? ? E ?; head_token E
                | let E := fresh "E" in intros ? ? E; head_token E ];
              cbv beta iota
          | |- decided (pbind (expect _ _) _) _ =>
              apply decided_expect;
              [ | let E := fresh "E" in intros ? ? E ?; head_token E ]; cbv beta
          | |- decided (pbind expect_number _) _ =>
              apply decided_expect_number;
              [ | let E := fresh "E" in intros ? ? E ?; head_token E ]; cbv beta
          | |- decided (pbind _ _) _ => apply decided_bind; [| intros ? ? ?; cbv beta]
          | |- decided (expr _ _) _ => apply Ie
          | |- decided (equality _ _) _ => apply Iq
          | |- decided (equality_loop _ _ _) _ => apply Iql
          | |- decided (relational _ _) _ => apply Ir
          | |- decided (relational_loop _ _ _) _ => apply Irl
          | |- decided (add _ _) _ => apply Ia
          | |- decided (add_loop _ _ _) _ => apply Ial
          | |- decided (mul _ _) _ => apply Im
          | |- decided (mul_loop _ _ _) _ => apply Iml
          | |- decided (unary _ _) _ => apply Iu
          | |- decided (primary _ _) _ => apply Ip
          end ].
Qed.

End DecidedSteps.

(** X17. The parser looks at one token at a time and never beyond the
    one the cursor is on. When [expr] returns with the cursor on a token
    [t], it returns the same tree, with the cursor on [t], whatever comes
    after [t] in the list; and when it reports a token [t], it reports the
    same whatever comes after [t]. *)
Theorem parser_looks_one_token_ahead (user_input : string) (fuel : nat)
        (token : list Token) :
  ends_eof token ->
  (forall node rest,
      expr user_input fuel token = Ok (node, rest) ->
      exists used t after,
        token = used ++ t :: after /\ rest = t :: after /\
        forall after',
          expr user_input fuel (used ++ t :: after') = Ok (node, t :: after')) /\
  (forall d,
      expr user_input fuel token = Exit1 d ->
      exists before t after,
        token = before ++ t :: after /\
        (exists fmt arg, d = ErrorAt (str t) fmt arg) /\
        forall after',
          expr user_input fuel (before ++ t :: after') = Exit1 d).
Proof.
  intros He. destruct (parser_decided user_input fuel) as (Ie & _).
  specialize (Ie token He). unfold decided in Ie. split.
  - intros node rest E. rewrite E in Ie. now destruct Ie as [_ Ie].
  - intros d E. now rewrite E in Ie.
Qed.

Lemma parser_looks_one_token_ahead_witness :
  exists used t after,
    [mkToken TK_NUM 1 0 1; mkToken TK_NUM 2 2 1; mkToken TK_EOF 0 3 0] =
      used ++ t :: after /\
    [mkToken TK_NUM 2 2 1; mkToken TK_EOF 0 3 0] = t :: after /\
    forall after', expr "1 2" 20 (used ++ t :: after') = Ok (new_num 1, t :: after').
Proof.
  apply (parser_looks_one_token_ahead "1 2" 20
           [mkToken TK_NUM 1 0 1; mkToken TK_NUM 2 2 1; mkToken TK_EOF 0 3 0]).
  - exists [mkToken TK_NUM 1 0 1; mkToken TK_NUM 2 2 1], (mkToken TK_EOF 0 3 0).
    split; reflexivity.
  - reflexivity.
Defined.
